(** * FWDL: the optimizers of [optimizers.py]

    A shallow embedding of the three optimizer classes [SGDl1], [SGDFWl1]
    and [SGDFWNuclear] and of the part of the [torch.optim.Optimizer] base
    class they rely on, and of the naming of the experiments in [run.py],
    followed by the properties of the update rules.

    Conventions of the embedding.
    - Numbers are rationals ([Qc], canonical fractions with Leibniz
      equality).  The update formulas are stated in exact arithmetic.  The
      Frank-Wolfe step is also given in the arithmetic of the source, where
      every operation on a float32 tensor rounds its exact result to the
      nearest binary32 number (ties to even, with subnormal numbers) and
      [gamma] is a Python float (binary64); what depends on the rounding,
      the distance to the ball, is stated there.  Infinities and NaN are not
      modelled: the rounding has no largest number.  Python 3 is assumed,
      so [2 / (self.k + 2)] is a true division.
    - A tensor is the list of its entries in storage order.  Element-wise
      operations pair the entries of their operands; in the source the
      operands always have one shape (torch lets a gradient only have the
      shape of its parameter, [zeros_like] copies the shape, and the oracles
      return an array of the shape of their argument).
    - Parameters are objects on a heap, named by their identity; the groups
      of an optimizer hold identities, so in-place updates are seen by every
      holder of the parameter.
    - Python exceptions are results [Raise e]; what was mutated before the
      exception stays mutated.
    - The world carries a record of events (the invocations of the closure
      and the visits of the loop over the parameters); the code has no such
      record, it is there to state when the closure runs. *)

From Stdlib Require Import QArith Qcanon Qcabs Qabs Qpower Lqa Ascii.
From stdpp Require Import base numbers strings list gmap.

Local Open Scope string_scope.
Local Open Scope Qc_scope.
Local Open Scope list_scope.

(** ** Numbers and tensors *)

(** [torch.sign] on one entry: -1, 0 or 1. *)
Definition sign (x : Qc) : Qc := Qc_of_Z (Z.sgn (Qnum (this x))).

Definition tensor := list Qc.

(** [torch.sign(t)] *)
Definition t_sign (t : tensor) : tensor := sign <$> t.

(** [torch.zeros_like(t)] *)
Definition zeros_like (t : tensor) : tensor := (λ _, 0) <$> t.

(** [c * t], a scalar times a tensor *)
Definition t_scale (c : Qc) (t : tensor) : tensor := Qcmult c <$> t.

(** [a - b] *)
Definition t_sub (a b : tensor) : tensor := zip_with Qcminus a b.

(** [a.add_(b)]: the new contents of [a] *)
Definition t_add (a b : tensor) : tensor := zip_with Qcplus a b.

(** [a.add_(c, b)] (torch's old signature): [a + c * b] *)
Definition t_add_scaled (a : tensor) (c : Qc) (b : tensor) : tensor :=
  zip_with (λ x y, x + c * y) a b.

(** [a.mul_(c)] *)
Definition t_mul (a : tensor) (c : Qc) : tensor := (λ x, x * c) <$> a.

(** The L1 norm of a tensor, the sum of the absolute values of its entries. *)
Definition l1norm (t : tensor) : Qc := foldr (λ x acc, Qcabs x + acc) 0 t.

(** The step size of the Frank-Wolfe schedule, [2 / (k + 2)]. *)
Definition gamma_of (k : nat) : Qc := 2 / Qc_of_Z (Z.of_nat k + 2).

(** ** Objects *)

(** A parameter object: its values [p.data] and its gradient [p.grad],
    which is [None] when the model has not populated it. *)
Record Param := mkParam {
  data : tensor;
  grad : option tensor
}.

Global Instance Param_inhabited : Inhabited Param :=
  populate (mkParam [] None).

(** The identity of a parameter object (what Python hashes when a parameter
    is used as a dictionary key). *)
Abbreviation pid := positive.

(** A parameter group: the dictionary [{'params': [...], key: value, ...}];
    [hyper] holds the keys other than ['params']. *)
Record param_group := mkGroup {
  params : list pid;
  hyper : gmap string Qc
}.

(** The attributes of an optimizer instance.  [state] is the base class's
    [defaultdict(dict)], keyed by parameter; [k] is the attribute [self.k]
    of the two Frank-Wolfe classes ([SGDl1] has no such attribute and its
    methods never touch the field). *)
Record optimizer := mkOptimizer {
  defaults : gmap string Qc;
  param_groups : list param_group;
  state : gmap pid (gmap string tensor);
  k : nat
}.

(** What a call leaves behind for an observer: the invocations of the
    closure and the iterations of the loop over the parameters. *)
Inductive event :=
  | EvClosure
  | EvVisit (p : pid).

(** The heap of parameter objects, the optimizer instance [self], and the
    events so far. *)
Record world := mkWorld {
  heap : gmap pid Param;
  self : optimizer;
  log : list event
}.

(** ** Exceptions and the monad of a method body *)

Inductive exn :=
  | KeyError (key : string)
  | AssertionError
  | TypeError
  | ValueError
  | ShapeError
  | NumericalError.

Inductive result (A : Type) :=
  | Ok (a : A)
  | Raise (e : exn).
Arguments Ok {A} a.
Arguments Raise {A} e.

Definition M (A : Type) : Type := world → world * result A.

Global Instance M_ret : MRet M := λ A a w, (w, Ok a).
Global Instance M_bind : MBind M := λ A B f m w,
  match m w with
  | (w', Ok a) => f a w'
  | (w', Raise e) => (w', Raise e)
  end.

Definition raise {A} (e : exn) : M A := λ w, (w, Raise e).

(** [for x in xs: body x] *)
Fixpoint for_each {A} (body : A → M unit) (xs : list A) : M unit :=
  match xs with
  | [] => mret tt
  | x :: xs' => body x ≫= λ _, for_each body xs'
  end.

(** *** Primitive accesses *)

(** Reading the object behind a reference.  (An identity that names no
    object reads as a parameter without values and without gradient; Python
    has no such references.) *)
Definition get_param (p : pid) : M Param := λ w, (w, Ok (heap w !!! p)).

(** An in-place write to [p.data]. *)
Definition set_data (p : pid) (t : tensor) : M unit := λ w,
  (mkWorld (<[p := mkParam t (grad (heap w !!! p))]> (heap w)) (self w) (log w),
   Ok tt).

(** An in-place write to the tensor [p.grad.data]. *)
Definition set_grad (p : pid) (t : tensor) : M unit := λ w,
  (mkWorld (<[p := mkParam (data (heap w !!! p)) (Some t)]> (heap w)) (self w) (log w),
   Ok tt).

(** [group[key]] *)
Definition group_get (g : param_group) (key : string) : M Qc := λ w,
  match hyper g !! key with
  | Some v => (w, Ok v)
  | None => (w, Raise (KeyError key))
  end.

(** [self.state[p]]: the base class keeps a [defaultdict(dict)], so reading
    a missing key stores an empty dictionary under it. *)
Definition state_get (p : pid) : M (gmap string tensor) := λ w,
  match state (self w) !! p with
  | Some d => (w, Ok d)
  | None =>
      (mkWorld (heap w)
         (mkOptimizer (defaults (self w)) (param_groups (self w))
            (<[p := ∅]> (state (self w))) (k (self w)))
         (log w),
       Ok ∅)
  end.

(** A write to the tensor stored as [self.state[p][key]] (an assignment
    into the dictionary or an in-place operation on the tensor in it). *)
Definition state_set (p : pid) (key : string) (t : tensor) : M unit := λ w,
  (mkWorld (heap w)
     (mkOptimizer (defaults (self w)) (param_groups (self w))
        (<[p := <[key := t]> (default ∅ (state (self w) !! p))]> (state (self w)))
        (k (self w)))
     (log w),
   Ok tt).

Definition get_k : M nat := λ w, (w, Ok (k (self w))).

(** [self.k += 1] *)
Definition incr_k : M unit := λ w,
  (mkWorld (heap w)
     (mkOptimizer (defaults (self w)) (param_groups (self w)) (state (self w))
        (S (k (self w))))
     (log w),
   Ok tt).

Definition get_groups : M (list param_group) := λ w,
  (w, Ok (param_groups (self w))).

Definition emit (e : event) : M unit := λ w,
  (mkWorld (heap w) (self w) (log w ++ [e]), Ok tt).

(** ** Construction *)

(** The classes of the module and their two ancestors. *)
Inductive class :=
  | C_SGDl1
  | C_SGDFWl1
  | C_SGDFWNuclear
  | C_Optimizer
  | C_object.

Global Instance class_eq_dec : EqDecision class.
Proof. solve_decision. Defined.

(** The method resolution order of each class (single inheritance). *)
Definition mro (c : class) : list class :=
  match c with
  | C_SGDl1 => [C_SGDl1; C_Optimizer; C_object]
  | C_SGDFWl1 => [C_SGDFWl1; C_Optimizer; C_object]
  | C_SGDFWNuclear => [C_SGDFWNuclear; C_Optimizer; C_object]
  | C_Optimizer => [C_Optimizer; C_object]
  | C_object => [C_object]
  end.

(** The classes that follow [c] in a resolution order: where
    [super(c, self)] starts its search. *)
Fixpoint after (c : class) (l : list class) : list class :=
  match l with
  | [] => []
  | x :: l' => if decide (x = c) then l' else after c l'
  end.

(** What a caller passes as [params]: an iterable of parameters or an
    iterable of group dictionaries. *)
Inductive params_arg :=
  | Plain (ps : list pid)
  | Groups (gs : list param_group).

(** [Optimizer.add_param_group], as far as the hyperparameters go:
    [param_group.setdefault(name, default)] for every default. *)
Definition add_param_group (dflt : gmap string Qc) (g : param_group) : param_group :=
  mkGroup (params g) (hyper g ∪ dflt).

(** The calls of [Optimizer.add_param_group], group after group: a group
    that shares a parameter with the groups added before it (their
    parameters are [seen]) is refused with a [ValueError], the others are
    completed with the defaults and appended. *)
Fixpoint add_param_groups (dflt : gmap string Qc) (seen : list pid)
    (gs : list param_group) : result (list param_group) :=
  match gs with
  | [] => Ok []
  | g :: gs' =>
      if decide (Forall (λ p, p ∉ seen) (params g)) then
        match add_param_groups dflt (seen ++ params g) gs' with
        | Ok added => Ok (add_param_group dflt g :: added)
        | Raise e => Raise e
        end
      else Raise ValueError
  end.

(** [torch.optim.Optimizer.__init__(self, params, defaults)]: an empty
    [params] is refused, a plain iterable of parameters becomes one group,
    and the groups are added one after the other.  It leaves other
    attributes of [self] alone. *)
Definition Optimizer_init (params : params_arg) (dflt : gmap string Qc)
    (self : optimizer) : result optimizer :=
  let groups :=
    match params with
    | Plain [] => []
    | Plain ps => [mkGroup ps ∅]
    | Groups gs => gs
    end in
  match groups with
  | [] => Raise ValueError
  | _ =>
      match add_param_groups dflt [] groups with
      | Ok added => Ok (mkOptimizer dflt added ∅ (k self))
      | Raise e => Raise e
      end
  end.

(** [object.__init__(self, *args)] on an instance whose class overrides
    [__init__] (all classes here do): any extra argument is a [TypeError]. *)
Definition object_init (nargs : nat) (self : optimizer) : result optimizer :=
  match nargs with
  | O => Ok self
  | S _ => Raise TypeError
  end.

(** [super(c, self).__init__(params, defaults)] for an instance of class
    [cls]: the initializer of the first class after [c] in the resolution
    order of [cls]. *)
Definition super_init (c cls : class) (params : params_arg)
    (dflt : gmap string Qc) (self : optimizer) : result optimizer :=
  match after c (mro cls) with
  | C_Optimizer :: _ => Optimizer_init params dflt self
  | C_object :: _ => object_init 2 self
  | _ => Raise TypeError
  end.

(** A fresh instance, before [__init__] runs. *)
Definition new_object : optimizer := mkOptimizer ∅ [] ∅ 0.

(** [self.k = v] *)
Definition set_k (v : nat) (self : optimizer) : optimizer :=
  mkOptimizer (defaults self) (param_groups self) (state self) v.

(** [SGDl1.__init__(self, params, lr, lambda_l1)] *)
Definition SGDl1_init (params : params_arg) (lr lambda_l1 : Qc) : result optimizer :=
  let self := new_object in
  if decide (0 < lambda_l1) then
    let dflt : gmap string Qc := {[ "lr" := lr; "l1" := lambda_l1 ]} in
    super_init C_SGDl1 C_SGDl1 params dflt self
  else Raise AssertionError.

(** [SGDFWl1.__init__(self, params, kappa_l1)] *)
Definition SGDFWl1_init (params : params_arg) (kappa_l1 : Qc) : result optimizer :=
  let self := set_k 0 new_object in
  if decide (0 < kappa_l1) then
    let dflt : gmap string Qc := {[ "kappa" := kappa_l1 ]} in
    super_init C_SGDFWl1 C_SGDFWl1 params dflt self
  else Raise AssertionError.

(** [SGDFWNuclear.__init__(self, params, kappa_l1)] *)
Definition SGDFWNuclear_init (params : params_arg) (kappa_l1 : Qc) : result optimizer :=
  let self := set_k 0 new_object in
  if decide (0 < kappa_l1) then
    let dflt : gmap string Qc := {[ "kappa" := kappa_l1 ]} in
    super_init C_Optimizer C_SGDFWNuclear params dflt self
  else Raise AssertionError.

(** ** The [step] methods *)

Section Steps.

(** The value a closure returns (a loss). *)
Context {Loss : Type}.

(** The two oracles of the module [oracles], which [optimizers.py]
    imports: they take the gradient and the radius and return a tensor or
    raise. *)
Variable LMO_l1 : tensor → Qc → result tensor.
Variable LMO_nuclear : tensor → Qc → result tensor.

(** A closure re-evaluates the model: it may rewrite the heap, and it
    returns the loss. *)
Definition closure_t : Type := gmap pid Param → gmap pid Param * Loss.

(** [closure()] *)
Definition invoke (c : closure_t) : M Loss := λ w,
  (mkWorld (c (heap w)).1 (self w) (log w ++ [EvClosure]), Ok (c (heap w)).2).

(** [loss = None; if closure is not None: loss = closure()] *)
Definition call_closure (closure : option closure_t) : M (option Loss) :=
  match closure with
  | None => mret None
  | Some c => loss ← invoke c; mret (Some loss)
  end.

(** The result of a call to an oracle. *)
Definition call_oracle (r : result tensor) : M tensor := λ w, (w, r).

(** *** [SGDl1.step] *)

(** The body of [for p in group['params']]. *)
Definition SGDl1_param (group : param_group) (lam momentum dampening : Qc)
    (p : pid) : M unit :=
  emit (EvVisit p) ;;
  P ← get_param p;
  match grad P with
  | None => mret tt
  | Some g =>
      (* d_p is the tensor of p.grad itself, updated in place *)
      let d_p := t_add_scaled g lam (t_sign (data P)) in
      set_grad p d_p ;;
      d_p ← (if decide (momentum ≠ 0) then
               param_state ← state_get p;
               match param_state !! "momentum_buffer" with
               | None =>
                   let buf := t_add (t_mul (zeros_like (data P)) momentum) d_p in
                   state_set p "momentum_buffer" buf ;;
                   mret buf
               | Some buf =>
                   let buf := t_add_scaled (t_mul buf momentum) (1 - dampening) d_p in
                   state_set p "momentum_buffer" buf ;;
                   mret buf
               end
             else mret d_p);
      lr ← group_get group "lr";
      set_data p (t_add_scaled (data P) (- lr) d_p)
  end.

(** The body of [for group in self.param_groups]. *)
Definition SGDl1_group (group : param_group) : M unit :=
  lam ← group_get group "l1";
  momentum ← group_get group "momentum";
  dampening ← group_get group "dampening";
  for_each (SGDl1_param group lam momentum dampening) (params group).

Definition SGDl1_loops : M unit :=
  groups ← get_groups;
  for_each SGDl1_group groups.

Definition SGDl1_step (closure : option closure_t) : M (option Loss) :=
  loss ← call_closure closure;
  SGDl1_loops ;;
  mret loss.

(** *** [SGDFWl1.step] and [SGDFWNuclear.step]

    The two methods are the same text up to the oracle they call. *)

Definition FW_param (LMO : tensor → Qc → result tensor) (kappa : Qc)
    (p : pid) : M unit :=
  emit (EvVisit p) ;;
  P ← get_param p;
  match grad P with
  | None => mret tt
  | Some g =>
      s ← call_oracle (LMO g kappa);
      k ← get_k;
      let gamma := gamma_of k in
      let delta_p := t_sub (t_scale gamma s) (t_scale gamma (data P)) in
      set_data p (t_add (data P) delta_p)
  end.

Definition FW_group (LMO : tensor → Qc → result tensor)
    (group : param_group) : M unit :=
  kappa ← group_get group "kappa_l1";
  for_each (FW_param LMO kappa) (params group).

Definition FW_loops (LMO : tensor → Qc → result tensor) : M unit :=
  groups ← get_groups;
  for_each (FW_group LMO) groups.

Definition FW_step (LMO : tensor → Qc → result tensor)
    (closure : option closure_t) : M (option Loss) :=
  loss ← call_closure closure;
  FW_loops LMO ;;
  incr_k ;;
  mret loss.

Definition SGDFWl1_step : option closure_t → M (option Loss) := FW_step LMO_l1.

Definition SGDFWNuclear_step : option closure_t → M (option Loss) :=
  FW_step LMO_nuclear.

End Steps.

Arguments closure_t Loss : clear implicits.

(** ** The L1 oracle *)

(** The index of the first entry of largest absolute value. *)
Fixpoint argmax_abs (t : tensor) : nat :=
  match t with
  | [] => O
  | x :: t' =>
      if decide (Forall (λ y, Qcabs y ≤ Qcabs x) t') then O else S (argmax_abs t')
  end.

(** Modelled from the spec: [oracles.LMO_l1], whose source is not part of
    the repository's files at hand.  The oracle finds the index of the
    entry of largest absolute value of the gradient (the first one on
    ties), and returns the zero array of the gradient's shape with
    [- kappa * sign(gradient[i])] at that index; on an all-zero gradient
    this is the zero array.  It fails with [ShapeError] if [kappa <= 0]. *)
Definition LMO_l1 (gradient : tensor) (kappa : Qc) : result tensor :=
  if decide (0 < kappa) then
    let i := argmax_abs gradient in
    Ok (<[i := - kappa * sign (default 0 (gradient !! i))]> (zeros_like gradient))
  else Raise ShapeError.

(** ** The arithmetic of the source

    torch's tensors are float32 by default: an operation on them returns
    the binary32 number nearest to its exact result. *)

Section Binary_formats.

Local Open Scope Q_scope.

(** The integer nearest to [n / d], the even one of two. *)
Definition nearest_even (n : Z) (d : positive) : Z :=
  let q := (n / Zpos d)%Z in
  let r := (n mod Zpos d)%Z in
  match (2 * r ?= Zpos d)%Z with
  | Lt => q
  | Gt => (q + 1)%Z
  | Eq => if Z.even q then q else (q + 1)%Z
  end.

(** The exponent of the unit in the last place of [x] in a binary format of
    [prec] significant bits whose smallest positive number is [2 ^ emin]:
    the [e] with [2 ^ (prec - 1) <= |x| / 2 ^ e < 2 ^ prec], or [emin] where
    that would be smaller (subnormal numbers).  The logarithms of the
    numerator and the denominator give it up to one. *)
Definition ulp_exponent (prec emin : Z) (x : Q) : Z :=
  let e0 := (Z.log2 (Z.abs (Qnum x)) - Z.log2 (Zpos (Qden x)) - prec)%Z in
  let e := if Qlt_le_dec (Qabs x * 2 ^ (- e0)) (2 ^ prec) then e0 else (e0 + 1)%Z in
  Z.max e emin.

(** Rounding to the nearest number of the format, ties to even. *)
Definition round_Q (prec emin : Z) (x : Q) : Q :=
  let e := ulp_exponent prec emin x in
  let y := x * 2 ^ (- e) in
  inject_Z (nearest_even (Qnum y) (Qden y)) * 2 ^ e.

End Binary_formats.

Definition round_bits (prec emin : Z) (x : Qc) : Qc := Q2Qc (round_Q prec emin x).

(** The largest relative error of a rounding, and its largest error on a
    subnormal result. *)
Definition unit_roundoff (prec : Z) : Qc := Q2Qc (2 ^ (- prec))%Q.

Definition underflow_unit (emin : Z) : Qc := Q2Qc (2 ^ (emin - 1))%Q.

(** An arithmetic: how the result of an operation on tensors is rounded,
    and how the result of an operation on Python floats is. *)
Record arithmetic := mkArithmetic {
  rnd_tensor : Qc → Qc;
  rnd_float : Qc → Qc
}.

Definition exact : arithmetic := mkArithmetic id id.

(** binary32 tensors and binary64 Python floats. *)
Definition float32 : arithmetic :=
  mkArithmetic (round_bits 24 (-149)) (round_bits 53 (-1074)).

(** [gamma = 2 / (self.k + 2)], a Python float, as the tensor operations
    receive it: a scalar operand is converted to the type of the tensor. *)
Definition gamma_in (ar : arithmetic) (k : nat) : Qc :=
  rnd_tensor ar (rnd_float ar (gamma_of k)).

(** [delta_p = gamma * s - gamma * p.data; p.data.add_(delta_p)]: the new
    contents of [p.data], each of the four tensor operations rounded. *)
Definition FW_update_in (ar : arithmetic) (gamma : Qc) (x s : tensor) : tensor :=
  let gs := rnd_tensor ar <$> t_scale gamma s in
  let gx := rnd_tensor ar <$> t_scale gamma x in
  let delta_p := rnd_tensor ar <$> t_sub gs gx in
  rnd_tensor ar <$> t_add x delta_p.

Section Steps_in.

Context {Loss : Type}.
Variable ar : arithmetic.
Variable LMO : tensor → Qc → result tensor.

(** The body of [for p in group['params']] of the Frank-Wolfe steps. *)
Definition FW_param_in (kappa : Qc) (p : pid) : M unit :=
  emit (EvVisit p) ;;
  P ← get_param p;
  match grad P with
  | None => mret tt
  | Some g =>
      s ← call_oracle (LMO g kappa);
      k ← get_k;
      let gamma := gamma_in ar k in
      set_data p (FW_update_in ar gamma (data P) s)
  end.

Definition FW_group_in (group : param_group) : M unit :=
  kappa ← group_get group "kappa_l1";
  for_each (FW_param_in kappa) (params group).

Definition FW_loops_in : M unit :=
  groups ← get_groups;
  for_each FW_group_in groups.

Definition FW_step_in (closure : option (closure_t Loss)) : M (option Loss) :=
  loss ← call_closure closure;
  FW_loops_in ;;
  incr_k ;;
  mret loss.

End Steps_in.

(** [SGDFWl1.step] in the arithmetic [ar], for the oracle [LMO_l1]. *)
Definition SGDFWl1_step_in {Loss} (ar : arithmetic)
    (LMO_l1 : tensor → Qc → result tensor) :
    option (closure_t Loss) → M (option Loss) :=
  FW_step_in ar LMO_l1.

(** ** Sequences of calls *)

(** One iteration of a training loop: what the model does to the heap before
    it calls [step] (the backward pass populates gradients), and the closure
    it passes. *)
Record call (Loss : Type) := mkCall {
  c_backward : gmap pid Param → gmap pid Param;
  c_closure : option (closure_t Loss)
}.
Arguments mkCall {Loss} c_backward c_closure.
Arguments c_backward {Loss} c.
Arguments c_closure {Loss} c.

(** The world after a sequence of calls, and what each call returned or
    raised (a caller may catch the exception and go on). *)
Fixpoint run {Loss} (step : option (closure_t Loss) → M (option Loss))
    (calls : list (call Loss)) (w : world) : world * list (result (option Loss)) :=
  match calls with
  | [] => (w, [])
  | c :: calls' =>
      let r := step (c_closure c) (mkWorld (c_backward c (heap w)) (self w) (log w)) in
      let rs := run step calls' r.1 in
      (rs.1, r.2 :: rs.2)
  end.

(** The number of calls that returned. *)
Fixpoint returned {A} (rs : list (result A)) : nat :=
  match rs with
  | [] => 0
  | Ok _ :: rs' => S (returned rs')
  | Raise _ :: rs' => returned rs'
  end.

(** The backward pass stores the gradient [g] in the parameter [i]. *)
Definition set_gradient (i : pid) (g : tensor) (h : gmap pid Param) : gmap pid Param :=
  <[i := mkParam (data (h !!! i)) (Some g)]> h.

(** ** The vocabulary of the properties *)

(** [keeps I m]: the computation [m] maintains [I], whether it returns or
    raises. *)
Definition keeps {A} (I : world → Prop) (m : M A) : Prop :=
  ∀ w, I w → I (m w).1.

(** [returns P m Q]: started where [P] holds, [m] returns normally, with a
    value and in a world that satisfy [Q]. *)
Definition returns {A} (P : world → Prop) (m : M A) (Q : A → world → Prop) : Prop :=
  ∀ w, P w → ∃ a, (m w).2 = Ok a ∧ Q a (m w).1.

(** What one parameter [p] and the optimizer's attributes look like: the
    groups, the counter, the object of [p] and the entry of [p] in
    [self.state]. *)
Definition at_ (gs : list param_group) (n : nat) (p : pid) (P : Param)
    (S : option (gmap string tensor)) (w : world) : Prop :=
  param_groups (self w) = gs ∧ k (self w) = n
  ∧ heap w !!! p = P ∧ state (self w) !! p = S.

(** No parameter is listed twice in the groups. *)
Definition listed_once (gs : list param_group) : Prop := NoDup (gs ≫= params).

(** The group defines the four hyperparameters that [SGDl1.step] reads. *)
Definition SGDl1_keys (g : param_group) : Prop :=
  is_Some (hyper g !! "l1") ∧ is_Some (hyper g !! "momentum")
  ∧ is_Some (hyper g !! "dampening") ∧ is_Some (hyper g !! "lr").

(** The value that [step] returns when its loops return. *)
Definition closure_loss {Loss} (closure : option (closure_t Loss))
    (w : world) : option Loss :=
  (λ c, (c (heap w)).2) <$> closure.

(** The tensor in [self.state[p]['momentum_buffer']], if there is one. *)
Definition momentum_buffer (w : world) (p : pid) : option tensor :=
  state (self w) !! p ≫= (.!! "momentum_buffer").

(** What the loops of the Frank-Wolfe steps maintain: the attributes of the
    optimizer and every gradient; they only add visits to the record. *)
Definition FW_frame (o : optimizer) (G : pid → option tensor) (l : list event)
    (w : world) : Prop :=
  self w = o ∧ (∀ i, grad (heap w !!! i) = G i)
  ∧ ∃ visits, log w = l ++ (EvVisit <$> visits).

(** What the loops of [SGDl1.step] maintain. *)
Definition SGDl1_frame (gs : list param_group) (n : nat) (G : pid → Prop)
    (l : list event) (w : world) : Prop :=
  param_groups (self w) = gs ∧ k (self w) = n
  ∧ (∀ i, G i → grad (heap w !!! i) = None)
  ∧ ∃ visits, log w = l ++ (EvVisit <$> visits).

(** A parameter without a gradient keeps its object and its entry in
    [self.state] through the loops. *)
Definition untouched (p : pid) (P : Param) (S : option (gmap string tensor))
    (w : world) : Prop :=
  heap w !!! p = P ∧ state (self w) !! p = S.

(** What [step] owes to its closure: the closure, if there is one, is
    invoked once and before anything else (the events of the call are the
    invocation followed by visits only), the loops run in the world that the
    closure leaves, and [step] returns the value of the closure ([None]
    without a closure) unless the loops raise. *)
Definition closure_contract {Loss} (step : option (closure_t Loss) → M (option Loss))
    (loops : M unit) : Prop :=
  ∀ (closure : option (closure_t Loss)) (w : world),
    let w1 :=
      mkWorld (from_option (λ c, (c (heap w)).1) (heap w) closure) (self w)
        (log w ++ from_option (λ _, [EvClosure]) [] closure) in
    (∃ visits, log (step closure w).1 = log w1 ++ (EvVisit <$> visits))
    ∧ (step closure w).2
      = match (loops w1).2 with
        | Ok _ => Ok ((λ c, (c (heap w)).2) <$> closure)
        | Raise e => Raise e
        end.

(** The model and the closures leave the values of the parameters to the
    optimizer. *)
Definition keeps_values (f : gmap pid Param → gmap pid Param) : Prop :=
  ∀ h i, data (f h !!! i) = data (h !!! i).

Definition call_keeps_values {Loss} (c : call Loss) : Prop :=
  keeps_values (c_backward c)
  ∧ ∀ cl, c_closure c = Some cl → keeps_values (λ h, (cl h).1).

(** The radius that [step] reads for the parameter [p], if it reads one, is
    [kappa]. *)
Definition radius_of (gs : list param_group) (p : pid) (kappa : Qc) : Prop :=
  ∀ g kappa', g ∈ gs → p ∈ params g → hyper g !! "kappa_l1" = Some kappa' →
    kappa' = kappa.

(** The group defines the radius that the Frank-Wolfe steps read, and the
    radius is positive. *)
Definition FW_keys (g : param_group) : Prop :=
  ∃ kappa, hyper g !! "kappa_l1" = Some kappa ∧ 0 < kappa.

(** The ball of radius [kappa] around the parameter [p]. *)
Definition in_ball (gs : list param_group) (p : pid) (kappa : Qc) (w : world) : Prop :=
  param_groups (self w) = gs ∧ l1norm (data (heap w !!! p)) ≤ kappa.

(** What one call to a Frank-Wolfe step can add to a bound [B] on the L1
    norm of a parameter of [n] entries, when a rounding has a relative error
    of at most [u] and an absolute error of at most [eta] on top of it. *)
Definition grow (u eta : Qc) (n : nat) (B : Qc) : Qc :=
  (1 + u) * (1 + 2 * u * (2 + u)) * B
  + Qc_of_Z (Z.of_nat n) * ((1 + u) * (1 + 2 + 2 * u) + 1) * eta.

(** [takes P m Q]: from where [P] holds, [m] leads to where [Q] holds,
    whether it returns or raises. *)
Definition takes {A} (P : world → Prop) (m : M A) (Q : world → Prop) : Prop :=
  ∀ w, P w → Q (m w).1.

(** The parameter [p] has at most [n] entries, of L1 norm at most [B]. *)
Definition near_ball (gs : list param_group) (p : pid) (n : nat) (B : Qc)
    (w : world) : Prop :=
  param_groups (self w) = gs
  ∧ (length (data (heap w !!! p)) ≤ n)%nat
  ∧ l1norm (data (heap w !!! p)) ≤ B.

(** ** Concrete optimizers *)

Global Instance Param_eq_dec : EqDecision Param.
Proof. solve_decision. Defined.

Global Instance param_group_eq_dec : EqDecision param_group.
Proof. solve_decision. Defined.

Global Instance listed_once_dec gs : Decision (listed_once gs).
Proof. unfold listed_once. apply _. Defined.

Global Instance SGDl1_keys_dec g : Decision (SGDl1_keys g).
Proof. unfold SGDl1_keys. apply _. Defined.

(** The fraction [a / b]. *)
Definition frac (a : Z) (b : positive) : Qc := Q2Qc (a # b).

(** Two parameters: the first has values [1, -2, 0] and gradient
    [1/2, 1/2, 1/2], the second has no gradient. *)
Definition ex_heap : gmap pid Param :=
  {[ 1%positive := mkParam [1; - 2; 0] (Some [frac 1 2; frac 1 2; frac 1 2]);
     2%positive := mkParam [1; 1] None ]}.

(** A group for [SGDl1]: [l1 = 1/2], [lr = 1/10] and the momentum given. *)
Definition ex_sgd_group (momentum : Qc) : param_group :=
  mkGroup [1%positive; 2%positive]
    {[ "lr" := frac 1 10; "l1" := frac 1 2;
       "momentum" := momentum; "dampening" := frac 1 4 ]}.

Definition ex_sgd_world (momentum : Qc) (st : gmap pid (gmap string tensor)) : world :=
  mkWorld ex_heap (mkOptimizer {[ "lr" := frac 1 10; "l1" := frac 1 2 ]}
                     [ex_sgd_group momentum] st 0) [].

(** An [SGDFWl1] whose one group carries its radius under the key that
    [step] reads. *)
Definition ex_fw_optimizer : optimizer :=
  match SGDFWl1_init
          (Groups [mkGroup [1%positive; 2%positive] {[ "kappa_l1" := Qc_of_Z 4 ]}])
          (Qc_of_Z 4) with
  | Ok o => o
  | Raise _ => new_object
  end.

Definition ex_fw_world : world := mkWorld ex_heap ex_fw_optimizer [].

(** Two iterations: the first on the gradient of the example heap, the
    second on the gradient [1, -3, 1]. *)
Definition ex_calls : list (call Qc) :=
  [mkCall id None; mkCall (set_gradient 1%positive [1; - Qc_of_Z 3; 1]) None].

(** The optimizer that [SGDFWl1([p1, p2], kappa_l1=4)] constructs. *)
Definition ex_constructed : optimizer :=
  mkOptimizer {[ "kappa" := Qc_of_Z 4 ]}
    [mkGroup [1%positive; 2%positive] (∅ ∪ {[ "kappa" := Qc_of_Z 4 ]})] ∅ 0.

(** The optimizer that [SGDl1([p1, p2], lr=1/10, lambda_l1=1/2)] constructs. *)
Definition ex_sgd_constructed : optimizer :=
  mkOptimizer {[ "lr" := frac 1 10; "l1" := frac 1 2 ]}
    [mkGroup [1%positive; 2%positive] (∅ ∪ {[ "lr" := frac 1 10; "l1" := frac 1 2 ]})]
    ∅ 0.

(** A closure that recomputes the gradient of the first parameter and
    returns the loss 7. *)
Definition ex_closure : closure_t Qc :=
  λ h, (set_gradient 1%positive [1; 1; 1] h, Qc_of_Z 7).

(** The group of [ex_fw_optimizer], as the constructor completes it. *)
Definition ex_fw_group : param_group :=
  mkGroup [1%positive; 2%positive]
    ({[ "kappa_l1" := Qc_of_Z 4 ]} ∪ {[ "kappa" := Qc_of_Z 4 ]}).

(** The same groups given to the constructor with the radius 9. *)
Definition ex_fw_optimizer_9 : optimizer :=
  match SGDFWl1_init
          (Groups [mkGroup [1%positive; 2%positive] {[ "kappa_l1" := Qc_of_Z 4 ]}])
          (Qc_of_Z 9) with
  | Ok o => o
  | Raise _ => new_object
  end.

(** An optimizer whose second group lacks the radius. *)
Definition ex_mixed_world : world :=
  mkWorld ex_heap
    (mkOptimizer ∅
       [mkGroup [1%positive] {[ "kappa_l1" := Qc_of_Z 4 ]}; mkGroup [2%positive] ∅]
       ∅ 0)
    [].

(** A state in which the first parameter has a momentum buffer. *)
Definition ex_buffers : gmap pid (gmap string tensor) :=
  {[ 1%positive := {[ "momentum_buffer" := [1; 1; 1] ]} ]}.

(** An [SGDl1] constructed with the rate 1 and the penalty 1 over a group
    that brings all its hyperparameters. *)
Definition ex_sgd_from_groups : optimizer :=
  match SGDl1_init (Groups [ex_sgd_group 0]) 1 1 with
  | Ok o => o
  | Raise _ => new_object
  end.

(** A parameter [1/2, 1/4] inside the ball of radius 1, and three backward
    passes that leave the gradients [1, 3], [-4, 3] and [-4, 0]. *)
Definition ex_float_world : world :=
  mkWorld {[ 1%positive := mkParam [frac 1 2; frac 1 4] None ]}
    (match SGDFWl1_init (Groups [mkGroup [1%positive] {[ "kappa_l1" := 1 ]}]) 1 with
     | Ok o => o
     | Raise _ => new_object
     end)
    [].

Definition ex_float_calls : list (call Qc) :=
  [ mkCall (set_gradient 1%positive [1; Qc_of_Z 3]) None;
    mkCall (set_gradient 1%positive [- Qc_of_Z 4; Qc_of_Z 3]) None;
    mkCall (set_gradient 1%positive [- Qc_of_Z 4; 0]) None ].

(** The groups are the optimizer's, and the events since [l0] are the visits
    of [visited], in this order. *)
Definition visited_ (gs : list param_group) (n : nat) (l0 : list event)
    (visited : list pid) (w : world) : Prop :=
  param_groups (self w) = gs ∧ k (self w) = n
  ∧ log w = l0 ++ (EvVisit <$> visited).

(** The world [w] seen by an optimizer that has the defaults and the groups
    of [o], and the state and the counter of the optimizer of [w]. *)
Definition with_groups_of (o : optimizer) (w : world) : world :=
  mkWorld (heap w)
    (mkOptimizer (defaults o) (param_groups o) (state (self w)) (k (self w)))
    (log w).

(** Two groups with the same parameters and the same entry, or none, under
    ['kappa_l1']. *)
Definition same_radius (g g' : param_group) : Prop :=
  params g = params g' ∧ hyper g !! "kappa_l1" = hyper g' !! "kappa_l1".

(** ** The names of the experiments ([run.py])

    [get_exp_name] joins the texts of its arguments with ['_'];
    [str] is the function that renders an argument as text. *)
Definition get_exp_name {A} (str : A → string) (args : list A) : string :=
  String.concat "_" (str <$> args).

(** The character [c] occurs in the text [s]. *)
Fixpoint occurs (c : Ascii.ascii) (s : string) : bool :=
  match s with
  | EmptyString => false
  | String a s' => if decide (a = c) then true else occurs c s'
  end.

(** * Properties *)

(** ** Arithmetic of the updates *)

Lemma Qcabs_sign (x : Qc) : Qcabs (sign x) ≤ 1.
Proof.
  unfold sign. destruct (Z.sgn_spec (Qnum (this x))) as [[_ ->]|[[_ ->]|[_ ->]]];
    by vm_compute.
Qed.

Lemma sign_0 : sign 0 = 0.
Proof. by apply Qc_is_canon. Qed.

Lemma Qc_of_Z_pos (z : Z) : (0 < z)%Z → 0 < Qc_of_Z z.
Proof. intros Hz. rewrite <- Z2Qc_inj_0. by apply (proj1 (Z2Qc_inj_lt 0 z)). Qed.

Lemma gamma_of_pos (k : nat) : 0 < gamma_of k.
Proof.
  unfold gamma_of, Qcdiv. apply Qcmult_pos_pos; [done|].
  apply Qcinv_pos, Qc_of_Z_pos. lia.
Qed.

Lemma gamma_of_le_1 (k : nat) : gamma_of k ≤ 1.
Proof.
  unfold gamma_of.
  assert (Hd : 0 < Qc_of_Z (Z.of_nat k + 2)) by (apply Qc_of_Z_pos; lia).
  apply (Qcmult_lt_0_le_reg_r _ _ (Qc_of_Z (Z.of_nat k + 2))); [done|].
  rewrite Qcmult_1_l, (Qcmult_comm (2 / _)), Qcmult_div_r
    by (intros E; rewrite E in Hd; by apply Qclt_not_eq in Hd).
  rewrite <- Z2Qc_inj_2. apply (proj1 (Z2Qc_inj_le 2 _)). lia.
Qed.

Lemma gamma_of_0 : gamma_of 0 = 1.
Proof. by apply Qc_is_canon. Qed.

Lemma l1norm_nonneg (t : tensor) : 0 ≤ l1norm t.
Proof.
  induction t as [|x t IH]; simpl; [done|].
  apply Qcplus_nonneg_nonneg; [apply Qcabs_nonneg | done].
Qed.

(** The update of the Frank-Wolfe steps as the source computes it,
    [p + (gamma * s - gamma * p)], is the step towards [s]. *)
Lemma FW_update_towards (gamma : Qc) (x s : tensor) :
  t_add x (t_sub (t_scale gamma s) (t_scale gamma x))
  = zip_with (λ a b, a + gamma * (b - a)) x s.
Proof.
  unfold t_add, t_sub, t_scale. revert s.
  induction x as [|a x IH]; intros [|b s]; simpl; try done.
  f_equal; [ring | apply IH].
Qed.

(** ... and the convex combination [(1 - gamma) * p + gamma * s]. *)
Lemma FW_update_convex (gamma : Qc) (x s : tensor) :
  t_add x (t_sub (t_scale gamma s) (t_scale gamma x))
  = zip_with (λ a b, (1 - gamma) * a + gamma * b) x s.
Proof.
  rewrite FW_update_towards. revert s.
  induction x as [|a x IH]; intros [|b s]; simpl; try done.
  f_equal; [ring | apply IH].
Qed.

(** The formulas of the specification, entry by entry. *)
Lemma FW_update_formula (gamma : Qc) (x s : tensor) :
  t_add x (t_sub (t_scale gamma s) (t_scale gamma x))
  = t_add x (t_scale gamma (t_sub s x)).
Proof.
  unfold t_add, t_sub, t_scale. revert s.
  induction x as [|a x IH]; intros [|b s]; simpl; try done.
  f_equal; [ring | apply IH].
Qed.

Lemma momentum_formula (mu c : Qc) (buf e : tensor) :
  t_add_scaled (t_mul buf mu) c e = t_add (t_scale mu buf) (t_scale c e).
Proof.
  unfold t_add_scaled, t_mul, t_add, t_scale. revert e.
  induction buf as [|a buf IH]; intros [|b e]; simpl; try done.
  f_equal; [ring | apply IH].
Qed.

(** The first momentum buffer, [zeros_like(p.data).mul_(momentum).add_(d_p)],
    is [d_p]. *)
Lemma first_buffer (mu : Qc) (x d_p : tensor) :
  (length d_p ≤ length x)%nat →
  t_add (t_mul (zeros_like x) mu) d_p = d_p.
Proof.
  unfold t_add, t_mul, zeros_like. revert d_p.
  induction x as [|a x IH]; intros [|b d] Hlen; simpl in *; try done; [lia|].
  f_equal; [ring | apply IH; lia].
Qed.

Lemma t_add_scaled_length (a : tensor) (c : Qc) (b : tensor) :
  length (t_add_scaled a c b) = (length a `min` length b)%nat.
Proof. unfold t_add_scaled. by rewrite length_zip_with. Qed.

(** ** Reasoning about method bodies *)

Lemma bind_eq {A B} (m : M A) (f : A → M B) (w : world) :
  (m ≫= f) w = match m w with
               | (w', Ok a) => f a w'
               | (w', Raise e) => (w', Raise e)
               end.
Proof. done. Qed.

Lemma keeps_ret {A} (I : world → Prop) (a : A) : keeps I (mret a).
Proof. by intros w. Qed.

Lemma keeps_bind {A B} (I : world → Prop) (m : M A) (f : A → M B) :
  keeps I m → (∀ a, keeps I (f a)) → keeps I (m ≫= f).
Proof.
  intros Hm Hf w Hw. rewrite bind_eq. specialize (Hm w Hw).
  destruct (m w) as [w' [a|e]]; simpl in *; [by apply Hf | done].
Qed.

Lemma keeps_for_each {A} (I : world → Prop) (body : A → M unit) (xs : list A) :
  (∀ x, x ∈ xs → keeps I (body x)) → keeps I (for_each body xs).
Proof.
  induction xs as [|x xs IH]; intros Hb; simpl; [apply keeps_ret|].
  apply keeps_bind; [apply Hb; left | intros _; apply IH].
  intros y Hy. apply Hb. by right.
Qed.

Lemma returns_ret {A} (P : world → Prop) (a : A) : returns P (mret a) (λ _, P).
Proof. intros w Hw. by exists a. Qed.

Lemma returns_bind {A B} (P : world → Prop) (Q : A → world → Prop)
    (R : B → world → Prop) (m : M A) (f : A → M B) :
  returns P m Q → (∀ a, returns (Q a) (f a) R) → returns P (m ≫= f) R.
Proof.
  intros Hm Hf w Hw. rewrite bind_eq.
  destruct (Hm w Hw) as (a & Ha & HQ).
  destruct (m w) as [w' r]; simpl in *; subst r. by apply Hf.
Qed.

Lemma returns_for_each {A} (P : world → Prop) (body : A → M unit) (xs : list A) :
  (∀ x, x ∈ xs → returns P (body x) (λ _, P)) →
  returns P (for_each body xs) (λ _, P).
Proof.
  induction xs as [|x xs IH]; intros Hb; simpl; [apply returns_ret|].
  eapply returns_bind; [apply Hb; left | intros ?; apply IH].
  intros y Hy. apply Hb. by right.
Qed.

(** A loop in which one iteration takes [P] to [Q], the ones before it
    maintain [P] and the ones after it maintain [Q]. *)
Lemma returns_for_each_one {A} (P Q : world → Prop) (body : A → M unit)
    (xs1 : list A) (x : A) (xs2 : list A) :
  (∀ y, y ∈ xs1 → returns P (body y) (λ _, P)) →
  returns P (body x) (λ _, Q) →
  (∀ y, y ∈ xs2 → returns Q (body y) (λ _, Q)) →
  returns P (for_each body (xs1 ++ x :: xs2)) (λ _, Q).
Proof.
  intros H1 Hx H2. induction xs1 as [|y xs1 IH]; simpl.
  - eapply returns_bind; [exact Hx|]. intros ?. by apply returns_for_each.
  - eapply returns_bind; [apply H1; left|]. intros ?. apply IH.
    intros z Hz. apply H1. by right.
Qed.

(** ** Construction *)

(** C6. Constructing [SGDl1] with [lambda_l1 <= 0], or [SGDFWl1] or
    [SGDFWNuclear] with [kappa_l1 <= 0], fails at construction time, on the
    assertion, whatever the parameters are: the initializer of the base
    class, the first code to look at [params], is never reached, and no
    instance exists on which [step] could run. *)
Theorem construction_rejects_nonpositive (params : params_arg) (lr lambda_l1 kappa_l1 : Qc) :
  lambda_l1 ≤ 0 → kappa_l1 ≤ 0 →
  SGDl1_init params lr lambda_l1 = Raise AssertionError
  ∧ SGDFWl1_init params kappa_l1 = Raise AssertionError
  ∧ SGDFWNuclear_init params kappa_l1 = Raise AssertionError.
Proof.
  intros Hl Hk. unfold SGDl1_init, SGDFWl1_init, SGDFWNuclear_init.
  rewrite !decide_False; [done | by apply Qcle_not_lt..].
Qed.

Lemma construction_rejects_nonpositive_witness :
  SGDl1_init (Plain [1%positive; 2%positive]) 1 0 = Raise AssertionError
  ∧ SGDFWl1_init (Plain [1%positive; 2%positive]) (- 1) = Raise AssertionError
  ∧ SGDFWNuclear_init (Plain [1%positive; 2%positive]) (- 1) = Raise AssertionError.
Proof.
  apply (construction_rejects_nonpositive (Plain [1%positive; 2%positive]) 1 0 (- 1));
    by vm_compute.
Defined.

(** The groups that [add_param_group] accepts are the given ones, completed
    with the defaults. *)
Lemma add_param_groups_ok (dflt : gmap string Qc) (seen : list pid)
    (gs added : list param_group) :
  add_param_groups dflt seen gs = Ok added → added = add_param_group dflt <$> gs.
Proof.
  revert seen added. induction gs as [|g gs IH]; intros seen added; simpl.
  - by intros [= <-].
  - case_decide; [|done].
    destruct (add_param_groups dflt (seen ++ params g) gs) as [r|e] eqn:Hr; [|done].
    intros [= <-]. by rewrite (IH _ _ Hr).
Qed.

(** One group is always accepted. *)
Lemma add_param_groups_one (dflt : gmap string Qc) (g : param_group) :
  add_param_groups dflt [] [g] = Ok [add_param_group dflt g].
Proof.
  simpl. rewrite decide_True; [done|].
  apply Forall_forall. intros p _. apply not_elem_of_nil.
Qed.

(** A parameter in two groups is refused. *)
Example shared_parameter_refused :
  SGDFWl1_init
    (Groups [mkGroup [1%positive] ∅; mkGroup [2%positive; 1%positive] ∅]) 1
  = Raise ValueError
  ∧ SGDl1_init
      (Groups [mkGroup [1%positive] ∅; mkGroup [2%positive; 1%positive] ∅]) 1 1
    = Raise ValueError.
Proof. split; by vm_compute. Qed.

(** With a positive argument the two classes that call the initializer of
    the base class are constructed, with the counter of [SGDFWl1] at 0 and
    the constructor's hyperparameters in every group. *)
Lemma SGDl1_init_plain (ps : list pid) (lr lambda_l1 : Qc) :
  ps ≠ [] → 0 < lambda_l1 →
  SGDl1_init (Plain ps) lr lambda_l1
  = Ok (mkOptimizer {[ "lr" := lr; "l1" := lambda_l1 ]}
          [mkGroup ps (∅ ∪ {[ "lr" := lr; "l1" := lambda_l1 ]})] ∅ 0).
Proof.
  intros Hps Hl. unfold SGDl1_init. rewrite decide_True by done.
  destruct ps as [|p ps]; [done|].
  unfold super_init, Optimizer_init. cbn [after mro decide]. simpl after.
  by rewrite add_param_groups_one.
Qed.

Lemma SGDFWl1_init_plain (ps : list pid) (kappa_l1 : Qc) :
  ps ≠ [] → 0 < kappa_l1 →
  SGDFWl1_init (Plain ps) kappa_l1
  = Ok (mkOptimizer {[ "kappa" := kappa_l1 ]}
          [mkGroup ps (∅ ∪ {[ "kappa" := kappa_l1 ]})] ∅ 0).
Proof.
  intros Hps Hk. unfold SGDFWl1_init. rewrite decide_True by done.
  destruct ps as [|p ps]; [done|].
  unfold super_init, Optimizer_init. simpl after.
  by rewrite add_param_groups_one.
Qed.

Lemma SGDFWl1_init_k (params : params_arg) (kappa_l1 : Qc) (o : optimizer) :
  SGDFWl1_init params kappa_l1 = Ok o → k o = 0%nat.
Proof.
  unfold SGDFWl1_init. case_decide; [|done].
  unfold super_init, Optimizer_init; simpl.
  destruct params as [[|p ps]|[|g gs]]; try done;
    (destruct (add_param_groups _ _ _) as [added|e]; [|done]); by intros [= <-].
Qed.

(** C10. Constructing [SGDFWNuclear] with a positive radius raises, for
    every [params]: [super(Optimizer, self)] resolves past [Optimizer] to
    [object], whose initializer refuses the two extra arguments, so the
    initializer of [Optimizer] never runs and no instance is returned. *)
Theorem SGDFWNuclear_init_raises (params : params_arg) (kappa_l1 : Qc) :
  0 < kappa_l1 →
  after C_Optimizer (mro C_SGDFWNuclear) = [C_object]
  ∧ SGDFWNuclear_init params kappa_l1 = Raise TypeError
  ∧ ∀ o, SGDFWNuclear_init params kappa_l1 ≠ Ok o.
Proof.
  intros Hk. unfold SGDFWNuclear_init. rewrite decide_True by done.
  by repeat split.
Qed.

Lemma SGDFWNuclear_init_raises_witness :
  after C_Optimizer (mro C_SGDFWNuclear) = [C_object]
  ∧ SGDFWNuclear_init (Plain [1%positive]) 1 = Raise TypeError
  ∧ ∀ o, SGDFWNuclear_init (Plain [1%positive]) 1 ≠ Ok o.
Proof. apply (SGDFWNuclear_init_raises (Plain [1%positive]) 1). by vm_compute. Defined.

(** No argument at all constructs an [SGDFWNuclear]. *)
Lemma SGDFWNuclear_never_constructed (params : params_arg) (kappa_l1 : Qc) (o : optimizer) :
  SGDFWNuclear_init params kappa_l1 ≠ Ok o.
Proof. unfold SGDFWNuclear_init. by case_decide. Qed.

(** ** What a visit of a parameter does *)

Ltac unfold_M :=
  unfold mbind, M_bind, mret, M_ret, emit, get_param, set_grad, set_data,
    group_get, state_get, state_set, get_k, incr_k, get_groups, call_oracle,
    raise in *.

Ltac map_simpl :=
  repeat first
    [ rewrite lookup_total_insert_eq | rewrite lookup_total_insert_ne by done
    | rewrite lookup_insert_eq | rewrite lookup_insert_ne by done ].

Section Visits.

Context {Loss : Type}.
Variable LMO : tensor → Qc → result tensor.

(** A visit of another parameter leaves [p] alone. *)
Lemma SGDl1_param_other gs n p P S group lam mu delta q :
  q ≠ p → is_Some (hyper group !! "lr") →
  returns (at_ gs n p P S) (SGDl1_param group lam mu delta q) (λ _, at_ gs n p P S).
Proof.
  intros Hq [lr Hlr] w (Hg & Hk & HP & HS). exists tt.
  unfold SGDl1_param. unfold_M. simpl. rewrite Hlr.
  repeat case_match; simplify_eq/=; unfold at_; simpl; map_simpl; done.
Qed.

Lemma FW_param_other gs n p P S kappa q :
  q ≠ p →
  keeps (at_ gs n p P S) (FW_param LMO kappa q).
Proof.
  intros Hq w (Hg & Hk & HP & HS).
  unfold FW_param. unfold_M. simpl.
  repeat case_match; simplify_eq/=; unfold at_; simpl; map_simpl; done.
Qed.

(** A visit of a parameter without a gradient returns and changes nothing
    but the record of visits. *)
Lemma SGDl1_param_absent group lam mu delta p w :
  grad (heap w !!! p) = None →
  SGDl1_param group lam mu delta p w
  = (mkWorld (heap w) (self w) (log w ++ [EvVisit p]), Ok tt).
Proof. intros Hg. unfold SGDl1_param. unfold_M. simpl. by rewrite Hg. Qed.

Lemma FW_param_absent kappa p w :
  grad (heap w !!! p) = None →
  FW_param LMO kappa p w
  = (mkWorld (heap w) (self w) (log w ++ [EvVisit p]), Ok tt).
Proof. intros Hg. unfold FW_param. unfold_M. simpl. by rewrite Hg. Qed.

(** The visit of [SGDl1.step] with a gradient, without momentum. *)
Lemma SGDl1_param_plain gs n p x g S group lam delta lr :
  hyper group !! "lr" = Some lr →
  returns (at_ gs n p (mkParam x (Some g)) S)
    (SGDl1_param group lam 0 delta p)
    (λ _, at_ gs n p
            (mkParam (t_add_scaled x (- lr) (t_add_scaled g lam (t_sign x)))
                     (Some (t_add_scaled g lam (t_sign x))))
            S).
Proof.
  intros Hlr w (Hg & Hk & HP & HS). exists tt.
  unfold SGDl1_param. unfold_M. simpl. rewrite HP, Hlr. simpl.
  unfold at_; simpl; map_simpl. done.
Qed.

(** The visit with momentum, when [self.state[p]] has no buffer yet. *)
Lemma SGDl1_param_first gs n p x g S group lam mu delta lr :
  mu ≠ 0 → hyper group !! "lr" = Some lr →
  default ∅ S !! "momentum_buffer" = None →
  let d_p := t_add_scaled g lam (t_sign x) in
  let buf := t_add (t_mul (zeros_like x) mu) d_p in
  returns (at_ gs n p (mkParam x (Some g)) S)
    (SGDl1_param group lam mu delta p)
    (λ _, at_ gs n p
            (mkParam (t_add_scaled x (- lr) buf) (Some d_p))
            (Some (<["momentum_buffer" := buf]> (default ∅ S)))).
Proof.
  intros Hmu Hlr Hb d_p buf w (Hg & Hk & HP & HS). exists tt.
  unfold SGDl1_param. unfold_M. simpl. rewrite HP, Hlr. simpl.
  rewrite decide_True by done. simpl. rewrite HS.
  destruct S as [d|]; simpl in *; rewrite Hb; simpl;
    unfold at_; simpl; map_simpl; rewrite ?HS; done.
Qed.

(** The visit with momentum, when [self.state[p]] holds a buffer. *)
Lemma SGDl1_param_next gs n p x g d b group lam mu delta lr :
  mu ≠ 0 → hyper group !! "lr" = Some lr →
  d !! "momentum_buffer" = Some b →
  let d_p := t_add_scaled g lam (t_sign x) in
  let buf := t_add_scaled (t_mul b mu) (1 - delta) d_p in
  returns (at_ gs n p (mkParam x (Some g)) (Some d))
    (SGDl1_param group lam mu delta p)
    (λ _, at_ gs n p
            (mkParam (t_add_scaled x (- lr) buf) (Some d_p))
            (Some (<["momentum_buffer" := buf]> d))).
Proof.
  intros Hmu Hlr Hb d_p buf w (Hg & Hk & HP & HS). exists tt.
  unfold SGDl1_param. unfold_M. simpl. rewrite HP, Hlr. simpl.
  rewrite decide_True by done. simpl. rewrite HS. simpl. rewrite Hb. simpl.
  unfold at_; simpl; map_simpl; rewrite ?HS; done.
Qed.

(** The visit of a Frank-Wolfe step with a gradient, when the oracle
    returns [s]. *)
Lemma FW_param_self gs n p x g S kappa s :
  LMO g kappa = Ok s →
  returns (at_ gs n p (mkParam x (Some g)) S)
    (FW_param LMO kappa p)
    (λ _, at_ gs n p
            (mkParam (t_add x (t_sub (t_scale (gamma_of n) s) (t_scale (gamma_of n) x)))
                     (Some g))
            S).
Proof.
  intros Hs w (Hg & Hk & HP & HS). exists tt.
  unfold FW_param. unfold_M. simpl. rewrite HP. simpl. rewrite Hs. simpl.
  unfold at_; simpl; map_simpl. rewrite HP, Hk. done.
Qed.

End Visits.

(** ** Optimizers as the base class keeps them *)

Lemma listed_once_split (gs : list param_group) (group : param_group) (p : pid) :
  listed_once gs → group ∈ gs → p ∈ params group →
  ∃ gs1 gs2 l1 l2,
    gs = gs1 ++ group :: gs2 ∧ params group = l1 ++ p :: l2
    ∧ (p ∉ l1) ∧ (p ∉ l2) ∧ (∀ g', g' ∈ gs1 ++ gs2 → p ∉ params g').
Proof.
  intros Hnd Hg Hp.
  destruct (list_elem_of_split _ _ Hg) as (gs1 & gs2 & ->).
  destruct (list_elem_of_split _ _ Hp) as (l1 & l2 & Hl).
  exists gs1, gs2, l1, l2. unfold listed_once in Hnd.
  rewrite bind_app, bind_cons, Hl in Hnd.
  apply NoDup_app in Hnd as (_ & Hd1 & Hnd).
  apply NoDup_app in Hnd as (Hin & Hd2 & _).
  apply NoDup_app in Hin as (_ & Hd3 & Hin).
  apply NoDup_cons in Hin as [Hin _].
  repeat split; [done.. | | done |].
  - intros Hp1. apply (Hd3 p Hp1). left.
  - intros g' Hg' Hp'. apply elem_of_app in Hg' as [Hg'|Hg'].
    + apply (Hd1 p); [apply list_elem_of_bind; eauto|].
      rewrite !elem_of_app, elem_of_cons. auto.
    + apply (Hd2 p); [|apply list_elem_of_bind; eauto].
      rewrite elem_of_app, elem_of_cons. auto.
Qed.

Section Loops.

Context {Loss : Type}.
Variable LMO : tensor → Qc → result tensor.

Lemma returns_group_get {A} (P : world → Prop) (Q : A → world → Prop)
    (g : param_group) (key : string) (v : Qc) (f : Qc → M A) :
  hyper g !! key = Some v →
  returns P (f v) Q → returns P (group_get g key ≫= f) Q.
Proof.
  intros Hv Hf w Hw. rewrite bind_eq. unfold group_get. rewrite Hv. by apply Hf.
Qed.

Lemma SGDl1_group_other gs n p P S g' :
  SGDl1_keys g' → p ∉ params g' →
  returns (at_ gs n p P S) (SGDl1_group g') (λ _, at_ gs n p P S).
Proof.
  intros ([lam Hl] & [mu Hm] & [delta Hd] & Hlr) Hp. unfold SGDl1_group.
  do 3 (eapply returns_group_get; [eassumption|]).
  apply returns_for_each. intros q Hq.
  apply SGDl1_param_other; [by intros -> | done].
Qed.

Lemma SGDl1_group_self gs n p P S P' S' group lam mu delta l1 l2 :
  hyper group !! "l1" = Some lam → hyper group !! "momentum" = Some mu →
  hyper group !! "dampening" = Some delta → is_Some (hyper group !! "lr") →
  params group = l1 ++ p :: l2 → p ∉ l1 → p ∉ l2 →
  returns (at_ gs n p P S) (SGDl1_param group lam mu delta p) (λ _, at_ gs n p P' S') →
  returns (at_ gs n p P S) (SGDl1_group group) (λ _, at_ gs n p P' S').
Proof.
  intros Hl Hm Hd Hlr Hps H1 H2 Hp. unfold SGDl1_group.
  do 3 (eapply returns_group_get; [eassumption|]).
  rewrite Hps. apply returns_for_each_one; [|done|];
    intros q Hq; (apply SGDl1_param_other; [by intros -> | done]).
Qed.

(** The loops of [SGDl1.step] return when every group has its keys, and do
    to a parameter that is listed once what its one visit does. *)
Lemma SGDl1_loops_at gs n p P S P' S' group lam mu delta :
  listed_once gs → Forall SGDl1_keys gs →
  group ∈ gs → p ∈ params group →
  hyper group !! "l1" = Some lam → hyper group !! "momentum" = Some mu →
  hyper group !! "dampening" = Some delta →
  returns (at_ gs n p P S) (SGDl1_param group lam mu delta p) (λ _, at_ gs n p P' S') →
  returns (at_ gs n p P S) SGDl1_loops (λ _, at_ gs n p P' S').
Proof.
  intros Hnd Hkeys Hg Hp Hl Hm Hd Hvisit.
  destruct (listed_once_split _ _ _ Hnd Hg Hp)
    as (gs1 & gs2 & l1 & l2 & Hgs & Hps & H1 & H2 & Hoth).
  subst gs. rewrite Forall_forall in Hkeys.
  unfold SGDl1_loops. intros w Hw. rewrite bind_eq. unfold get_groups.
  rewrite (proj1 Hw). revert w Hw.
  apply returns_for_each_one.
  - intros g' Hg'. apply SGDl1_group_other; [apply Hkeys | apply Hoth];
      rewrite ?elem_of_app, ?elem_of_cons; auto.
  - eapply SGDl1_group_self; try done.
    apply (Hkeys group). rewrite elem_of_app, elem_of_cons. auto.
  - intros g' Hg'. apply SGDl1_group_other; [apply Hkeys | apply Hoth];
      rewrite ?elem_of_app, ?elem_of_cons; auto.
Qed.

Lemma call_closure_eq (closure : option (closure_t Loss)) (w : world) :
  call_closure closure w
  = (mkWorld (from_option (λ c, (c (heap w)).1) (heap w) closure) (self w)
       (log w ++ from_option (λ _, [EvClosure]) [] closure),
     Ok (closure_loss closure w)).
Proof.
  destruct closure as [c|]; simpl; [done|].
  unfold mret, M_ret. rewrite app_nil_r. by destruct w.
Qed.

(** [step] is its loops, run where the closure leaves the world; it returns
    the value of the closure unless the loops raise. *)
Lemma SGDl1_step_eq (closure : option (closure_t Loss)) (w : world) :
  SGDl1_step closure w
  = match SGDl1_loops (call_closure closure w).1 with
    | (w', Ok _) => (w', Ok (closure_loss closure w))
    | (w', Raise e) => (w', Raise e)
    end.
Proof.
  unfold SGDl1_step. rewrite bind_eq, call_closure_eq. simpl.
  rewrite bind_eq. by destruct (SGDl1_loops _) as [w' [[]|e]].
Qed.

Lemma FW_step_eq (closure : option (closure_t Loss)) (w : world) :
  FW_step LMO closure w
  = match FW_loops LMO (call_closure closure w).1 with
    | (w', Ok _) => ((incr_k w').1, Ok (closure_loss closure w))
    | (w', Raise e) => (w', Raise e)
    end.
Proof.
  unfold FW_step. rewrite bind_eq, call_closure_eq. simpl.
  rewrite bind_eq. by destruct (FW_loops _ _) as [w' [[]|e]].
Qed.

End Loops.

(** ** [SGDl1.step] *)

Lemma t_add_scaled_eq (a : tensor) (c : Qc) (b : tensor) :
  t_add_scaled a c b = t_add a (t_scale c b).
Proof.
  unfold t_add_scaled, t_add, t_scale. revert b.
  induction a as [|x a IH]; intros [|y b]; simpl; try done. by rewrite IH.
Qed.

Lemma t_add_scaled_neg (a : tensor) (c : Qc) (b : tensor) :
  t_add_scaled a (- c) b = t_sub a (t_scale c b).
Proof.
  unfold t_add_scaled, t_sub, t_scale. revert b.
  induction a as [|x a IH]; intros [|y b]; simpl; try done.
  f_equal; [ring | apply IH].
Qed.

Section SGDl1.

Context {Loss : Type}.

Lemma SGDl1_step_at (closure : option (closure_t Loss)) (w : world)
    n p P S P' S' group lam mu delta :
  listed_once (param_groups (self w)) → Forall SGDl1_keys (param_groups (self w)) →
  group ∈ param_groups (self w) → p ∈ params group →
  hyper group !! "l1" = Some lam → hyper group !! "momentum" = Some mu →
  hyper group !! "dampening" = Some delta →
  at_ (param_groups (self w)) n p P S (call_closure closure w).1 →
  returns (at_ (param_groups (self w)) n p P S)
    (SGDl1_param group lam mu delta p)
    (λ _, at_ (param_groups (self w)) n p P' S') →
  (SGDl1_step closure w).2 = Ok (closure_loss closure w)
  ∧ at_ (param_groups (self w)) n p P' S' (SGDl1_step closure w).1.
Proof.
  intros Hnd Hkeys Hg Hp Hl Hm Hd Hat Hvisit. rewrite SGDl1_step_eq.
  destruct (SGDl1_loops_at _ _ _ _ _ _ _ _ _ _ _ Hnd Hkeys Hg Hp Hl Hm Hd Hvisit _ Hat)
    as ([] & Hr & Hw').
  destruct (SGDl1_loops _) as [w' r]; simpl in *. by rewrite Hr.
Qed.

Lemma at_after_closure (closure : option (closure_t Loss)) (w : world) (p : pid) :
  at_ (param_groups (self w)) (k (self w)) p
    (heap (call_closure closure w).1 !!! p) (state (self w) !! p)
    (call_closure closure w).1.
Proof. rewrite call_closure_eq. by repeat split. Qed.

(** C5. With [momentum = 0], a call to [SGDl1.step] returns and leaves in a
    parameter with a gradient [g] and values [x] the values
    [x - lr * (g + lambda * sign(x))], where [sign(0) = 0]; the group
    defines the hyperparameters the method reads, and the parameter is
    listed once. *)
Theorem SGDl1_step_without_momentum (closure : option (closure_t Loss)) (w : world)
    (group : param_group) (p : pid) (x g : tensor) (lam lr : Qc) :
  listed_once (param_groups (self w)) →
  Forall SGDl1_keys (param_groups (self w)) →
  group ∈ param_groups (self w) → p ∈ params group →
  hyper group !! "l1" = Some lam → hyper group !! "momentum" = Some 0 →
  hyper group !! "lr" = Some lr →
  heap (call_closure closure w).1 !!! p = mkParam x (Some g) →
  (SGDl1_step closure w).2 = Ok (closure_loss closure w)
  ∧ data (heap (SGDl1_step closure w).1 !!! p)
    = t_sub x (t_scale lr (t_add g (t_scale lam (t_sign x))))
  ∧ sign 0 = 0.
Proof.
  intros Hnd Hkeys Hg Hp Hl Hm Hlr Hx.
  assert (Hd : is_Some (hyper group !! "dampening")).
  { rewrite Forall_forall in Hkeys. apply (Hkeys group Hg). }
  destruct Hd as [delta Hd].
  pose proof (at_after_closure closure w p) as Hat. rewrite Hx in Hat.
  destruct (SGDl1_step_at closure w _ _ _ _ _ _ _ _ _ _ Hnd Hkeys Hg Hp Hl Hm Hd Hat
              (SGDl1_param_plain _ _ _ _ _ _ _ _ _ _ Hlr))
    as (Hr & _ & _ & HP & _).
  split; [done|]. split; [|apply sign_0].
  rewrite HP. simpl. by rewrite t_add_scaled_neg, t_add_scaled_eq.
Qed.

(** C4. With [momentum <> 0], a call to [SGDl1.step] sets the buffer of a
    parameter that has none to the effective gradient
    [e = g + lambda * sign(x)] itself, and turns an existing buffer [b] into
    [momentum * b + (1 - dampening) * e]; in both cases the new buffer is
    the direction of the descent, [x - lr * buffer]. *)
Theorem SGDl1_step_with_momentum (closure : option (closure_t Loss)) (w : world)
    (group : param_group) (p : pid) (x g : tensor) (lam mu delta lr : Qc) :
  listed_once (param_groups (self w)) →
  Forall SGDl1_keys (param_groups (self w)) →
  group ∈ param_groups (self w) → p ∈ params group →
  hyper group !! "l1" = Some lam → hyper group !! "momentum" = Some mu →
  hyper group !! "dampening" = Some delta → hyper group !! "lr" = Some lr →
  mu ≠ 0 →
  heap (call_closure closure w).1 !!! p = mkParam x (Some g) →
  let e := t_add g (t_scale lam (t_sign x)) in
  let w' := (SGDl1_step closure w).1 in
  (SGDl1_step closure w).2 = Ok (closure_loss closure w)
  ∧ match momentum_buffer w p with
    | None =>
        momentum_buffer w' p = Some e
        ∧ data (heap w' !!! p) = t_sub x (t_scale lr e)
    | Some b =>
        let b' := t_add (t_scale mu b) (t_scale (1 - delta) e) in
        momentum_buffer w' p = Some b'
        ∧ data (heap w' !!! p) = t_sub x (t_scale lr b')
    end.
Proof.
  intros Hnd Hkeys Hg Hp Hl Hm Hd Hlr Hmu Hx e w'.
  pose proof (at_after_closure closure w p) as Hat. rewrite Hx in Hat.
  unfold momentum_buffer at 1.
  destruct (state (self w) !! p) as [d|] eqn:HS; simpl;
    [destruct (d !! "momentum_buffer") as [b|] eqn:Hb|].
  - destruct (SGDl1_step_at closure w _ _ _ _ _ _ _ _ _ _ Hnd Hkeys Hg Hp Hl Hm Hd Hat
                (SGDl1_param_next _ _ _ _ _ _ _ _ _ _ _ _ Hmu Hlr Hb))
      as (Hr & _ & _ & HP & HS').
    split; [done|]. unfold momentum_buffer. fold w' in HP, HS'. rewrite HP, HS'. simpl.
    rewrite lookup_insert_eq, t_add_scaled_neg, momentum_formula, t_add_scaled_eq. done.
  - assert (Hb' : default ∅ (Some d) !! "momentum_buffer" = None) by done.
    destruct (SGDl1_step_at closure w _ _ _ _ _ _ _ _ _ _ Hnd Hkeys Hg Hp Hl Hm Hd Hat
                (SGDl1_param_first _ _ _ _ _ _ _ _ _ _ _ Hmu Hlr Hb'))
      as (Hr & _ & _ & HP & HS').
    split; [done|]. unfold momentum_buffer. fold w' in HP, HS'. rewrite HP, HS'. simpl.
    rewrite lookup_insert_eq, t_add_scaled_neg, first_buffer, t_add_scaled_eq; [done|].
    rewrite t_add_scaled_length. unfold t_sign. rewrite length_fmap. lia.
  - assert (Hb' : default ∅ (@None (gmap string tensor)) !! "momentum_buffer" = None) by done.
    destruct (SGDl1_step_at closure w _ _ _ _ _ _ _ _ _ _ Hnd Hkeys Hg Hp Hl Hm Hd Hat
                (SGDl1_param_first _ _ _ _ _ _ _ _ _ _ _ Hmu Hlr Hb'))
      as (Hr & _ & _ & HP & HS').
    split; [done|]. unfold momentum_buffer. fold w' in HP, HS'. rewrite HP, HS'. simpl.
    rewrite lookup_insert_eq, t_add_scaled_neg, first_buffer, t_add_scaled_eq; [done|].
    rewrite t_add_scaled_length. unfold t_sign. rewrite length_fmap. lia.
Qed.

End SGDl1.

(** An [SGDl1] built from a plain list of parameters has the two
    hyperparameters of its constructor, ['lr'] and ['l1'], in its group;
    [step] also reads ['momentum'], and raises [KeyError] there.  The
    theorems above are about groups that define all four. *)
Lemma SGDl1_plain_step {Loss : Type} (ps : list pid) (lr lambda_l1 : Qc) (o : optimizer)
    (cl : option (closure_t Loss)) (w : world) :
  SGDl1_init (Plain ps) lr lambda_l1 = Ok o → self w = o →
  SGDl1_step cl w = ((call_closure cl w).1, Raise (KeyError "momentum")).
Proof.
  unfold SGDl1_init. case_decide; [|done].
  destruct ps as [|p ps]; [done|].
  unfold super_init, Optimizer_init. simpl after. rewrite add_param_groups_one.
  intros [= <-] Hw.
  rewrite SGDl1_step_eq, call_closure_eq. simpl.
  unfold SGDl1_loops. rewrite bind_eq. simpl. rewrite Hw. simpl.
  rewrite bind_eq. unfold SGDl1_group. rewrite !bind_eq. unfold group_get. simpl.
  rewrite !lookup_union, !lookup_empty. simpl.
  rewrite (lookup_insert_ne _ "lr" "l1"), lookup_singleton_eq by done.
  by rewrite (lookup_insert_ne _ "lr" "momentum"), lookup_singleton_ne.
Qed.

(** ** [SGDl1.step] on an example *)

(** The optimizer of the example is what the constructor builds from a
    group dictionary that carries the momentum and the dampening. *)
Example ex_sgd_world_constructed :
  SGDl1_init
    (Groups [mkGroup [1%positive; 2%positive]
               {[ "momentum" := 1; "dampening" := frac 1 4 ]}])
    (frac 1 10) (frac 1 2)
  = Ok (self (ex_sgd_world 1 ∅)).
Proof. compute_done. Qed.

Lemma SGDl1_step_without_momentum_witness :
  (SGDl1_step (Loss := Qc) None (ex_sgd_world 0 ∅)).2 = Ok None
  ∧ data (heap (SGDl1_step (Loss := Qc) None (ex_sgd_world 0 ∅)).1 !!! 1%positive)
    = t_sub [1; - 2; 0]
        (t_scale (frac 1 10)
           (t_add [frac 1 2; frac 1 2; frac 1 2] (t_scale (frac 1 2) (t_sign [1; - 2; 0]))))
  ∧ sign 0 = 0.
Proof.
  apply (SGDl1_step_without_momentum None (ex_sgd_world 0 ∅) (ex_sgd_group 0) 1%positive
           [1; - 2; 0] [frac 1 2; frac 1 2; frac 1 2] (frac 1 2) (frac 1 10));
    compute_done.
Defined.

(** In numbers: [1 - (1/2 + 1/2)/10], [-2 - (1/2 - 1/2)/10], [0 - (1/2)/10]. *)
Example SGDl1_step_without_momentum_values :
  data (heap (SGDl1_step (Loss := Qc) None (ex_sgd_world 0 ∅)).1 !!! 1%positive)
  = [frac 9 10; - 2; frac (-1) 20].
Proof. compute_done. Qed.

Lemma SGDl1_step_with_momentum_witness :
  (SGDl1_step (Loss := Qc) None (ex_sgd_world 1 ∅)).2 = Ok None
  ∧ momentum_buffer (SGDl1_step (Loss := Qc) None (ex_sgd_world 1 ∅)).1 1%positive
    = Some (t_add [frac 1 2; frac 1 2; frac 1 2] (t_scale (frac 1 2) (t_sign [1; - 2; 0])))
  ∧ data (heap (SGDl1_step (Loss := Qc) None (ex_sgd_world 1 ∅)).1 !!! 1%positive)
    = t_sub [1; - 2; 0]
        (t_scale (frac 1 10)
           (t_add [frac 1 2; frac 1 2; frac 1 2] (t_scale (frac 1 2) (t_sign [1; - 2; 0])))).
Proof.
  assert (Hb : momentum_buffer (ex_sgd_world 1 ∅) 1%positive = None) by compute_done.
  pose proof (SGDl1_step_with_momentum (Loss := Qc) None (ex_sgd_world 1 ∅)
                (ex_sgd_group 1) 1%positive [1; - 2; 0]
                [frac 1 2; frac 1 2; frac 1 2] (frac 1 2) 1 (frac 1 4) (frac 1 10)) as H.
  cbv zeta in H. rewrite Hb in H. apply H; compute_done.
Defined.

(** A second step, on the buffer [b = 1, 0, 1/2] that the first one left:
    the new buffer is [1 * b + (1 - 1/4) * e]. *)
Example SGDl1_step_with_momentum_next :
  let st : gmap pid (gmap string tensor) :=
    {[ 1%positive := {[ "momentum_buffer" := [1; 0; frac 1 2] ]} ]} in
  momentum_buffer (SGDl1_step (Loss := Qc) None (ex_sgd_world 1 st)).1 1%positive
  = Some [frac 7 4; 0; frac 7 8].
Proof. compute_done. Qed.

(** ** The footprint of a visit *)

Lemma Param_eq (P Q : Param) : data P = data Q → grad P = grad Q → P = Q.
Proof. destruct P, Q; simpl; congruence. Qed.

Lemma keeps_group_get {A} (I : world → Prop) (g : param_group) (key : string)
    (f : Qc → M A) :
  (∀ v, hyper g !! key = Some v → keeps I (f v)) →
  keeps I (group_get g key ≫= f).
Proof.
  intros Hf w Hw. rewrite bind_eq. unfold group_get.
  destruct (hyper g !! key) as [v|]; [by apply (Hf v) | done].
Qed.

Section Footprints.

Context {Loss : Type}.
Variable LMO : tensor → Qc → result tensor.

(** A visit of [SGDl1.step] touches the object of the visited parameter and
    its entry in [self.state], and nothing if the gradient is absent. *)
Lemma SGDl1_param_footprint group lam mu delta q w :
  let w' := (SGDl1_param group lam mu delta q w).1 in
  param_groups (self w') = param_groups (self w)
  ∧ k (self w') = k (self w)
  ∧ log w' = log w ++ [EvVisit q]
  ∧ (∀ i, i ≠ q →
       heap w' !!! i = heap w !!! i ∧ state (self w') !! i = state (self w) !! i)
  ∧ (grad (heap w !!! q) = None →
       heap w' !!! q = heap w !!! q ∧ state (self w') !! q = state (self w) !! q)
  ∧ (grad (heap w' !!! q) = None ↔ grad (heap w !!! q) = None).
Proof.
  unfold SGDl1_param. unfold_M. simpl.
  destruct (grad (heap w !!! q)) as [g|] eqn:Hg; simpl; [|by rewrite Hg].
  repeat case_match; simplify_eq/=; map_simpl;
    (repeat split; [by intros; map_simpl.. | done | done | done]).
Qed.

(** A visit of a Frank-Wolfe step touches the values of the visited
    parameter only: they stay, or make the step towards what the oracle
    returned. *)
Lemma FW_param_footprint kappa q w :
  let w' := (FW_param LMO kappa q w).1 in
  self w' = self w
  ∧ log w' = log w ++ [EvVisit q]
  ∧ (∀ i, i ≠ q → heap w' !!! i = heap w !!! i)
  ∧ grad (heap w' !!! q) = grad (heap w !!! q)
  ∧ (data (heap w' !!! q) = data (heap w !!! q)
     ∨ ∃ g s, grad (heap w !!! q) = Some g ∧ LMO g kappa = Ok s
         ∧ data (heap w' !!! q)
           = t_add (data (heap w !!! q))
               (t_sub (t_scale (gamma_of (k (self w))) s)
                  (t_scale (gamma_of (k (self w))) (data (heap w !!! q))))).
Proof.
  unfold FW_param. unfold_M. simpl.
  destruct (grad (heap w !!! q)) as [g|] eqn:Hg; simpl; [|by repeat split; auto].
  destruct (LMO g kappa) as [s|e] eqn:Hs; simpl; [|by repeat split; auto].
  map_simpl. repeat split; [by intros; map_simpl | done | right; eauto].
Qed.

Lemma FW_param_unchanged kappa q w i :
  i ≠ q ∨ grad (heap w !!! i) = None →
  heap (FW_param LMO kappa q w).1 !!! i = heap w !!! i.
Proof.
  destruct (FW_param_footprint kappa q w) as (_ & _ & Hoth & Hgr & Hd).
  destruct (decide (i = q)) as [->|Hne]; [|by intros; apply Hoth].
  intros [?|Hg]; [done|]. apply Param_eq; [|done].
  destruct Hd as [Hd|(g & s & Hg' & _)]; [done | congruence].
Qed.

Lemma FW_param_frame o G l kappa q : keeps (FW_frame o G l) (FW_param LMO kappa q).
Proof.
  intros w (Ho & HG & vs & Hl).
  destruct (FW_param_footprint kappa q w) as (Hs & Hlog & Hoth & Hgr & _).
  split; [congruence|]. split.
  - intros i. destruct (decide (i = q)) as [->|Hne]; [by rewrite Hgr|].
    by rewrite Hoth.
  - exists (vs ++ [q]). by rewrite Hlog, Hl, fmap_app, <- app_assoc.
Qed.

Lemma FW_loops_frame o G l : keeps (FW_frame o G l) (FW_loops LMO).
Proof.
  unfold FW_loops. apply keeps_bind; [by intros w|]. intros gs.
  apply keeps_for_each. intros g _. unfold FW_group.
  apply keeps_group_get. intros kappa _.
  apply keeps_for_each. intros q _. apply FW_param_frame.
Qed.

Lemma SGDl1_param_frame gs n G l group lam mu delta q :
  keeps (SGDl1_frame gs n G l) (SGDl1_param group lam mu delta q).
Proof.
  intros w (Hg & Hk & HG & vs & Hl).
  destruct (SGDl1_param_footprint group lam mu delta q w)
    as (Hg' & Hk' & Hlog & Hoth & _ & Hgr).
  split; [congruence|]. split; [congruence|]. split.
  - intros i Hi. destruct (decide (i = q)) as [->|Hne]; [by apply Hgr, HG|].
    rewrite (proj1 (Hoth i Hne)). by apply HG.
  - exists (vs ++ [q]). by rewrite Hlog, Hl, fmap_app, <- app_assoc.
Qed.

Lemma SGDl1_loops_frame gs n G l : keeps (SGDl1_frame gs n G l) SGDl1_loops.
Proof.
  unfold SGDl1_loops. apply keeps_bind; [by intros w|]. intros gs'.
  apply keeps_for_each. intros g _. unfold SGDl1_group.
  do 3 (apply keeps_group_get; intros ? _).
  apply keeps_for_each. intros q _. apply SGDl1_param_frame.
Qed.

Lemma SGDl1_loops_untouched p P S :
  grad P = None → keeps (untouched p P S) SGDl1_loops.
Proof.
  intros HP. unfold SGDl1_loops. apply keeps_bind; [by intros w|]. intros gs'.
  apply keeps_for_each. intros g _. unfold SGDl1_group.
  apply keeps_group_get; intros lam _.
  apply keeps_group_get; intros mu _.
  apply keeps_group_get; intros delta _.
  apply keeps_for_each. intros q _ w [Hh Hs].
  destruct (SGDl1_param_footprint g lam mu delta q w) as (_ & _ & _ & Hoth & Habs & _).
  unfold untouched. destruct (decide (p = q)) as [<-|Hne].
  - rewrite Hh in Habs. by rewrite (proj1 (Habs HP)), (proj2 (Habs HP)).
  - by rewrite (proj1 (Hoth p Hne)), (proj2 (Hoth p Hne)).
Qed.

Lemma FW_loops_untouched p P S :
  grad P = None → keeps (untouched p P S) (FW_loops LMO).
Proof.
  intros HP. unfold FW_loops. apply keeps_bind; [by intros w|]. intros gs'.
  apply keeps_for_each. intros g _. unfold FW_group.
  apply keeps_group_get; intros kappa _.
  apply keeps_for_each. intros q _ w [Hh Hs].
  destruct (FW_param_footprint kappa q w) as (Hself & _).
  unfold untouched. rewrite Hself. split; [|done].
  rewrite FW_param_unchanged; [done|]. right. by rewrite Hh.
Qed.

End Footprints.

(** ** Gradients, skipped parameters and the closure *)

Section Calls.

Context {Loss : Type}.
Variable LMO_l1 : tensor → Qc → result tensor.
Variable LMO_nuclear : tensor → Qc → result tensor.

Lemma FW_step_frame (LMO : tensor → Qc → result tensor)
    (closure : option (closure_t Loss)) (w : world) :
  let w1 := (call_closure closure w).1 in
  (∀ i, grad (heap (FW_step LMO closure w).1 !!! i) = grad (heap w1 !!! i))
  ∧ ∃ visits, log (FW_step LMO closure w).1 = log w1 ++ (EvVisit <$> visits).
Proof.
  intros w1.
  assert (Hfr : FW_frame (self w1) (λ i, grad (heap w1 !!! i)) (log w1) w1).
  { repeat split. exists []. by rewrite app_nil_r. }
  apply (FW_loops_frame LMO) in Hfr. rewrite FW_step_eq. fold w1.
  destruct (FW_loops LMO w1) as [w' [[]|e]]; simpl in *;
    destruct Hfr as (_ & HG & Hl); done.
Qed.

Lemma SGDl1_step_frame (G : pid → Prop) (closure : option (closure_t Loss)) (w : world) :
  let w1 := (call_closure closure w).1 in
  (∀ i, G i → grad (heap w1 !!! i) = None) →
  (∀ i, G i → grad (heap (SGDl1_step closure w).1 !!! i) = None)
  ∧ ∃ visits, log (SGDl1_step closure w).1 = log w1 ++ (EvVisit <$> visits).
Proof.
  intros w1 HG.
  assert (Hfr : SGDl1_frame (param_groups (self w1)) (k (self w1)) G (log w1) w1).
  { repeat split; [done|]. exists []. by rewrite app_nil_r. }
  apply SGDl1_loops_frame in Hfr. rewrite SGDl1_step_eq. fold w1.
  destruct (SGDl1_loops w1) as [w' [[]|e]]; simpl in *;
    destruct Hfr as (_ & _ & HG' & Hl); done.
Qed.

(** The closure in the three [step] methods: a closure that is supplied is
    invoked exactly once, before any parameter is visited, and its value is
    what [step] returns when the loops return; without a closure [step] then
    returns [None].  When the loops raise, [step] raises instead. *)
Lemma closure_passed_through :
  closure_contract (SGDl1_step (Loss := Loss)) SGDl1_loops
  ∧ closure_contract (SGDFWl1_step (Loss := Loss) LMO_l1) (FW_loops LMO_l1)
  ∧ closure_contract (SGDFWNuclear_step (Loss := Loss) LMO_nuclear) (FW_loops LMO_nuclear).
Proof.
  repeat split.
  - destruct (SGDl1_step_frame (λ _, False) closure w) as [_ Hl]; [done|].
    by rewrite call_closure_eq in Hl.
  - rewrite SGDl1_step_eq, call_closure_eq. simpl.
    by destruct (SGDl1_loops _) as [w' [[]|e]].
  - destruct (FW_step_frame LMO_l1 closure w) as [_ Hl].
    by rewrite call_closure_eq in Hl.
  - unfold SGDFWl1_step. rewrite FW_step_eq, call_closure_eq. simpl.
    by destruct (FW_loops _ _) as [w' [[]|e]].
  - destruct (FW_step_frame LMO_nuclear closure w) as [_ Hl].
    by rewrite call_closure_eq in Hl.
  - unfold SGDFWNuclear_step. rewrite FW_step_eq, call_closure_eq. simpl.
    by destruct (FW_loops _ _) as [w' [[]|e]].
Qed.

(** C8. For each of the three [step] methods: a parameter whose gradient is
    absent when the loops start keeps its object (values and absent
    gradient) and its entry in [self.state] through the call, and its visit
    returns without raising. *)
Theorem absent_gradient_skipped (closure : option (closure_t Loss)) (w : world) (p : pid) :
  grad (heap (call_closure closure w).1 !!! p) = None →
  (heap (SGDl1_step closure w).1 !!! p = heap (call_closure closure w).1 !!! p
   ∧ state (self (SGDl1_step closure w).1) !! p = state (self w) !! p)
  ∧ (heap (SGDFWl1_step LMO_l1 closure w).1 !!! p = heap (call_closure closure w).1 !!! p
     ∧ state (self (SGDFWl1_step LMO_l1 closure w).1) !! p = state (self w) !! p)
  ∧ (heap (SGDFWNuclear_step LMO_nuclear closure w).1 !!! p
       = heap (call_closure closure w).1 !!! p
     ∧ state (self (SGDFWNuclear_step LMO_nuclear closure w).1) !! p = state (self w) !! p)
  ∧ ∀ group lam mu delta kappa v,
      grad (heap v !!! p) = None →
      (SGDl1_param group lam mu delta p v).2 = Ok ()
      ∧ (FW_param LMO_l1 kappa p v).2 = Ok ()
      ∧ (FW_param LMO_nuclear kappa p v).2 = Ok ().
Proof.
  intros Hg. set (w1 := (call_closure closure w).1) in *.
  assert (Hun : untouched p (heap w1 !!! p) (state (self w) !! p) w1).
  { split; [done|]. unfold w1. by rewrite call_closure_eq. }
  repeat split.
  - apply SGDl1_loops_untouched in Hun; [|done]. rewrite SGDl1_step_eq. fold w1.
    destruct (SGDl1_loops w1) as [w' [[]|e]]; apply Hun.
  - apply SGDl1_loops_untouched in Hun; [|done]. rewrite SGDl1_step_eq. fold w1.
    destruct (SGDl1_loops w1) as [w' [[]|e]]; apply Hun.
  - apply (FW_loops_untouched LMO_l1) in Hun; [|done].
    unfold SGDFWl1_step. rewrite FW_step_eq. fold w1.
    destruct (FW_loops LMO_l1 w1) as [w' [[]|e]]; apply Hun.
  - apply (FW_loops_untouched LMO_l1) in Hun; [|done].
    unfold SGDFWl1_step. rewrite FW_step_eq. fold w1.
    destruct (FW_loops LMO_l1 w1) as [w' [[]|e]]; apply Hun.
  - apply (FW_loops_untouched LMO_nuclear) in Hun; [|done].
    unfold SGDFWNuclear_step. rewrite FW_step_eq. fold w1.
    destruct (FW_loops LMO_nuclear w1) as [w' [[]|e]]; apply Hun.
  - apply (FW_loops_untouched LMO_nuclear) in Hun; [|done].
    unfold SGDFWNuclear_step. rewrite FW_step_eq. fold w1.
    destruct (FW_loops LMO_nuclear w1) as [w' [[]|e]]; apply Hun.
  - by rewrite SGDl1_param_absent.
  - by rewrite FW_param_absent.
  - by rewrite FW_param_absent.
Qed.

End Calls.

Section Gradients.

Context {Loss : Type}.
Variable LMO_l1 : tensor → Qc → result tensor.
Variable LMO_nuclear : tensor → Qc → result tensor.

(** The visit of [SGDl1.step] leaves [g + lambda * sign(x)] in the gradient,
    with or without momentum. *)
Lemma SGDl1_step_gradient (closure : option (closure_t Loss)) (w : world)
    (group : param_group) (p : pid) (x g : tensor) (lam : Qc) :
  listed_once (param_groups (self w)) →
  Forall SGDl1_keys (param_groups (self w)) →
  group ∈ param_groups (self w) → p ∈ params group →
  hyper group !! "l1" = Some lam →
  heap (call_closure closure w).1 !!! p = mkParam x (Some g) →
  grad (heap (SGDl1_step closure w).1 !!! p)
  = Some (t_add g (t_scale lam (t_sign x))).
Proof.
  intros Hnd Hkeys Hg Hp Hl Hx.
  pose proof (proj1 (Forall_forall _ _) Hkeys group Hg)
    as (_ & [mu Hm] & [delta Hd] & [lr Hlr]).
  pose proof (at_after_closure closure w p) as Hat. rewrite Hx in Hat.
  rewrite <- t_add_scaled_eq.
  destruct (decide (mu = 0)) as [->|Hmu].
  { destruct (SGDl1_step_at closure w _ _ _ _ _ _ _ _ _ _ Hnd Hkeys Hg Hp Hl Hm Hd Hat
                (SGDl1_param_plain _ _ _ _ _ _ _ _ _ _ Hlr))
      as (_ & _ & _ & -> & _). done. }
  destruct (state (self w) !! p) as [d|] eqn:HS;
    [destruct (d !! "momentum_buffer") as [b|] eqn:Hb|].
  - destruct (SGDl1_step_at closure w _ _ _ _ _ _ _ _ _ _ Hnd Hkeys Hg Hp Hl Hm Hd Hat
                (SGDl1_param_next _ _ _ _ _ _ _ _ _ _ _ _ Hmu Hlr Hb))
      as (_ & _ & _ & -> & _). done.
  - assert (Hb' : default ∅ (Some d) !! "momentum_buffer" = None) by done.
    destruct (SGDl1_step_at closure w _ _ _ _ _ _ _ _ _ _ Hnd Hkeys Hg Hp Hl Hm Hd Hat
                (SGDl1_param_first _ _ _ _ _ _ _ _ _ _ _ Hmu Hlr Hb'))
      as (_ & _ & _ & -> & _). done.
  - assert (Hb' : default ∅ (@None (gmap string tensor)) !! "momentum_buffer" = None) by done.
    destruct (SGDl1_step_at closure w _ _ _ _ _ _ _ _ _ _ Hnd Hkeys Hg Hp Hl Hm Hd Hat
                (SGDl1_param_first _ _ _ _ _ _ _ _ _ _ _ Hmu Hlr Hb'))
      as (_ & _ & _ & -> & _). done.
Qed.

(** C7, as the code has it.  The two Frank-Wolfe [step] methods only read the
    gradients: every gradient is after the call what it was when the loops
    started, also when the call raises.  [SGDl1.step] leaves an absent
    gradient absent, and adds [lambda * sign(x)] in place to the gradient
    [g] of a parameter with values [x] that it visits. *)
Theorem gradients_after_step (closure : option (closure_t Loss)) (w : world) :
  (∀ i, grad (heap (SGDFWl1_step LMO_l1 closure w).1 !!! i)
        = grad (heap (call_closure closure w).1 !!! i))
  ∧ (∀ i, grad (heap (SGDFWNuclear_step LMO_nuclear closure w).1 !!! i)
          = grad (heap (call_closure closure w).1 !!! i))
  ∧ (∀ i, grad (heap (call_closure closure w).1 !!! i) = None →
          grad (heap (SGDl1_step closure w).1 !!! i) = None)
  ∧ (∀ group p x g lam,
       listed_once (param_groups (self w)) →
       Forall SGDl1_keys (param_groups (self w)) →
       group ∈ param_groups (self w) → p ∈ params group →
       hyper group !! "l1" = Some lam →
       heap (call_closure closure w).1 !!! p = mkParam x (Some g) →
       grad (heap (SGDl1_step closure w).1 !!! p)
       = Some (t_add g (t_scale lam (t_sign x)))).
Proof.
  split; [apply (FW_step_frame LMO_l1 closure w)|].
  split; [apply (FW_step_frame LMO_nuclear closure w)|].
  split; [|apply SGDl1_step_gradient].
  intros i Hi.
  by apply (SGDl1_step_frame (λ j, grad (heap (call_closure closure w).1 !!! j) = None)).
Qed.

End Gradients.

(** [SGDl1.step] rewrites the gradient of the first parameter of the example,
    [1/2, 1/2, 1/2], into [1/2 + 1/2 * sign(1, -2, 0)]. *)
Lemma SGDl1_step_changes_gradient :
  grad (ex_heap !!! 1%positive) = Some [frac 1 2; frac 1 2; frac 1 2]
  ∧ (SGDl1_step (Loss := Qc) None (ex_sgd_world 0 ∅)).2 = Ok None
  ∧ grad (heap (SGDl1_step (Loss := Qc) None (ex_sgd_world 0 ∅)).1 !!! 1%positive)
    = Some [1; 0; frac 1 2]
  ∧ grad (heap (SGDl1_step (Loss := Qc) None (ex_sgd_world 0 ∅)).1 !!! 1%positive)
    ≠ grad (heap (ex_sgd_world 0 ∅) !!! 1%positive).
Proof. repeat split; compute_done. Qed.

(** ** The counter and the ball *)

Section Runs.

Context {Loss : Type}.
Variable LMO : tensor → Qc → result tensor.

(** The counter counts the calls that return. *)
Lemma FW_step_counter (cl : option (closure_t Loss)) (w : world) :
  k (self (FW_step LMO cl w).1)
  = match (FW_step LMO cl w).2 with
    | Ok _ => S (k (self w))
    | Raise _ => k (self w)
    end.
Proof.
  set (w1 := (call_closure cl w).1).
  assert (Hfr : FW_frame (self w1) (λ i, grad (heap w1 !!! i)) (log w1) w1).
  { repeat split. exists []. by rewrite app_nil_r. }
  apply (FW_loops_frame LMO) in Hfr. destruct Hfr as (Hs & _).
  rewrite FW_step_eq. fold w1.
  destruct (FW_loops LMO w1) as [w' [[]|e]]; simpl in *; rewrite Hs;
    unfold w1; by rewrite call_closure_eq.
Qed.

Lemma FW_run_counter (calls : list (call Loss)) (w : world) :
  k (self (run (FW_step LMO) calls w).1)
  = (k (self w) + returned (run (FW_step LMO) calls w).2)%nat.
Proof.
  revert w. induction calls as [|c calls IH]; intros w; simpl; [lia|].
  rewrite IH, FW_step_counter. simpl.
  destruct (FW_step LMO (c_closure c) _).2; simpl; lia.
Qed.

End Runs.

(** ** The oracle stays in the ball *)

Lemma l1norm_zeros (t : tensor) : l1norm (zeros_like t) = 0.
Proof.
  induction t as [|x t IH]; simpl; [done|].
  rewrite IH. by apply Qc_is_canon.
Qed.

Lemma l1norm_one_entry (t : tensor) (i : nat) (v : Qc) :
  l1norm (<[i := v]> (zeros_like t)) ≤ Qcabs v.
Proof.
  revert i. induction t as [|x t IH]; intros i; simpl; [apply Qcabs_nonneg|].
  destruct i as [|i]; simpl.
  - rewrite l1norm_zeros, Qcplus_0_r. apply Qcle_refl.
  - replace (Qcabs 0) with 0 by (by apply Qc_is_canon).
    rewrite Qcplus_0_l. apply IH.
Qed.

Lemma LMO_l1_in_ball (g : tensor) (kappa : Qc) (s : tensor) :
  LMO_l1 g kappa = Ok s → l1norm s ≤ kappa.
Proof.
  unfold LMO_l1. case_decide as Hk; [|done]. intros [= <-].
  etrans; [apply l1norm_one_entry|].
  rewrite Qcabs_Qcmult, Qcabs_opp, (Qcabs_pos kappa) by (by apply Qclt_le_weak).
  rewrite <- (Qcmult_1_r kappa) at 2.
  apply Qcmult_le_mono_nonneg_l; [by apply Qclt_le_weak | apply Qcabs_sign].
Qed.

Lemma LMO_l1_length (g : tensor) (kappa : Qc) (s : tensor) :
  LMO_l1 g kappa = Ok s → length s = length g.
Proof.
  unfold LMO_l1. case_decide; [|done]. intros [= <-].
  etrans; [apply length_insert|]. apply length_fmap.
Qed.

(** The example of the specification. *)
Example LMO_l1_example :
  LMO_l1 [frac 1 10; frac (-9) 10; frac 3 10] 2 = Ok [0; 2; 0].
Proof. compute_done. Qed.

Example LMO_l1_zero_gradient : LMO_l1 [0; 0; 0] 2 = Ok [0; 0; 0].
Proof. compute_done. Qed.

(** ** [SGDFWl1.step] *)

Lemma set_gradient_keeps_values (i : pid) (g : tensor) : keeps_values (set_gradient i g).
Proof.
  intros h j. unfold set_gradient.
  destruct (decide (i = j)) as [->|Hne]; by map_simpl.
Qed.

Lemma ex_calls_keep_values : Forall call_keeps_values ex_calls.
Proof.
  repeat constructor; try done.
  apply set_gradient_keeps_values.
Qed.

(** In numbers: the first call moves [1, -2, 0] to the vertex [-4, 0, 0]
    (step size 1), the second moves it by 2/3 towards [0, 4, 0]; both calls
    return and the counter is 2. *)
Example SGDFWl1_two_calls :
  data (heap (run (SGDFWl1_step LMO_l1) ex_calls ex_fw_world).1 !!! 1%positive)
  = [frac (-4) 3; frac 8 3; 0]
  ∧ (run (SGDFWl1_step LMO_l1) ex_calls ex_fw_world).2 = [Ok None; Ok None]
  ∧ k (self (run (SGDFWl1_step LMO_l1) ex_calls ex_fw_world).1) = 2%nat.
Proof. repeat split; compute_done. Qed.

(** ** The update of the Frank-Wolfe steps *)

Section Update.

Context {Loss : Type}.
Variable LMO : tensor → Qc → result tensor.
Hypothesis LMO_returns : ∀ g kappa, 0 < kappa → ∃ s, LMO g kappa = Ok s.

Lemma FW_param_other_returns gs n p P S kappa q :
  q ≠ p → 0 < kappa →
  returns (at_ gs n p P S) (FW_param LMO kappa q) (λ _, at_ gs n p P S).
Proof.
  intros Hq Hk w Hw. exists (). split; [|by apply FW_param_other].
  unfold FW_param. unfold_M. simpl.
  destruct (grad (heap w !!! q)) as [g|]; simpl; [|done].
  by destruct (LMO_returns g kappa Hk) as [s ->].
Qed.

Lemma FW_group_other gs n p P S g' :
  FW_keys g' → p ∉ params g' →
  returns (at_ gs n p P S) (FW_group LMO g') (λ _, at_ gs n p P S).
Proof.
  intros (kappa & Hkey & Hk) Hp. unfold FW_group.
  eapply returns_group_get; [eassumption|].
  apply returns_for_each. intros q Hq.
  apply FW_param_other_returns; [by intros -> | done].
Qed.

(** The loops of a Frank-Wolfe step return when every group has a positive
    radius under ['kappa_l1'] and the oracle returns, and move a parameter
    that is listed once by its one visit. *)
Lemma FW_loops_at gs n p x g S group kappa s :
  listed_once gs → Forall FW_keys gs →
  group ∈ gs → p ∈ params group →
  hyper group !! "kappa_l1" = Some kappa → LMO g kappa = Ok s →
  returns (at_ gs n p (mkParam x (Some g)) S) (FW_loops LMO)
    (λ _, at_ gs n p
            (mkParam (t_add x (t_sub (t_scale (gamma_of n) s) (t_scale (gamma_of n) x)))
                     (Some g)) S).
Proof.
  intros Hnd Hkeys Hg Hp Hkey Hs.
  destruct (listed_once_split _ _ _ Hnd Hg Hp)
    as (gs1 & gs2 & l1 & l2 & Hgs & Hps & H1 & H2 & Hoth).
  subst gs. rewrite Forall_forall in Hkeys.
  assert (Hk : 0 < kappa).
  { destruct (Hkeys group Hg) as (kappa' & Hkey' & Hk). congruence. }
  unfold FW_loops. intros w Hw. rewrite bind_eq. unfold get_groups.
  rewrite (proj1 Hw). revert w Hw.
  apply returns_for_each_one.
  - intros g' Hg'. apply FW_group_other; [apply Hkeys | apply Hoth];
      rewrite ?elem_of_app, ?elem_of_cons; auto.
  - unfold FW_group. eapply returns_group_get; [eassumption|].
    rewrite Hps. apply returns_for_each_one.
    + intros q Hq. apply FW_param_other_returns; [by intros -> | done].
    + by apply FW_param_self.
    + intros q Hq. apply FW_param_other_returns; [by intros -> | done].
  - intros g' Hg'. apply FW_group_other; [apply Hkeys | apply Hoth];
      rewrite ?elem_of_app, ?elem_of_cons; auto.
Qed.

(** The update rule of the two Frank-Wolfe steps, for groups that carry
    their radius under ['kappa_l1']: the call returns, and a parameter with
    values [x] and gradient [g] ends at [x + gamma * (s - x)], with
    [gamma = 2 / (k + 2)] for the counter [k] at the call and [s] the point
    the oracle returns for [g] and the radius of the group. *)
Lemma FW_step_update (cl : option (closure_t Loss)) (w : world)
    (group : param_group) (p : pid) (x g s : tensor) (kappa : Qc) :
  listed_once (param_groups (self w)) → Forall FW_keys (param_groups (self w)) →
  group ∈ param_groups (self w) → p ∈ params group →
  hyper group !! "kappa_l1" = Some kappa → LMO g kappa = Ok s →
  heap (call_closure cl w).1 !!! p = mkParam x (Some g) →
  (FW_step LMO cl w).2 = Ok (closure_loss cl w)
  ∧ data (heap (FW_step LMO cl w).1 !!! p)
    = t_add x (t_scale (gamma_of (k (self w))) (t_sub s x))
  ∧ k (self (FW_step LMO cl w).1) = S (k (self w)).
Proof.
  intros Hnd Hkeys Hg Hp Hkey Hs Hx.
  pose proof (at_after_closure cl w p) as Hat. rewrite Hx in Hat.
  destruct (FW_loops_at _ _ _ _ _ _ _ _ _ Hnd Hkeys Hg Hp Hkey Hs _ Hat)
    as ([] & Hr & _ & Hk & HP & _).
  rewrite FW_step_eq.
  destruct (FW_loops LMO _) as [w' r]; simpl in *. subst r. simpl.
  by rewrite HP, Hk, FW_update_formula.
Qed.

End Update.

(** On the example: the oracle of the specification returns for every
    positive radius. *)
Lemma LMO_l1_returns (g : tensor) (kappa : Qc) :
  0 < kappa → ∃ s, LMO_l1 g kappa = Ok s.
Proof. intros Hk. unfold LMO_l1. rewrite decide_True by done. eauto. Qed.

Example SGDFWl1_step_update_example :
  (SGDFWl1_step (Loss := Qc) LMO_l1 None ex_fw_world).2 = Ok None
  ∧ data (heap (SGDFWl1_step (Loss := Qc) LMO_l1 None ex_fw_world).1 !!! 1%positive)
    = t_add [1; - 2; 0] (t_scale (gamma_of 0) (t_sub [- Qc_of_Z 4; 0; 0] [1; - 2; 0]))
  ∧ k (self (SGDFWl1_step (Loss := Qc) LMO_l1 None ex_fw_world).1) = 1%nat.
Proof.
  apply (FW_step_update (Loss := Qc) LMO_l1 LMO_l1_returns None ex_fw_world
           (mkGroup [1%positive; 2%positive]
              ({[ "kappa_l1" := Qc_of_Z 4 ]} ∪ {[ "kappa" := Qc_of_Z 4 ]}))
           1%positive [1; - 2; 0] [frac 1 2; frac 1 2; frac 1 2]
           [- Qc_of_Z 4; 0; 0] (Qc_of_Z 4)); try compute_done.
  repeat constructor. exists (Qc_of_Z 4). split; compute_done.
Qed.

(** ** An [SGDFWl1] as its constructor leaves it *)

Section Constructed.

Context {Loss : Type}.
Variable LMO : tensor → Qc → result tensor.

Lemma SGDFWl1_init_plain_inv (ps : list pid) (kappa_l1 : Qc) (o : optimizer) :
  SGDFWl1_init (Plain ps) kappa_l1 = Ok o →
  o = mkOptimizer {[ "kappa" := kappa_l1 ]}
        [mkGroup ps (∅ ∪ {[ "kappa" := kappa_l1 ]})] ∅ 0.
Proof.
  unfold SGDFWl1_init. case_decide; [|done].
  destruct ps as [|p ps]; simpl; [done|].
  unfold super_init, Optimizer_init. simpl after.
  rewrite add_param_groups_one. by intros [= <-].
Qed.

(** The constructor files the radius under ['kappa'], [step] looks it up
    under ['kappa_l1']: the first group raises [KeyError], after the closure
    and before any parameter. *)
Lemma SGDFWl1_plain_step (ps : list pid) (kappa_l1 : Qc) (o : optimizer)
    (cl : option (closure_t Loss)) (w : world) :
  SGDFWl1_init (Plain ps) kappa_l1 = Ok o → self w = o →
  SGDFWl1_step LMO cl w = ((call_closure cl w).1, Raise (KeyError "kappa_l1")).
Proof.
  intros Ho Hw. apply SGDFWl1_init_plain_inv in Ho.
  unfold SGDFWl1_step. rewrite FW_step_eq, call_closure_eq. simpl.
  unfold FW_loops. rewrite bind_eq. simpl. rewrite Hw, Ho. simpl.
  rewrite bind_eq. unfold FW_group. rewrite bind_eq. unfold group_get. simpl.
  by rewrite lookup_union, lookup_empty, lookup_singleton_ne.
Qed.

(** C1, where the code departs from it.  An [SGDFWl1] built from a plain
    list of parameters keeps its radius under ['kappa'] and has no
    ['kappa_l1']; every call to its [step] raises [KeyError('kappa_l1')] and
    leaves the heap as the closure left it: no parameter is updated. *)
Theorem SGDFWl1_constructed_step_raises (ps : list pid) (kappa_l1 : Qc) (o : optimizer)
    (cl : option (closure_t Loss)) (h : gmap pid Param) (l : list event) :
  SGDFWl1_init (Plain ps) kappa_l1 = Ok o →
  (∀ g, g ∈ param_groups o →
     hyper g !! "kappa" = Some kappa_l1 ∧ hyper g !! "kappa_l1" = None)
  ∧ (SGDFWl1_step LMO cl (mkWorld h o l)).2 = Raise (KeyError "kappa_l1")
  ∧ heap (SGDFWl1_step LMO cl (mkWorld h o l)).1
    = heap (call_closure cl (mkWorld h o l)).1.
Proof.
  intros Ho. rewrite (SGDFWl1_plain_step ps kappa_l1 o cl (mkWorld h o l) Ho eq_refl).
  split; [|done]. apply SGDFWl1_init_plain_inv in Ho as ->. simpl.
  intros g ->%list_elem_of_singleton. simpl.
  by rewrite !lookup_union, !lookup_empty, lookup_singleton_eq, lookup_singleton_ne.
Qed.

Lemma SGDFWl1_plain_run (ps : list pid) (kappa_l1 : Qc) (o : optimizer)
    (calls : list (call Loss)) (w : world) :
  SGDFWl1_init (Plain ps) kappa_l1 = Ok o → self w = o →
  self (run (SGDFWl1_step LMO) calls w).1 = o
  ∧ Forall (λ r, r = Raise (KeyError "kappa_l1")) (run (SGDFWl1_step LMO) calls w).2.
Proof.
  intros Ho. revert w. induction calls as [|c calls IH]; intros w Hw; simpl; [done|].
  rewrite (SGDFWl1_plain_step ps kappa_l1 o (c_closure c)
             (mkWorld (c_backward c (heap w)) (self w) (log w)) Ho Hw). simpl.
  destruct (IH (call_closure (c_closure c)
                  (mkWorld (c_backward c (heap w)) (self w) (log w))).1) as [IH1 IH2].
  { by rewrite call_closure_eq. }
  split; [done|]. by constructor.
Qed.

(** C3, where the code departs from it.  The counter of an [SGDFWl1] built
    from a plain list of parameters starts at 0 and is still 0 after any
    number of calls to [step]: every call raises before [self.k += 1]. *)
Theorem SGDFWl1_constructed_counter_stays (ps : list pid) (kappa_l1 : Qc) (o : optimizer)
    (calls : list (call Loss)) (h : gmap pid Param) (l : list event) :
  SGDFWl1_init (Plain ps) kappa_l1 = Ok o →
  k o = 0%nat
  ∧ k (self (run (SGDFWl1_step LMO) calls (mkWorld h o l)).1) = 0%nat
  ∧ Forall (λ r, r = Raise (KeyError "kappa_l1"))
      (run (SGDFWl1_step LMO) calls (mkWorld h o l)).2.
Proof.
  intros Ho. pose proof (SGDFWl1_init_k _ _ _ Ho) as Hk.
  destruct (SGDFWl1_plain_run ps kappa_l1 o calls (mkWorld h o l) Ho eq_refl) as [Hs Hr].
  by rewrite Hs.
Qed.

(** C9, where the code departs from it.  The closure is invoked once and
    first, as claimed, but on an optimizer built from a plain list of
    parameters its value is never returned: [SGDl1.step] raises
    [KeyError('momentum')] and [SGDFWl1.step] raises [KeyError('kappa_l1')]
    right after the closure ran (and [step] without a closure raises instead
    of returning [None]); an [SGDFWNuclear] is never built. *)
Theorem constructed_step_loses_closure_value (ps : list pid) (lr lambda_l1 kappa_l1 : Qc)
    (o1 o2 : optimizer) (cl : option (closure_t Loss)) (h : gmap pid Param)
    (l : list event) :
  SGDl1_init (Plain ps) lr lambda_l1 = Ok o1 →
  SGDFWl1_init (Plain ps) kappa_l1 = Ok o2 →
  (SGDl1_step cl (mkWorld h o1 l)).2 = Raise (KeyError "momentum")
  ∧ log (SGDl1_step cl (mkWorld h o1 l)).1 = l ++ from_option (λ _, [EvClosure]) [] cl
  ∧ (SGDFWl1_step LMO cl (mkWorld h o2 l)).2 = Raise (KeyError "kappa_l1")
  ∧ log (SGDFWl1_step LMO cl (mkWorld h o2 l)).1 = l ++ from_option (λ _, [EvClosure]) [] cl
  ∧ ∀ o3, SGDFWNuclear_init (Plain ps) kappa_l1 ≠ Ok o3.
Proof.
  intros Ho1 Ho2.
  rewrite (SGDl1_plain_step ps lr lambda_l1 o1 cl (mkWorld h o1 l) Ho1 eq_refl).
  rewrite (SGDFWl1_plain_step ps kappa_l1 o2 cl (mkWorld h o2 l) Ho2 eq_refl).
  rewrite !call_closure_eq. simpl. repeat split.
  intros o3. apply SGDFWNuclear_never_constructed.
Qed.

End Constructed.

Lemma ex_constructed_eq :
  SGDFWl1_init (Plain [1%positive; 2%positive]) (Qc_of_Z 4) = Ok ex_constructed.
Proof. apply SGDFWl1_init_plain; [done | compute_done]. Qed.

Lemma SGDFWl1_constructed_step_raises_witness :
  (∀ g, g ∈ param_groups ex_constructed →
     hyper g !! "kappa" = Some (Qc_of_Z 4) ∧ hyper g !! "kappa_l1" = None)
  ∧ (SGDFWl1_step (Loss := Qc) LMO_l1 None (mkWorld ex_heap ex_constructed [])).2
    = Raise (KeyError "kappa_l1")
  ∧ heap (SGDFWl1_step (Loss := Qc) LMO_l1 None (mkWorld ex_heap ex_constructed [])).1
    = heap (call_closure (Loss := Qc) None (mkWorld ex_heap ex_constructed [])).1.
Proof.
  apply (SGDFWl1_constructed_step_raises (Loss := Qc) LMO_l1
           [1%positive; 2%positive] (Qc_of_Z 4) ex_constructed None ex_heap []).
  exact ex_constructed_eq.
Defined.

(** In numbers: the first parameter keeps [1, -2, 0], where the update rule
    with step size [2 / (0 + 2)] and the vertex [-4, 0, 0] of the oracle
    would have moved it to [-4, 0, 0]. *)
Example SGDFWl1_constructed_step_values :
  data (heap (SGDFWl1_step (Loss := Qc) LMO_l1 None (mkWorld ex_heap ex_constructed [])).1
          !!! 1%positive) = [1; - 2; 0]
  ∧ LMO_l1 [frac 1 2; frac 1 2; frac 1 2] (Qc_of_Z 4) = Ok [- Qc_of_Z 4; 0; 0]
  ∧ t_add [1; - 2; 0] (t_scale (gamma_of 0) (t_sub [- Qc_of_Z 4; 0; 0] [1; - 2; 0]))
    = [- Qc_of_Z 4; 0; 0].
Proof. repeat split; compute_done. Qed.

Lemma SGDFWl1_constructed_counter_stays_witness :
  k ex_constructed = 0%nat
  ∧ k (self (run (SGDFWl1_step LMO_l1) (ex_calls ++ ex_calls)
               (mkWorld ex_heap ex_constructed [])).1) = 0%nat
  ∧ Forall (λ r, r = Raise (KeyError "kappa_l1"))
      (run (SGDFWl1_step LMO_l1) (ex_calls ++ ex_calls)
         (mkWorld ex_heap ex_constructed [])).2.
Proof.
  apply (SGDFWl1_constructed_counter_stays LMO_l1 [1%positive; 2%positive] (Qc_of_Z 4)
           ex_constructed (ex_calls ++ ex_calls) ex_heap []).
  exact ex_constructed_eq.
Defined.

Lemma constructed_step_loses_closure_value_witness :
  (SGDl1_step (Some ex_closure) (mkWorld ex_heap ex_sgd_constructed [])).2
  = Raise (KeyError "momentum")
  ∧ log (SGDl1_step (Some ex_closure) (mkWorld ex_heap ex_sgd_constructed [])).1
    = [] ++ [EvClosure]
  ∧ (SGDFWl1_step LMO_l1 (Some ex_closure) (mkWorld ex_heap ex_constructed [])).2
    = Raise (KeyError "kappa_l1")
  ∧ log (SGDFWl1_step LMO_l1 (Some ex_closure) (mkWorld ex_heap ex_constructed [])).1
    = [] ++ [EvClosure]
  ∧ ∀ o3, SGDFWNuclear_init (Plain [1%positive; 2%positive]) (Qc_of_Z 4) ≠ Ok o3.
Proof.
  apply (constructed_step_loses_closure_value LMO_l1 [1%positive; 2%positive]
           (frac 1 10) (frac 1 2) (Qc_of_Z 4) ex_sgd_constructed ex_constructed
           (Some ex_closure) ex_heap []).
  - apply SGDl1_init_plain; [done | compute_done].
  - exact ex_constructed_eq.
Defined.

(** C8 on the example: the second parameter has no gradient. *)
Lemma absent_gradient_skipped_witness :
  (heap (SGDl1_step (Loss := Qc) None (ex_sgd_world 1 ∅)).1 !!! 2%positive
     = heap (call_closure (Loss := Qc) None (ex_sgd_world 1 ∅)).1 !!! 2%positive
   ∧ state (self (SGDl1_step (Loss := Qc) None (ex_sgd_world 1 ∅)).1) !! 2%positive
     = state (self (ex_sgd_world 1 ∅)) !! 2%positive)
  ∧ (heap (SGDFWl1_step (Loss := Qc) LMO_l1 None (ex_sgd_world 1 ∅)).1 !!! 2%positive
       = heap (call_closure (Loss := Qc) None (ex_sgd_world 1 ∅)).1 !!! 2%positive
     ∧ state (self (SGDFWl1_step (Loss := Qc) LMO_l1 None (ex_sgd_world 1 ∅)).1) !! 2%positive
       = state (self (ex_sgd_world 1 ∅)) !! 2%positive)
  ∧ (heap (SGDFWNuclear_step (Loss := Qc) LMO_l1 None (ex_sgd_world 1 ∅)).1 !!! 2%positive
       = heap (call_closure (Loss := Qc) None (ex_sgd_world 1 ∅)).1 !!! 2%positive
     ∧ state (self (SGDFWNuclear_step (Loss := Qc) LMO_l1 None (ex_sgd_world 1 ∅)).1)
         !! 2%positive
       = state (self (ex_sgd_world 1 ∅)) !! 2%positive)
  ∧ ∀ group lam mu delta kappa v,
      grad (heap v !!! 2%positive) = None →
      (SGDl1_param group lam mu delta 2%positive v).2 = Ok ()
      ∧ (FW_param LMO_l1 kappa 2%positive v).2 = Ok ()
      ∧ (FW_param LMO_l1 kappa 2%positive v).2 = Ok ().
Proof.
  apply (absent_gradient_skipped (Loss := Qc) LMO_l1 LMO_l1 None (ex_sgd_world 1 ∅) 2%positive).
  compute_done.
Defined.

(** C9 on the example: the closure runs first and once, the two parameters
    are visited after it, on the gradient it stored, and [step] returns its
    value; without a closure [step] returns [None]. *)
Example closure_passed_through_values :
  SGDl1_step (Some ex_closure) (ex_sgd_world 0 ∅)
  = ((SGDl1_step (Loss := Qc) None
        (mkWorld (set_gradient 1%positive [1; 1; 1] ex_heap)
           (self (ex_sgd_world 0 ∅)) [EvClosure])).1,
     Ok (Some (Qc_of_Z 7)))
  ∧ log (SGDl1_step (Some ex_closure) (ex_sgd_world 0 ∅)).1
    = [EvClosure; EvVisit 1%positive; EvVisit 2%positive]
  ∧ (SGDl1_step (Loss := Qc) None (ex_sgd_world 0 ∅)).2 = Ok None
  ∧ (SGDFWl1_step LMO_l1 (Some ex_closure) ex_fw_world).2 = Ok (Some (Qc_of_Z 7))
  ∧ log (SGDFWl1_step LMO_l1 (Some ex_closure) ex_fw_world).1
    = [EvClosure; EvVisit 1%positive; EvVisit 2%positive].
Proof. repeat split; compute_done. Qed.

(** C7 on the example, with momentum: the gradient of the first parameter
    ends as [g + lambda * sign(x)]. *)
Lemma gradients_after_step_witness :
  grad (heap (SGDl1_step (Loss := Qc) None (ex_sgd_world 1 ∅)).1 !!! 1%positive)
  = Some (t_add [frac 1 2; frac 1 2; frac 1 2] (t_scale (frac 1 2) (t_sign [1; - 2; 0]))).
Proof.
  apply (proj2 (proj2 (proj2
           (gradients_after_step (Loss := Qc) LMO_l1 LMO_l1 None (ex_sgd_world 1 ∅))))
           (ex_sgd_group 1) 1%positive [1; - 2; 0] [frac 1 2; frac 1 2; frac 1 2] (frac 1 2));
    compute_done.
Defined.

(** * Further properties of the [step] methods *)

(** ** When [step] returns *)

Lemma returns_for_each_acc {A} (I : list A → world → Prop) (body : A → M unit)
    (xs pre : list A) :
  (∀ x pre', x ∈ xs → returns (I pre') (body x) (λ _, I (pre' ++ [x]))) →
  returns (I pre) (for_each body xs) (λ _, I (pre ++ xs)).
Proof.
  revert pre. induction xs as [|x xs IH]; intros pre Hb; simpl.
  - rewrite app_nil_r. apply returns_ret.
  - eapply returns_bind; [apply Hb; left|]. intros ?.
    replace (pre ++ x :: xs) with ((pre ++ [x]) ++ xs) by (by rewrite <- app_assoc).
    apply IH. intros y pre' Hy. apply Hb. by right.
Qed.

Section Returning.

Context {Loss : Type}.
Variable LMO : tensor → Qc → result tensor.
Hypothesis LMO_returns : ∀ g kappa, 0 < kappa → ∃ s, LMO g kappa = Ok s.

Lemma SGDl1_param_returns group lam mu delta q w :
  is_Some (hyper group !! "lr") →
  (SGDl1_param group lam mu delta q w).2 = Ok ().
Proof.
  intros [lr Hlr]. unfold SGDl1_param. unfold_M. simpl. rewrite Hlr.
  by repeat case_match.
Qed.

Lemma FW_param_returns kappa q w :
  0 < kappa → (FW_param LMO kappa q w).2 = Ok ().
Proof.
  intros Hk. unfold FW_param. unfold_M. simpl.
  destruct (grad (heap w !!! q)) as [g|]; simpl; [|done].
  by destruct (LMO_returns g kappa Hk) as [s ->].
Qed.

Lemma SGDl1_param_visit gs n l0 vis group lam mu delta q :
  is_Some (hyper group !! "lr") →
  returns (visited_ gs n l0 vis) (SGDl1_param group lam mu delta q)
    (λ _, visited_ gs n l0 (vis ++ [q])).
Proof.
  intros Hlr w (Hg & Hk & Hl). exists (). split; [by apply SGDl1_param_returns|].
  destruct (SGDl1_param_footprint group lam mu delta q w) as (Hg' & Hk' & Hlog & _).
  split; [congruence|]. split; [congruence|].
  by rewrite Hlog, Hl, fmap_app, <- app_assoc.
Qed.

Lemma FW_param_visit gs n l0 vis kappa q :
  0 < kappa →
  returns (visited_ gs n l0 vis) (FW_param LMO kappa q)
    (λ _, visited_ gs n l0 (vis ++ [q])).
Proof.
  intros Hkap w (Hg & Hk & Hl). exists (). split; [by apply FW_param_returns|].
  destruct (FW_param_footprint LMO kappa q w) as (Hs & Hlog & _).
  unfold visited_. rewrite Hs. split; [done|]. split; [done|].
  by rewrite Hlog, Hl, fmap_app, <- app_assoc.
Qed.

Lemma SGDl1_group_visit gs n l0 vis group :
  SGDl1_keys group →
  returns (visited_ gs n l0 vis) (SGDl1_group group)
    (λ _, visited_ gs n l0 (vis ++ params group)).
Proof.
  intros ([lam Hl] & [mu Hm] & [delta Hd] & Hlr). unfold SGDl1_group.
  do 3 (eapply returns_group_get; [eassumption|]).
  apply (returns_for_each_acc (λ pre, visited_ gs n l0 pre)).
  intros q pre _. by apply SGDl1_param_visit.
Qed.

Lemma FW_group_visit gs n l0 vis group :
  FW_keys group →
  returns (visited_ gs n l0 vis) (FW_group LMO group)
    (λ _, visited_ gs n l0 (vis ++ params group)).
Proof.
  intros (kappa & Hkey & Hk). unfold FW_group.
  eapply returns_group_get; [eassumption|].
  apply (returns_for_each_acc (λ pre, visited_ gs n l0 pre)).
  intros q pre _. by apply FW_param_visit.
Qed.

Lemma groups_visit (body : param_group → M unit) gs n l0 (gs' : list param_group) :
  (∀ g vis, g ∈ gs' →
     returns (visited_ gs n l0 vis) (body g) (λ _, visited_ gs n l0 (vis ++ params g))) →
  returns (visited_ gs n l0 []) (for_each body gs')
    (λ _, visited_ gs n l0 (gs' ≫= params)).
Proof.
  intros Hb w Hw.
  refine (returns_for_each_acc (λ pre, visited_ gs n l0 (pre ≫= params)) body gs' [] _ w Hw).
  intros g pre Hg. rewrite bind_app. simpl. rewrite app_nil_r. by apply Hb.
Qed.

Lemma visited_after_closure (cl : option (closure_t Loss)) (w : world) :
  visited_ (param_groups (self w)) (k (self w)) (log (call_closure cl w).1) []
    (call_closure cl w).1.
Proof. rewrite call_closure_eq. simpl. repeat split. by rewrite app_nil_r. Qed.

(** X1. [SGDl1.step] returns normally whenever every group defines the four
    hyperparameters it reads; it then returns the value of the closure
    ([None] without one), and after the closure it visits every listed
    parameter once, group by group in the order of the lists. *)
Theorem SGDl1_step_returns (cl : option (closure_t Loss)) (w : world) :
  Forall SGDl1_keys (param_groups (self w)) →
  (SGDl1_step cl w).2 = Ok ((λ c, (c (heap w)).2) <$> cl)
  ∧ log (SGDl1_step cl w).1
    = log w ++ from_option (λ _, [EvClosure]) [] cl
        ++ (EvVisit <$> (param_groups (self w) ≫= params))
  ∧ param_groups (self (SGDl1_step cl w).1) = param_groups (self w).
Proof.
  intros Hkeys. rewrite Forall_forall in Hkeys.
  pose proof (visited_after_closure cl w) as Hv.
  assert (Hl : returns (visited_ (param_groups (self w)) (k (self w))
                          (log (call_closure cl w).1) [])
                 SGDl1_loops
                 (λ _, visited_ (param_groups (self w)) (k (self w))
                         (log (call_closure cl w).1) (param_groups (self w) ≫= params))).
  { intros v Hv'. unfold SGDl1_loops. rewrite bind_eq. unfold get_groups.
    rewrite (proj1 Hv'). revert v Hv'. apply groups_visit.
    intros g vis Hg. apply SGDl1_group_visit. by apply Hkeys. }
  destruct (Hl _ Hv) as ([] & Hr & Hg & _ & Hlog).
  rewrite SGDl1_step_eq.
  destruct (SGDl1_loops _) as [w' r]; simpl in *. subst r. simpl.
  split; [done|]. split; [|done].
  rewrite Hlog, call_closure_eq. simpl. by rewrite <- app_assoc.
Qed.

(** X2. [SGDFWl1.step] and [SGDFWNuclear.step] return normally whenever
    every group carries a positive radius under ['kappa_l1'] and the oracle
    returns for positive radii; they then return the value of the closure,
    have visited every listed parameter once and in order, and have
    incremented the counter by one. *)
Theorem FW_step_returns (cl : option (closure_t Loss)) (w : world) :
  Forall FW_keys (param_groups (self w)) →
  (SGDFWl1_step LMO cl w).2 = Ok ((λ c, (c (heap w)).2) <$> cl)
  ∧ log (SGDFWl1_step LMO cl w).1
    = log w ++ from_option (λ _, [EvClosure]) [] cl
        ++ (EvVisit <$> (param_groups (self w) ≫= params))
  ∧ k (self (SGDFWl1_step LMO cl w).1) = S (k (self w))
  ∧ SGDFWNuclear_step LMO cl w = SGDFWl1_step LMO cl w.
Proof.
  intros Hkeys. rewrite Forall_forall in Hkeys.
  pose proof (visited_after_closure cl w) as Hv.
  assert (Hl : returns (visited_ (param_groups (self w)) (k (self w))
                          (log (call_closure cl w).1) [])
                 (FW_loops LMO)
                 (λ _, visited_ (param_groups (self w)) (k (self w))
                         (log (call_closure cl w).1) (param_groups (self w) ≫= params))).
  { intros v Hv'. unfold FW_loops. rewrite bind_eq. unfold get_groups.
    rewrite (proj1 Hv'). revert v Hv'. apply groups_visit.
    intros g vis Hg. apply FW_group_visit. by apply Hkeys. }
  destruct (Hl _ Hv) as ([] & Hr & Hg & Hk & Hlog).
  split; [|split; [|split; [|done]]]; unfold SGDFWl1_step; rewrite FW_step_eq;
    destruct (FW_loops LMO _) as [w' r]; simpl in *; subst r; simpl.
  - done.
  - rewrite Hlog, call_closure_eq. simpl. by rewrite <- app_assoc.
  - by rewrite Hk.
Qed.

End Returning.

(** ** The update of the Frank-Wolfe steps and their counter *)

Section FrankWolfe.

Context {Loss : Type}.
Variable LMO : tensor → Qc → result tensor.

(** X3. The update rule of [SGDFWl1.step] and [SGDFWNuclear.step], for
    groups that carry a positive radius under ['kappa_l1'] and an oracle that
    returns for positive radii: a parameter that is listed once, with values
    [x] and gradient [g], ends at [x + gamma * (s - x)], where
    [gamma = 2 / (k + 2)] for the counter [k] at the call and [s] is what the
    oracle returns for [g] and the radius of the group; its gradient stays
    [g]. *)
Theorem Frank_Wolfe_update (cl : option (closure_t Loss)) (w : world)
    (group : param_group) (p : pid) (x g s : tensor) (kappa : Qc) :
  (∀ g' kappa', 0 < kappa' → ∃ s', LMO g' kappa' = Ok s') →
  listed_once (param_groups (self w)) → Forall FW_keys (param_groups (self w)) →
  group ∈ param_groups (self w) → p ∈ params group →
  hyper group !! "kappa_l1" = Some kappa → LMO g kappa = Ok s →
  heap (call_closure cl w).1 !!! p = mkParam x (Some g) →
  heap (SGDFWl1_step LMO cl w).1 !!! p
  = mkParam (t_add x (t_scale (gamma_of (k (self w))) (t_sub s x))) (Some g)
  ∧ heap (SGDFWNuclear_step LMO cl w).1 !!! p
    = mkParam (t_add x (t_scale (gamma_of (k (self w))) (t_sub s x))) (Some g).
Proof.
  intros Hret Hnd Hkeys Hg Hp Hkey Hs Hx.
  assert (H : heap (FW_step LMO cl w).1 !!! p
              = mkParam (t_add x (t_scale (gamma_of (k (self w))) (t_sub s x))) (Some g)).
  { destruct (FW_step_update LMO Hret cl w group p x g s kappa Hnd Hkeys Hg Hp Hkey Hs Hx)
      as (_ & Hd & _).
    destruct (FW_step_frame LMO cl w) as [Hgr _].
    apply Param_eq; simpl; [done|]. by rewrite Hgr, Hx. }
  by split.
Qed.

(** X4. Over any sequence of calls, to [SGDFWl1.step] or to
    [SGDFWNuclear.step], the counter [k] grows by exactly the number of
    calls that returned: a call that raises leaves it as it was, a call that
    returns adds one, whatever the groups and the parameters. *)
Theorem counter_counts_returning_calls (calls : list (call Loss)) (w : world) :
  k (self (run (SGDFWl1_step LMO) calls w).1)
  = (k (self w) + returned (run (SGDFWl1_step LMO) calls w).2)%nat
  ∧ k (self (run (SGDFWNuclear_step LMO) calls w).1)
    = (k (self w) + returned (run (SGDFWNuclear_step LMO) calls w).2)%nat.
Proof. split; apply FW_run_counter. Qed.

(** X5. The Frank-Wolfe steps keep no state of their own: a call leaves
    [self.state], [self.param_groups] and [self.defaults] as they were,
    whether it returns or raises. *)
Theorem Frank_Wolfe_keeps_no_state (cl : option (closure_t Loss)) (w : world) :
  (state (self (SGDFWl1_step LMO cl w).1) = state (self w)
   ∧ param_groups (self (SGDFWl1_step LMO cl w).1) = param_groups (self w)
   ∧ defaults (self (SGDFWl1_step LMO cl w).1) = defaults (self w))
  ∧ (state (self (SGDFWNuclear_step LMO cl w).1) = state (self w)
     ∧ param_groups (self (SGDFWNuclear_step LMO cl w).1) = param_groups (self w)
     ∧ defaults (self (SGDFWNuclear_step LMO cl w).1) = defaults (self w)).
Proof.
  assert (H : self (FW_loops LMO (call_closure cl w).1).1 = self w).
  { set (w1 := (call_closure cl w).1).
    assert (Hfr : FW_frame (self w1) (λ i, grad (heap w1 !!! i)) (log w1) w1).
    { repeat split. exists []. by rewrite app_nil_r. }
    apply (FW_loops_frame LMO) in Hfr. destruct Hfr as (-> & _).
    unfold w1. by rewrite call_closure_eq. }
  assert (H' : state (self (FW_step LMO cl w).1) = state (self w)
               ∧ param_groups (self (FW_step LMO cl w).1) = param_groups (self w)
               ∧ defaults (self (FW_step LMO cl w).1) = defaults (self w)).
  { rewrite FW_step_eq.
    destruct (FW_loops LMO _) as [w' [[]|e]]; simpl in *; by rewrite H. }
  by split.
Qed.

End FrankWolfe.

(** ** What [SGDl1.step] does to the optimizer *)

Section SGDl1_state.

Context {Loss : Type}.

Lemma SGDl1_param_buffer group lam mu delta q w i :
  is_Some (momentum_buffer w i) →
  is_Some (momentum_buffer (SGDl1_param group lam mu delta q w).1 i).
Proof.
  intros Hb. destruct (decide (i = q)) as [->|Hne].
  - unfold momentum_buffer in *. unfold SGDl1_param. unfold_M. simpl.
    destruct (state (self w) !! q) as [d|] eqn:HS; simpl in Hb; [|by destruct Hb].
    repeat case_match; simplify_eq/=; rewrite ?HS; simpl; try done;
      rewrite ?lookup_insert_eq; simpl; rewrite ?lookup_insert_eq; eauto.
  - destruct (SGDl1_param_footprint group lam mu delta q w) as (_ & _ & _ & Hoth & _).
    unfold momentum_buffer in *. by rewrite (proj2 (Hoth i Hne)).
Qed.

Lemma SGDl1_step_buffer (cl : option (closure_t Loss)) (w : world) (p : pid) :
  is_Some (momentum_buffer w p) →
  is_Some (momentum_buffer (SGDl1_step cl w).1 p).
Proof.
  intros Hb.
  assert (H1 : is_Some (momentum_buffer (call_closure cl w).1 p)).
  { by rewrite call_closure_eq. }
  assert (H2 : keeps (λ v, is_Some (momentum_buffer v p)) SGDl1_loops).
  { unfold SGDl1_loops. apply keeps_bind; [by intros v|]. intros gs.
    apply keeps_for_each. intros g _. unfold SGDl1_group.
    do 3 (apply keeps_group_get; intros ? _).
    apply keeps_for_each. intros q _ u Hu. by apply SGDl1_param_buffer. }
  apply H2 in H1. rewrite SGDl1_step_eq.
  by destruct (SGDl1_loops _) as [w' [[]|e]].
Qed.

(** X6. The momentum buffer of a parameter is created once and never
    dropped: over any sequence of calls to [SGDl1.step], returning or
    raising, a parameter that has a buffer in [self.state] still has one
    afterwards. *)
Theorem momentum_buffer_persists (calls : list (call Loss)) (w : world) (p : pid) :
  is_Some (momentum_buffer w p) →
  is_Some (momentum_buffer (run SGDl1_step calls w).1 p).
Proof.
  revert w. induction calls as [|c calls IH]; intros w Hb; simpl; [done|].
  apply IH. by apply SGDl1_step_buffer.
Qed.

Lemma SGDl1_param_no_momentum (o : optimizer) group lam delta q :
  keeps (λ v, self v = o) (SGDl1_param group lam 0 delta q).
Proof.
  intros v Hv. unfold SGDl1_param. unfold_M. simpl.
  by repeat case_match; simplify_eq/=.
Qed.

(** X7. Without momentum [SGDl1.step] keeps no state: when no group has a
    momentum other than 0, a call leaves every attribute of the optimizer
    ([self.state] included) as it was, whether it returns or raises. *)
Theorem SGDl1_without_momentum_keeps_no_state (cl : option (closure_t Loss)) (w : world) :
  (∀ g mu, g ∈ param_groups (self w) → hyper g !! "momentum" = Some mu → mu = 0) →
  self (SGDl1_step cl w).1 = self w.
Proof.
  intros Hmu.
  assert (H1 : self (call_closure cl w).1 = self w) by (by rewrite call_closure_eq).
  assert (H2 : self (SGDl1_loops (call_closure cl w).1).1 = self w).
  { revert H1. generalize (call_closure cl w).1. intros v Hv.
    unfold SGDl1_loops. rewrite bind_eq. unfold get_groups. rewrite Hv.
    revert v Hv. apply (keeps_for_each (λ v, self v = self w)).
    intros g Hg. unfold SGDl1_group.
    apply keeps_group_get; intros lam _.
    apply keeps_group_get; intros mu Hm.
    apply keeps_group_get; intros delta _.
    rewrite (Hmu g mu Hg Hm).
    apply keeps_for_each. intros q _. apply SGDl1_param_no_momentum. }
  rewrite SGDl1_step_eq.
  by destruct (SGDl1_loops _) as [w' [[]|e]].
Qed.

End SGDl1_state.

(** ** Parameters the optimizer does not move *)

Section Frames.

Context {Loss : Type}.
Variable LMO : tensor → Qc → result tensor.

(** X8. An [SGDl1] built from a plain list of parameters never takes a step:
    over any sequence of calls every call raises [KeyError('momentum')], the
    optimizer stays as constructed, and (with a model and closures that leave
    the values alone) every parameter keeps its values; no parameter is
    visited, the calls raise before. *)
Theorem SGDl1_constructed_never_steps (ps : list pid) (lr lambda_l1 : Qc) (o : optimizer)
    (calls : list (call Loss)) (h : gmap pid Param) (l : list event) :
  SGDl1_init (Plain ps) lr lambda_l1 = Ok o →
  Forall call_keeps_values calls →
  Forall (λ r, r = Raise (KeyError "momentum")) (run SGDl1_step calls (mkWorld h o l)).2
  ∧ self (run SGDl1_step calls (mkWorld h o l)).1 = o
  ∧ (∀ i, data (heap (run SGDl1_step calls (mkWorld h o l)).1 !!! i) = data (h !!! i))
  ∧ ∀ p, EvVisit p ∈ log (run SGDl1_step calls (mkWorld h o l)).1 → EvVisit p ∈ l.
Proof.
  intros Ho Hcalls. revert h l.
  induction Hcalls as [|c calls [Hb Hc] _ IH]; intros h l; simpl; [done|].
  rewrite (SGDl1_plain_step ps lr lambda_l1 o (c_closure c)
             (mkWorld (c_backward c h) o l) Ho eq_refl).
  rewrite call_closure_eq. simpl.
  destruct (IH (from_option (λ c0, (c0 (c_backward c h)).1) (c_backward c h) (c_closure c))
              (l ++ from_option (λ _, [EvClosure]) [] (c_closure c)))
    as (IH1 & IH2 & IH3 & IH4).
  split; [by constructor|]. split; [done|]. split.
  - intros i. rewrite IH3.
    destruct (c_closure c) as [cl|]; simpl; [|by apply Hb].
    rewrite (Hc cl eq_refl). by apply Hb.
  - intros p Hp. apply IH4, elem_of_app in Hp as [Hp|Hp]; [done|].
    destruct (c_closure c); simpl in Hp; [|by apply elem_of_nil in Hp].
    by apply list_elem_of_singleton in Hp.
Qed.

Lemma SGDl1_loops_unlisted gs p P S :
  p ∉ gs ≫= params →
  keeps (λ v, param_groups (self v) = gs ∧ untouched p P S v) SGDl1_loops.
Proof.
  intros Hp v Hv. unfold SGDl1_loops. rewrite bind_eq. unfold get_groups.
  rewrite (proj1 Hv). revert v Hv.
  apply (keeps_for_each (λ v, param_groups (self v) = gs ∧ untouched p P S v)).
  intros g Hg. unfold SGDl1_group.
  apply keeps_group_get; intros lam _.
  apply keeps_group_get; intros mu _.
  apply keeps_group_get; intros delta _.
  apply keeps_for_each. intros q Hq v (Hgs & Hh & Hs).
  assert (Hne : p ≠ q).
  { intros ->. apply Hp, list_elem_of_bind. eauto. }
  destruct (SGDl1_param_footprint g lam mu delta q v) as (Hgs' & _ & _ & Hoth & _).
  unfold untouched.
  by rewrite Hgs', (proj1 (Hoth p Hne)), (proj2 (Hoth p Hne)).
Qed.

Lemma FW_loops_unlisted gs p P S :
  p ∉ gs ≫= params →
  keeps (λ v, param_groups (self v) = gs ∧ untouched p P S v) (FW_loops LMO).
Proof.
  intros Hp v Hv. unfold FW_loops. rewrite bind_eq. unfold get_groups.
  rewrite (proj1 Hv). revert v Hv.
  apply (keeps_for_each (λ v, param_groups (self v) = gs ∧ untouched p P S v)).
  intros g Hg. unfold FW_group. apply keeps_group_get; intros kappa _.
  apply keeps_for_each. intros q Hq v (Hgs & Hh & Hs).
  assert (Hne : p ≠ q).
  { intros ->. apply Hp, list_elem_of_bind. eauto. }
  destruct (FW_param_footprint LMO kappa q v) as (Hself & _).
  unfold untouched. rewrite Hself, FW_param_unchanged by auto. done.
Qed.

(** X9. The three [step] methods touch only the parameters their groups
    list: a parameter that is in no group keeps its values, its gradient and
    its entry in [self.state] through a call, whether the call returns or
    raises. *)
Theorem unlisted_parameter_untouched (cl : option (closure_t Loss)) (w : world) (p : pid) :
  p ∉ param_groups (self w) ≫= params →
  (heap (SGDl1_step cl w).1 !!! p = heap (call_closure cl w).1 !!! p
   ∧ state (self (SGDl1_step cl w).1) !! p = state (self w) !! p)
  ∧ (heap (SGDFWl1_step LMO cl w).1 !!! p = heap (call_closure cl w).1 !!! p
     ∧ state (self (SGDFWl1_step LMO cl w).1) !! p = state (self w) !! p)
  ∧ (heap (SGDFWNuclear_step LMO cl w).1 !!! p = heap (call_closure cl w).1 !!! p
     ∧ state (self (SGDFWNuclear_step LMO cl w).1) !! p = state (self w) !! p).
Proof.
  intros Hp. set (w1 := (call_closure cl w).1).
  assert (Hun : param_groups (self w1) = param_groups (self w)
                ∧ untouched p (heap w1 !!! p) (state (self w) !! p) w1).
  { unfold w1. rewrite call_closure_eq. by repeat split. }
  assert (HFW : heap (FW_step LMO cl w).1 !!! p = heap w1 !!! p
                ∧ state (self (FW_step LMO cl w).1) !! p = state (self w) !! p).
  { apply (FW_loops_unlisted _ _ _ _ Hp) in Hun. rewrite FW_step_eq. fold w1.
    destruct (FW_loops LMO w1) as [w' [[]|e]]; apply Hun. }
  split; [|by split].
  apply (SGDl1_loops_unlisted _ _ _ _ Hp) in Hun. rewrite SGDl1_step_eq. fold w1.
  destruct (SGDl1_loops w1) as [w' [[]|e]]; apply Hun.
Qed.

End Frames.

(** ** A step that raises half-way *)

Lemma for_each_app {A} (body : A → M unit) (xs ys : list A) (w : world) :
  for_each body (xs ++ ys) w
  = match for_each body xs w with
    | (w', Ok _) => for_each body ys w'
    | (w', Raise e) => (w', Raise e)
    end.
Proof.
  revert w. induction xs as [|x xs IH]; intros w; simpl; [done|].
  rewrite !bind_eq. destruct (body x w) as [w' [[]|e]]; [apply IH | done].
Qed.

Section Partial.

Context {Loss : Type}.
Variable LMO : tensor → Qc → result tensor.
Hypothesis LMO_returns : ∀ g kappa, 0 < kappa → ∃ s, LMO g kappa = Ok s.

(** The loop over some groups [gs], in an optimizer of groups [gs']. *)
Lemma FW_groups_at gs' gs n p x g S group kappa s :
  listed_once gs → Forall FW_keys gs →
  group ∈ gs → p ∈ params group →
  hyper group !! "kappa_l1" = Some kappa → LMO g kappa = Ok s →
  returns (at_ gs' n p (mkParam x (Some g)) S) (for_each (FW_group LMO) gs)
    (λ _, at_ gs' n p
            (mkParam (t_add x (t_sub (t_scale (gamma_of n) s) (t_scale (gamma_of n) x)))
                     (Some g)) S).
Proof.
  intros Hnd Hkeys Hg Hp Hkey Hs.
  destruct (listed_once_split _ _ _ Hnd Hg Hp)
    as (gs1 & gs2 & l1 & l2 & Hgs & Hps & H1 & H2 & Hoth).
  subst gs. rewrite Forall_forall in Hkeys.
  assert (Hk : 0 < kappa).
  { destruct (Hkeys group Hg) as (kappa' & Hkey' & Hk). congruence. }
  apply returns_for_each_one.
  - intros g' Hg'. apply FW_group_other; [done | apply Hkeys | apply Hoth];
      rewrite ?elem_of_app, ?elem_of_cons; auto.
  - unfold FW_group. eapply returns_group_get; [eassumption|].
    rewrite Hps. apply returns_for_each_one.
    + intros q Hq. apply FW_param_other_returns; [done | by intros -> | done].
    + by apply FW_param_self.
    + intros q Hq. apply FW_param_other_returns; [done | by intros -> | done].
  - intros g' Hg'. apply FW_group_other; [done | apply Hkeys | apply Hoth];
      rewrite ?elem_of_app, ?elem_of_cons; auto.
Qed.

(** X12. The Frank-Wolfe steps are not atomic.  When a group lacks the key
    ['kappa_l1'] the call raises [KeyError('kappa_l1')] at that group, but
    the parameters of the groups before it have already been moved by the
    update rule; the counter is not advanced, so the next call uses the
    same step size again. *)
Theorem failed_step_keeps_earlier_updates (cl : option (closure_t Loss)) (w : world)
    (pre : list param_group) (bad : param_group) (post : list param_group)
    (group : param_group) (p : pid) (x g s : tensor) (kappa : Qc) :
  param_groups (self w) = pre ++ bad :: post →
  listed_once pre → Forall FW_keys pre →
  hyper bad !! "kappa_l1" = None →
  group ∈ pre → p ∈ params group →
  hyper group !! "kappa_l1" = Some kappa → LMO g kappa = Ok s →
  heap (call_closure cl w).1 !!! p = mkParam x (Some g) →
  (SGDFWl1_step LMO cl w).2 = Raise (KeyError "kappa_l1")
  ∧ data (heap (SGDFWl1_step LMO cl w).1 !!! p)
    = t_add x (t_scale (gamma_of (k (self w))) (t_sub s x))
  ∧ k (self (SGDFWl1_step LMO cl w).1) = k (self w)
  ∧ SGDFWNuclear_step LMO cl w = SGDFWl1_step LMO cl w.
Proof.
  intros Hgs Hnd Hkeys Hbad Hg Hp Hkey Hs Hx.
  pose proof (at_after_closure cl w p) as Hat. rewrite Hx in Hat.
  assert (Hloops : ∃ w', FW_loops LMO (call_closure cl w).1
                         = (w', Raise (KeyError "kappa_l1"))
                         ∧ k (self w') = k (self w)
                         ∧ heap w' !!! p
                           = mkParam (t_add x (t_sub (t_scale (gamma_of (k (self w))) s)
                                                 (t_scale (gamma_of (k (self w))) x)))
                                     (Some g)).
  { unfold FW_loops. rewrite bind_eq. unfold get_groups. rewrite (proj1 Hat), Hgs.
    rewrite for_each_app.
    destruct (FW_groups_at (param_groups (self w)) pre _ _ _ _ _ _ _ _
                Hnd Hkeys Hg Hp Hkey Hs _ Hat) as ([] & Hr & _ & Hk & HP & _).
    destruct (for_each (FW_group LMO) pre _) as [w' r]. simpl in Hr, Hk, HP. subst r.
    exists w'. split; [|done].
    change (for_each (FW_group LMO) (bad :: post) w')
      with ((FW_group LMO bad ≫= λ _, for_each (FW_group LMO) post) w').
    rewrite bind_eq. unfold FW_group. rewrite bind_eq. unfold group_get.
    by rewrite Hbad. }
  destruct Hloops as (w' & Hl & Hk & HP).
  unfold SGDFWNuclear_step, SGDFWl1_step. rewrite FW_step_eq, Hl. simpl.
  rewrite HP, FW_update_formula. done.
Qed.

End Partial.

(** ** Two steps on one gradient *)

Section Accumulation.

Context {Loss : Type}.

(** X13. [SGDl1.step] leaves the penalty in the gradient, and the next step
    adds to it: two calls without a backward pass between them (and without
    momentum) use in the second call the gradient
    [g + lambda * sign(x) + lambda * sign(x1)], where [x1] are the values
    after the first call, not [g + lambda * sign(x1)]. *)
Theorem penalty_accumulates_without_backward (w : world)
    (group : param_group) (p : pid) (x g : tensor) (lam lr : Qc) :
  listed_once (param_groups (self w)) →
  Forall SGDl1_keys (param_groups (self w)) →
  group ∈ param_groups (self w) → p ∈ params group →
  hyper group !! "l1" = Some lam → hyper group !! "momentum" = Some 0 →
  hyper group !! "lr" = Some lr →
  heap w !!! p = mkParam x (Some g) →
  let w1 := (SGDl1_step (Loss := Loss) None w).1 in
  let x1 := t_sub x (t_scale lr (t_add g (t_scale lam (t_sign x)))) in
  let g2 := t_add (t_add g (t_scale lam (t_sign x))) (t_scale lam (t_sign x1)) in
  let w2 := (SGDl1_step (Loss := Loss) None w1).1 in
  data (heap w1 !!! p) = x1
  ∧ (SGDl1_step (Loss := Loss) None w1).2 = Ok None
  ∧ grad (heap w2 !!! p) = Some g2
  ∧ data (heap w2 !!! p) = t_sub x1 (t_scale lr g2).
Proof.
  intros Hnd Hkeys Hg Hp Hl Hm Hlr Hx w1 x1 g2 w2.
  assert (Hd : is_Some (hyper group !! "dampening")).
  { rewrite Forall_forall in Hkeys. apply (Hkeys group Hg). }
  destruct Hd as [delta Hd].
  pose proof (at_after_closure (Loss := Loss) None w p) as Hat.
  change (heap (call_closure None w).1 !!! p) with (heap w !!! p) in Hat.
  rewrite Hx in Hat.
  destruct (SGDl1_step_at None w _ _ _ _ _ _ _ _ _ _ Hnd Hkeys Hg Hp Hl Hm Hd Hat
              (SGDl1_param_plain _ _ _ _ _ _ _ _ _ _ Hlr))
    as (_ & Hgs & _ & HP & _).
  fold w1 in Hgs, HP.
  rewrite t_add_scaled_neg, !t_add_scaled_eq in HP. fold x1 in HP.
  pose proof (at_after_closure (Loss := Loss) None w1 p) as Hat1.
  change (heap (call_closure None w1).1 !!! p) with (heap w1 !!! p) in Hat1.
  rewrite HP in Hat1. rewrite <- Hgs in Hnd, Hkeys, Hg.
  destruct (SGDl1_step_at None w1 _ _ _ _ _ _ _ _ _ _ Hnd Hkeys Hg Hp Hl Hm Hd Hat1
              (SGDl1_param_plain _ _ _ _ _ _ _ _ _ _ Hlr))
    as (Hr & _ & _ & HP2 & _).
  fold w2 in HP2.
  rewrite t_add_scaled_neg, !t_add_scaled_eq in HP2. fold g2 in HP2.
  split; [by rewrite HP|]. split; [done|]. by rewrite HP2.
Qed.

End Accumulation.

(** ** What the Frank-Wolfe steps read of the optimizer *)

Lemma for_each_with (T : world → world) {A} (body body' : A → M unit)
    (xs : list A) (w : world) :
  (∀ x v, x ∈ xs → body' x (T v) = (T (body x v).1, (body x v).2)) →
  for_each body' xs (T w) = (T (for_each body xs w).1, (for_each body xs w).2).
Proof.
  revert w. induction xs as [|x xs IH]; intros w Hb; simpl; [done|].
  rewrite !bind_eq, Hb by left.
  destruct (body x w) as [w' [[]|e]]; simpl; [|done].
  apply IH. intros y v Hy. apply Hb. by right.
Qed.

Lemma for_each_with2 (T : world → world) {A} (body body' : A → M unit)
    (xs xs' : list A) (R : A → A → Prop) (w : world) :
  Forall2 R xs xs' →
  (∀ x x' v, R x x' → body' x' (T v) = (T (body x v).1, (body x v).2)) →
  for_each body' xs' (T w) = (T (for_each body xs w).1, (for_each body xs w).2).
Proof.
  intros HR Hb. revert w. induction HR as [|x x' xs xs' Hx _ IH]; intros w; simpl; [done|].
  rewrite !bind_eq, (Hb x x' w Hx).
  destruct (body x w) as [w' [[]|e]]; simpl; [apply IH | done].
Qed.

Section Reads.

Context {Loss : Type}.
Variable LMO : tensor → Qc → result tensor.

Lemma FW_param_with o kappa p w :
  FW_param LMO kappa p (with_groups_of o w)
  = (with_groups_of o (FW_param LMO kappa p w).1, (FW_param LMO kappa p w).2).
Proof.
  unfold FW_param. unfold_M. simpl.
  destruct (grad (heap w !!! p)) as [g|]; simpl; [|done].
  by destruct (LMO g kappa).
Qed.

Lemma FW_group_with o g g' w :
  same_radius g g' →
  FW_group LMO g' (with_groups_of o w)
  = (with_groups_of o (FW_group LMO g w).1, (FW_group LMO g w).2).
Proof.
  intros [Hp Hk]. unfold FW_group. rewrite !bind_eq. unfold group_get.
  rewrite <- Hk, <- Hp. destruct (hyper g !! "kappa_l1") as [kappa|]; [|done].
  apply for_each_with. intros q v _. apply FW_param_with.
Qed.

Lemma FW_loops_with o (w : world) :
  Forall2 same_radius (param_groups (self w)) (param_groups o) →
  FW_loops LMO (with_groups_of o w)
  = (with_groups_of o (FW_loops LMO w).1, (FW_loops LMO w).2).
Proof.
  intros Hgs. unfold FW_loops. rewrite !bind_eq. unfold get_groups.
  change (param_groups (self (with_groups_of o w))) with (param_groups o).
  apply (for_each_with2 (with_groups_of o) (FW_group LMO) (FW_group LMO)
           _ _ same_radius w Hgs).
  intros g g' v Hg. by apply FW_group_with.
Qed.

Lemma call_closure_with o (cl : option (closure_t Loss)) (w : world) :
  call_closure cl (with_groups_of o w)
  = (with_groups_of o (call_closure cl w).1, (call_closure cl w).2).
Proof. by rewrite !call_closure_eq. Qed.

Lemma FW_step_with o (cl : option (closure_t Loss)) (w : world) :
  Forall2 same_radius (param_groups (self w)) (param_groups o) →
  FW_step LMO cl (with_groups_of o w)
  = (with_groups_of o (FW_step LMO cl w).1, (FW_step LMO cl w).2).
Proof.
  intros Hgs. rewrite !FW_step_eq, call_closure_with. simpl.
  rewrite FW_loops_with by (by rewrite call_closure_eq).
  by destruct (FW_loops LMO (call_closure cl w).1) as [w' [[]|e]].
Qed.

Lemma FW_step_groups (cl : option (closure_t Loss)) (w : world) :
  param_groups (self (FW_step LMO cl w).1) = param_groups (self w).
Proof.
  set (w1 := (call_closure cl w).1).
  assert (Hfr : FW_frame (self w1) (λ i, grad (heap w1 !!! i)) (log w1) w1).
  { repeat split. exists []. by rewrite app_nil_r. }
  apply (FW_loops_frame LMO) in Hfr. destruct Hfr as (Hs & _).
  rewrite FW_step_eq. fold w1.
  destruct (FW_loops LMO w1) as [w' [[]|e]]; simpl in *; rewrite Hs;
    unfold w1; by rewrite call_closure_eq.
Qed.

Lemma FW_run_with o (calls : list (call Loss)) (w : world) :
  Forall2 same_radius (param_groups (self w)) (param_groups o) →
  run (FW_step LMO) calls (with_groups_of o w)
  = (with_groups_of o (run (FW_step LMO) calls w).1, (run (FW_step LMO) calls w).2).
Proof.
  revert w. induction calls as [|c calls IH]; intros w Hgs; simpl; [done|].
  set (v := mkWorld (c_backward c (heap w)) (self w) (log w)).
  change (mkWorld (c_backward c (heap w)) _ (log w)) with (with_groups_of o v).
  rewrite (FW_step_with o (c_closure c) v Hgs). simpl.
  rewrite IH; [done|]. by rewrite FW_step_groups.
Qed.

Lemma SGDFWl1_init_twice params kappa1 kappa2 o1 o2 :
  SGDFWl1_init params kappa1 = Ok o1 → SGDFWl1_init params kappa2 = Ok o2 →
  Forall2 same_radius (param_groups o1) (param_groups o2)
  ∧ state o2 = state o1 ∧ k o2 = k o1.
Proof.
  unfold SGDFWl1_init, super_init, Optimizer_init. simpl after.
  intros H1 H2. repeat case_decide; try done.
  assert (Hd : ∀ (d1 d2 : Qc) (gs : list param_group),
            Forall2 same_radius (add_param_group {[ "kappa" := d1 ]} <$> gs)
              (add_param_group {[ "kappa" := d2 ]} <$> gs)).
  { intros d1 d2 gs. apply Forall2_fmap, Forall_Forall2_diag, Forall_forall.
    intros g _. split; [done|]. simpl. rewrite !lookup_union.
    by rewrite !lookup_singleton_ne. }
  set (groups := match params with
                 | Plain [] => []
                 | Plain ps => [mkGroup ps ∅]
                 | Groups gs => gs
                 end) in *.
  destruct groups as [|g gs]; [done|].
  destruct (add_param_groups _ [] (g :: gs)) as [r1|e1] eqn:Hr1 in H1; [|done].
  destruct (add_param_groups _ [] (g :: gs)) as [r2|e2] eqn:Hr2 in H2; [|done].
  apply add_param_groups_ok in Hr1, Hr2. simplify_eq/=. split; [|done].
  apply (Hd kappa1 kappa2 (g :: gs)).
Qed.

(** X14. The radius passed to the constructor of [SGDFWl1] is never read by
    [step]: two optimizers constructed over the same parameters or groups
    with different radii answer every sequence of calls from the same heap
    alike, with the same results (returned values and exceptions), the same
    heap of parameters and the same counter.  (The constructor stores its radius under
    ['kappa'], [step] reads ['kappa_l1'].) *)
Theorem constructor_radius_never_read (params : params_arg) (kappa1 kappa2 : Qc)
    (o1 o2 : optimizer) (calls : list (call Loss)) (h : gmap pid Param)
    (l : list event) :
  SGDFWl1_init params kappa1 = Ok o1 → SGDFWl1_init params kappa2 = Ok o2 →
  (run (SGDFWl1_step LMO) calls (mkWorld h o2 l)).2
  = (run (SGDFWl1_step LMO) calls (mkWorld h o1 l)).2
  ∧ heap (run (SGDFWl1_step LMO) calls (mkWorld h o2 l)).1
    = heap (run (SGDFWl1_step LMO) calls (mkWorld h o1 l)).1
  ∧ k (self (run (SGDFWl1_step LMO) calls (mkWorld h o2 l)).1)
    = k (self (run (SGDFWl1_step LMO) calls (mkWorld h o1 l)).1)
  ∧ log (run (SGDFWl1_step LMO) calls (mkWorld h o2 l)).1
    = log (run (SGDFWl1_step LMO) calls (mkWorld h o1 l)).1.
Proof.
  intros H1 H2.
  destruct (SGDFWl1_init_twice _ _ _ _ _ H1 H2) as (Hgs & Hs & Hk).
  assert (Hw : mkWorld h o2 l = with_groups_of o2 (mkWorld h o1 l)).
  { unfold with_groups_of. simpl. rewrite <- Hs, <- Hk. by destruct o2. }
  unfold SGDFWl1_step. rewrite Hw, FW_run_with by done. done.
Qed.

End Reads.

(** ** The names of the experiments *)

Lemma name_split (a a' r r' : string) :
  occurs "_"%char a = false → occurs "_"%char a' = false →
  String.append a (String "_"%char r) = String.append a' (String "_"%char r') →
  a = a' ∧ r = r'.
Proof.
  revert a'. induction a as [|c a IH]; intros [|c' a']; simpl; intros Ha Ha' Heq.
  - by simplify_eq.
  - by simplify_eq.
  - by simplify_eq.
  - injection Heq as -> Heq. case_decide; [done|].
    by destruct (IH a' Ha Ha' Heq) as [-> ->].
Qed.

Lemma name_cons {A} (str : A → string) (a b : A) (l : list A) :
  get_exp_name str (a :: b :: l)
  = String.append (str a) (String "_"%char (get_exp_name str (b :: l))).
Proof. done. Qed.

(** X15. The name of an experiment determines the texts of its arguments,
    when none of the texts contains an underscore (the method names and the
    numbers that [experiment] passes contain none): two calls of
    [get_exp_name] with the same number of such arguments that give the same
    name were given arguments of the same texts. *)
Theorem get_exp_name_injective {A} (str : A → string) (args args' : list A) :
  length args = length args' →
  (∀ a, a ∈ args ++ args' → occurs "_"%char (str a) = false) →
  get_exp_name str args = get_exp_name str args' →
  str <$> args = str <$> args'.
Proof.
  revert args'.
  induction args as [|a args IH]; intros [|a' args'] Hlen Hu Heq; try done.
  destruct args as [|b args], args' as [|b' args']; try done.
  - unfold get_exp_name in Heq. simpl in *. by rewrite Heq.
  - rewrite !name_cons in Heq.
    apply name_split in Heq as [Ha Heq];
      [| apply Hu; rewrite elem_of_app, !elem_of_cons; auto..].
    rewrite (fmap_cons str a), (fmap_cons str a'), Ha. f_equal.
    apply IH; [simpl in *; lia | | done].
    intros x Hx. apply Hu.
    apply elem_of_app in Hx as [Hx|Hx]; apply elem_of_app; [left|right]; by right.
Qed.

Lemma append_assoc (a b c : string) :
  String.append (String.append a b) c = String.append a (String.append b c).
Proof.
  induction a as [|x a IH]; [done|].
  change (String x (String.append (String.append a b) c)
          = String x (String.append a (String.append b c))).
  by rewrite IH.
Qed.

Lemma concat_app (l l' : list string) :
  l ≠ [] → l' ≠ [] →
  String.concat "_" (l ++ l')
  = String.append (String.concat "_" l) (String "_"%char (String.concat "_" l')).
Proof.
  intros Hl Hl'. induction l as [|a l IH]; [done|].
  destruct l as [|b l].
  - simpl. by destruct l'.
  - change (String.concat "_" ((a :: b :: l) ++ l'))
      with (String.append a (String "_"%char (String.concat "_" ((b :: l) ++ l')))).
    rewrite IH by done.
    change (String.concat "_" (a :: b :: l))
      with (String.append a (String "_"%char (String.concat "_" (b :: l)))).
    by rewrite append_assoc.
Qed.

(** X16. Underscores in the arguments are not told apart from the
    separators: the name of two names is the name of all their arguments,
    so that [get_exp_name('a_b', 'c')] and [get_exp_name('a', 'b', 'c')] are
    the same text.  ([str] of a string is the string.) *)
Theorem get_exp_name_flattens (args args' : list string) :
  args ≠ [] → args' ≠ [] →
  get_exp_name id [get_exp_name id args; get_exp_name id args']
  = get_exp_name id (args ++ args').
Proof.
  intros Hl Hl'. unfold get_exp_name. rewrite !list_fmap_id.
  by rewrite concat_app.
Qed.

(** ** From the constructor of [SGDl1] to its step *)

Lemma SGDl1_init_groups (gs : list param_group) (lr lambda_l1 : Qc) (o : optimizer) :
  SGDl1_init (Groups gs) lr lambda_l1 = Ok o →
  0 < lambda_l1
  ∧ o = mkOptimizer {[ "lr" := lr; "l1" := lambda_l1 ]}
          (add_param_group {[ "lr" := lr; "l1" := lambda_l1 ]} <$> gs) ∅ 0.
Proof.
  unfold SGDl1_init, super_init, Optimizer_init. simpl after.
  case_decide; [|done]. destruct gs as [|g gs]; [done|].
  destruct (add_param_groups _ [] (g :: gs)) as [added|e] eqn:Hadded; [|done].
  apply add_param_groups_ok in Hadded as ->. by intros [= <-].
Qed.

Lemma add_param_group_lookup (dflt : gmap string Qc) (g : param_group) (key : string) :
  hyper (add_param_group dflt g) !! key
  = match hyper g !! key with Some v => Some v | None => dflt !! key end.
Proof. simpl. rewrite lookup_union. by destruct (hyper g !! key), (dflt !! key). Qed.

Lemma add_param_group_listed (dflt : gmap string Qc) (gs : list param_group) :
  (add_param_group dflt <$> gs) ≫= params = gs ≫= params.
Proof. induction gs as [|g gs IH]; [done|]. rewrite fmap_cons, !bind_cons, IH. done. Qed.

Section FromGroups.

Context {Loss : Type}.

(** X17. An [SGDl1] constructed over groups that bring their own
    ['momentum'] and ['dampening'] does step.  The constructor completes
    every group with its [lr] and [lambda_l1], a group's own ['lr'] and
    ['l1'] taking precedence (the base class fills in defaults with
    [setdefault]), and the first call without momentum leaves in a
    parameter with values [x] and gradient [g] the values
    [x - lr' * (g + lambda' * sign(x))] for the rate and the penalty of its
    group so completed. *)
Theorem SGDl1_from_groups_steps (gs : list param_group) (lr lambda_l1 : Qc)
    (o : optimizer) (h : gmap pid Param) (l : list event)
    (group : param_group) (p : pid) (x g : tensor) :
  SGDl1_init (Groups gs) lr lambda_l1 = Ok o →
  listed_once gs →
  Forall (λ g', is_Some (hyper g' !! "momentum") ∧ is_Some (hyper g' !! "dampening")) gs →
  group ∈ gs → p ∈ params group → hyper group !! "momentum" = Some 0 →
  h !!! p = mkParam x (Some g) →
  let lr' := default lr (hyper group !! "lr") in
  let lambda' := default lambda_l1 (hyper group !! "l1") in
  (SGDl1_step (Loss := Loss) None (mkWorld h o l)).2 = Ok None
  ∧ data (heap (SGDl1_step (Loss := Loss) None (mkWorld h o l)).1 !!! p)
    = t_sub x (t_scale lr' (t_add g (t_scale lambda' (t_sign x)))).
Proof.
  intros Hinit Hnd Hkeys Hg Hp Hm Hx lr' lambda'.
  apply SGDl1_init_groups in Hinit as [Hl ->].
  set (dflt := ({[ "lr" := lr; "l1" := lambda_l1 ]} : gmap string Qc)).
  set (w := mkWorld h _ l).
  assert (Hnd' : listed_once (param_groups (self w))).
  { unfold listed_once. simpl. by rewrite add_param_group_listed. }
  assert (Hkeys' : Forall SGDl1_keys (param_groups (self w))).
  { simpl. apply Forall_fmap. eapply Forall_impl; [exact Hkeys|].
    intros g' [[mu Hmu] [delta Hdelta]]. unfold compose, SGDl1_keys.
    rewrite !add_param_group_lookup, Hmu, Hdelta.
    repeat split; try done; by case_match. }
  assert (Hg' : add_param_group dflt group ∈ param_groups (self w)).
  { simpl. by apply list_elem_of_fmap_2. }
  assert (Hlr : hyper (add_param_group dflt group) !! "lr" = Some lr').
  { rewrite add_param_group_lookup. unfold lr'. by destruct (hyper group !! "lr"). }
  assert (Hlam : hyper (add_param_group dflt group) !! "l1" = Some lambda').
  { rewrite add_param_group_lookup. unfold lambda'. by destruct (hyper group !! "l1"). }
  assert (Hmu : hyper (add_param_group dflt group) !! "momentum" = Some 0).
  { by rewrite add_param_group_lookup, Hm. }
  assert (Hd : is_Some (hyper (add_param_group dflt group) !! "dampening")).
  { rewrite Forall_forall in Hkeys'. apply (Hkeys' _ Hg'). }
  destruct Hd as [delta Hd].
  pose proof (at_after_closure (Loss := Loss) None w p) as Hat.
  change (heap (call_closure None w).1 !!! p) with (h !!! p) in Hat.
  rewrite Hx in Hat.
  destruct (SGDl1_step_at None w _ _ _ _ _ _ (add_param_group dflt group) _ _ _
              Hnd' Hkeys' Hg' Hp Hlam Hmu Hd Hat
              (SGDl1_param_plain _ _ _ _ _ _ _ _ _ _ Hlr))
    as (Hr & _ & _ & HP & _).
  split; [done|]. rewrite HP. simpl. by rewrite t_add_scaled_neg, t_add_scaled_eq.
Qed.

End FromGroups.

(** ** The further properties on the examples *)

Lemma ex_fw_keys : Forall FW_keys (param_groups (self ex_fw_world)).
Proof. repeat constructor. exists (Qc_of_Z 4). split; compute_done. Qed.

Lemma SGDl1_step_returns_witness :
  (SGDl1_step (Some ex_closure) (ex_sgd_world 0 ∅)).2
  = Ok ((λ c : closure_t Qc, (c (heap (ex_sgd_world 0 ∅))).2) <$> Some ex_closure)
  ∧ log (SGDl1_step (Some ex_closure) (ex_sgd_world 0 ∅)).1
    = log (ex_sgd_world 0 ∅) ++ from_option (λ _ : closure_t Qc, [EvClosure]) [] (Some ex_closure)
      ++ (EvVisit <$> (param_groups (self (ex_sgd_world 0 ∅)) ≫= params))
  ∧ param_groups (self (SGDl1_step (Some ex_closure) (ex_sgd_world 0 ∅)).1)
    = param_groups (self (ex_sgd_world 0 ∅)).
Proof.
  apply (SGDl1_step_returns (Some ex_closure) (ex_sgd_world 0 ∅)). compute_done.
Defined.

(** In numbers: the closure, then the two parameters in the order of the
    group. *)
Example SGDl1_step_returns_values :
  (SGDl1_step (Some ex_closure) (ex_sgd_world 0 ∅)).2 = Ok (Some (Qc_of_Z 7))
  ∧ log (SGDl1_step (Some ex_closure) (ex_sgd_world 0 ∅)).1
    = [EvClosure; EvVisit 1%positive; EvVisit 2%positive].
Proof. split; compute_done. Qed.

Lemma FW_step_returns_witness :
  (SGDFWl1_step LMO_l1 (Some ex_closure) ex_fw_world).2
  = Ok ((λ c : closure_t Qc, (c (heap ex_fw_world)).2) <$> Some ex_closure)
  ∧ log (SGDFWl1_step LMO_l1 (Some ex_closure) ex_fw_world).1
    = log ex_fw_world ++ from_option (λ _ : closure_t Qc, [EvClosure]) [] (Some ex_closure)
      ++ (EvVisit <$> (param_groups (self ex_fw_world) ≫= params))
  ∧ k (self (SGDFWl1_step LMO_l1 (Some ex_closure) ex_fw_world).1)
    = S (k (self ex_fw_world))
  ∧ SGDFWNuclear_step LMO_l1 (Some ex_closure) ex_fw_world
    = SGDFWl1_step LMO_l1 (Some ex_closure) ex_fw_world.
Proof.
  apply (FW_step_returns LMO_l1 LMO_l1_returns (Some ex_closure) ex_fw_world).
  exact ex_fw_keys.
Defined.

Lemma Frank_Wolfe_update_witness :
  heap (SGDFWl1_step (Loss := Qc) LMO_l1 None ex_fw_world).1 !!! 1%positive
  = mkParam (t_add [1; - 2; 0]
               (t_scale (gamma_of (k (self ex_fw_world)))
                  (t_sub [- Qc_of_Z 4; 0; 0] [1; - 2; 0])))
      (Some [frac 1 2; frac 1 2; frac 1 2])
  ∧ heap (SGDFWNuclear_step (Loss := Qc) LMO_l1 None ex_fw_world).1 !!! 1%positive
    = mkParam (t_add [1; - 2; 0]
                 (t_scale (gamma_of (k (self ex_fw_world)))
                    (t_sub [- Qc_of_Z 4; 0; 0] [1; - 2; 0])))
        (Some [frac 1 2; frac 1 2; frac 1 2]).
Proof.
  apply (Frank_Wolfe_update (Loss := Qc) LMO_l1 None ex_fw_world ex_fw_group 1%positive
           [1; - 2; 0] [frac 1 2; frac 1 2; frac 1 2] [- Qc_of_Z 4; 0; 0] (Qc_of_Z 4));
    [exact LMO_l1_returns | compute_done | exact ex_fw_keys | compute_done..].
Defined.

Lemma momentum_buffer_persists_witness :
  is_Some (momentum_buffer (run SGDl1_step ex_calls (ex_sgd_world 1 ex_buffers)).1 1%positive).
Proof.
  apply (momentum_buffer_persists ex_calls (ex_sgd_world 1 ex_buffers) 1%positive).
  compute_done.
Defined.

Lemma SGDl1_without_momentum_keeps_no_state_witness :
  self (SGDl1_step (Some ex_closure) (ex_sgd_world 0 ex_buffers)).1
  = self (ex_sgd_world 0 ex_buffers).
Proof.
  apply (SGDl1_without_momentum_keeps_no_state (Some ex_closure) (ex_sgd_world 0 ex_buffers)).
  intros g mu Hg. apply list_elem_of_singleton in Hg as ->.
  vm_compute. by intros [= <-].
Defined.

Lemma ex_sgd_constructed_eq :
  SGDl1_init (Plain [1%positive; 2%positive]) (frac 1 10) (frac 1 2) = Ok ex_sgd_constructed.
Proof. apply SGDl1_init_plain; [done | compute_done]. Qed.

Lemma SGDl1_constructed_never_steps_witness :
  Forall (λ r : result (option Qc), r = Raise (KeyError "momentum"))
    (run SGDl1_step ex_calls (mkWorld ex_heap ex_sgd_constructed [])).2
  ∧ self (run SGDl1_step ex_calls (mkWorld ex_heap ex_sgd_constructed [])).1
    = ex_sgd_constructed
  ∧ (∀ i, data (heap (run SGDl1_step ex_calls (mkWorld ex_heap ex_sgd_constructed [])).1 !!! i)
          = data (ex_heap !!! i))
  ∧ ∀ p, EvVisit p ∈ log (run SGDl1_step ex_calls (mkWorld ex_heap ex_sgd_constructed [])).1
         → EvVisit p ∈ [].
Proof.
  apply (SGDl1_constructed_never_steps [1%positive; 2%positive] (frac 1 10) (frac 1 2)
           ex_sgd_constructed ex_calls ex_heap []).
  - exact ex_sgd_constructed_eq.
  - exact ex_calls_keep_values.
Defined.

Lemma unlisted_parameter_untouched_witness :
  (heap (SGDl1_step (Some ex_closure) (ex_sgd_world 1 ∅)).1 !!! 3%positive
   = heap (call_closure (Some ex_closure) (ex_sgd_world 1 ∅)).1 !!! 3%positive
   ∧ state (self (SGDl1_step (Some ex_closure) (ex_sgd_world 1 ∅)).1) !! 3%positive
     = state (self (ex_sgd_world 1 ∅)) !! 3%positive)
  ∧ (heap (SGDFWl1_step LMO_l1 (Some ex_closure) (ex_sgd_world 1 ∅)).1 !!! 3%positive
     = heap (call_closure (Some ex_closure) (ex_sgd_world 1 ∅)).1 !!! 3%positive
     ∧ state (self (SGDFWl1_step LMO_l1 (Some ex_closure) (ex_sgd_world 1 ∅)).1) !! 3%positive
       = state (self (ex_sgd_world 1 ∅)) !! 3%positive)
  ∧ heap (SGDFWNuclear_step LMO_l1 (Some ex_closure) (ex_sgd_world 1 ∅)).1 !!! 3%positive
    = heap (call_closure (Some ex_closure) (ex_sgd_world 1 ∅)).1 !!! 3%positive
  ∧ state (self (SGDFWNuclear_step LMO_l1 (Some ex_closure) (ex_sgd_world 1 ∅)).1)
      !! 3%positive
    = state (self (ex_sgd_world 1 ∅)) !! 3%positive.
Proof.
  apply (unlisted_parameter_untouched LMO_l1 (Some ex_closure) (ex_sgd_world 1 ∅) 3%positive).
  compute_done.
Defined.

Lemma failed_step_keeps_earlier_updates_witness :
  (SGDFWl1_step (Loss := Qc) LMO_l1 None ex_mixed_world).2 = Raise (KeyError "kappa_l1")
  ∧ data (heap (SGDFWl1_step (Loss := Qc) LMO_l1 None ex_mixed_world).1 !!! 1%positive)
    = t_add [1; - 2; 0]
        (t_scale (gamma_of (k (self ex_mixed_world)))
           (t_sub [- Qc_of_Z 4; 0; 0] [1; - 2; 0]))
  ∧ k (self (SGDFWl1_step (Loss := Qc) LMO_l1 None ex_mixed_world).1)
    = k (self ex_mixed_world)
  ∧ SGDFWNuclear_step (Loss := Qc) LMO_l1 None ex_mixed_world
    = SGDFWl1_step (Loss := Qc) LMO_l1 None ex_mixed_world.
Proof.
  apply (failed_step_keeps_earlier_updates (Loss := Qc) LMO_l1 LMO_l1_returns None
           ex_mixed_world
           [mkGroup [1%positive] {[ "kappa_l1" := Qc_of_Z 4 ]}] (mkGroup [2%positive] ∅) []
           (mkGroup [1%positive] {[ "kappa_l1" := Qc_of_Z 4 ]}) 1%positive
           [1; - 2; 0] [frac 1 2; frac 1 2; frac 1 2] [- Qc_of_Z 4; 0; 0] (Qc_of_Z 4));
    try compute_done.
  repeat constructor. exists (Qc_of_Z 4). split; compute_done.
Defined.

(** In numbers: the call raises, and the first parameter is at the vertex
    [-4, 0, 0] all the same. *)
Example failed_step_values :
  (SGDFWl1_step (Loss := Qc) LMO_l1 None ex_mixed_world).2 = Raise (KeyError "kappa_l1")
  ∧ data (heap (SGDFWl1_step (Loss := Qc) LMO_l1 None ex_mixed_world).1 !!! 1%positive)
    = [- Qc_of_Z 4; 0; 0]
  ∧ data (heap ex_mixed_world !!! 1%positive) = [1; - 2; 0].
Proof. repeat split; compute_done. Qed.

Lemma penalty_accumulates_without_backward_witness :
  data (heap (SGDl1_step (Loss := Qc) None (ex_sgd_world 0 ∅)).1 !!! 1%positive)
  = t_sub [1; - 2; 0]
      (t_scale (frac 1 10)
         (t_add [frac 1 2; frac 1 2; frac 1 2] (t_scale (frac 1 2) (t_sign [1; - 2; 0]))))
  ∧ (SGDl1_step (Loss := Qc) None (SGDl1_step (Loss := Qc) None (ex_sgd_world 0 ∅)).1).2
    = Ok None
  ∧ grad (heap (SGDl1_step (Loss := Qc) None
                  (SGDl1_step (Loss := Qc) None (ex_sgd_world 0 ∅)).1).1 !!! 1%positive)
    = Some (t_add
              (t_add [frac 1 2; frac 1 2; frac 1 2] (t_scale (frac 1 2) (t_sign [1; - 2; 0])))
              (t_scale (frac 1 2)
                 (t_sign
                    (t_sub [1; - 2; 0]
                       (t_scale (frac 1 10)
                          (t_add [frac 1 2; frac 1 2; frac 1 2]
                             (t_scale (frac 1 2) (t_sign [1; - 2; 0]))))))))
  ∧ data (heap (SGDl1_step (Loss := Qc) None
                  (SGDl1_step (Loss := Qc) None (ex_sgd_world 0 ∅)).1).1 !!! 1%positive)
    = t_sub
        (t_sub [1; - 2; 0]
           (t_scale (frac 1 10)
              (t_add [frac 1 2; frac 1 2; frac 1 2] (t_scale (frac 1 2) (t_sign [1; - 2; 0])))))
        (t_scale (frac 1 10)
           (t_add
              (t_add [frac 1 2; frac 1 2; frac 1 2] (t_scale (frac 1 2) (t_sign [1; - 2; 0])))
              (t_scale (frac 1 2)
                 (t_sign
                    (t_sub [1; - 2; 0]
                       (t_scale (frac 1 10)
                          (t_add [frac 1 2; frac 1 2; frac 1 2]
                             (t_scale (frac 1 2) (t_sign [1; - 2; 0]))))))))).
Proof.
  apply (penalty_accumulates_without_backward (Loss := Qc) (ex_sgd_world 0 ∅) (ex_sgd_group 0)
           1%positive [1; - 2; 0] [frac 1 2; frac 1 2; frac 1 2] (frac 1 2) (frac 1 10));
    compute_done.
Defined.

(** In numbers: the gradient [1/2, 1/2, 1/2] is [1, 0, 1/2] after the first
    call and [3/2, -1/2, 0] after the second. *)
Example penalty_accumulates_values :
  grad (heap (SGDl1_step (Loss := Qc) None (ex_sgd_world 0 ∅)).1 !!! 1%positive)
  = Some [1; 0; frac 1 2]
  ∧ grad (heap (SGDl1_step (Loss := Qc) None
                  (SGDl1_step (Loss := Qc) None (ex_sgd_world 0 ∅)).1).1 !!! 1%positive)
    = Some [frac 3 2; frac (-1) 2; 0].
Proof. split; compute_done. Qed.

Lemma ex_fw_optimizer_eq :
  SGDFWl1_init (Groups [mkGroup [1%positive; 2%positive] {[ "kappa_l1" := Qc_of_Z 4 ]}])
    (Qc_of_Z 4) = Ok ex_fw_optimizer.
Proof. unfold SGDFWl1_init. by rewrite decide_True by compute_done. Qed.

Lemma ex_fw_optimizer_9_eq :
  SGDFWl1_init (Groups [mkGroup [1%positive; 2%positive] {[ "kappa_l1" := Qc_of_Z 4 ]}])
    (Qc_of_Z 9) = Ok ex_fw_optimizer_9.
Proof. unfold SGDFWl1_init. by rewrite decide_True by compute_done. Qed.

Lemma constructor_radius_never_read_witness :
  (run (SGDFWl1_step LMO_l1) ex_calls (mkWorld ex_heap ex_fw_optimizer_9 [])).2
  = (run (SGDFWl1_step LMO_l1) ex_calls (mkWorld ex_heap ex_fw_optimizer [])).2
  ∧ heap (run (SGDFWl1_step LMO_l1) ex_calls (mkWorld ex_heap ex_fw_optimizer_9 [])).1
    = heap (run (SGDFWl1_step LMO_l1) ex_calls (mkWorld ex_heap ex_fw_optimizer [])).1
  ∧ k (self (run (SGDFWl1_step LMO_l1) ex_calls (mkWorld ex_heap ex_fw_optimizer_9 [])).1)
    = k (self (run (SGDFWl1_step LMO_l1) ex_calls (mkWorld ex_heap ex_fw_optimizer [])).1)
  ∧ log (run (SGDFWl1_step LMO_l1) ex_calls (mkWorld ex_heap ex_fw_optimizer_9 [])).1
    = log (run (SGDFWl1_step LMO_l1) ex_calls (mkWorld ex_heap ex_fw_optimizer [])).1.
Proof.
  apply (constructor_radius_never_read LMO_l1
           (Groups [mkGroup [1%positive; 2%positive] {[ "kappa_l1" := Qc_of_Z 4 ]}])
           (Qc_of_Z 4) (Qc_of_Z 9) ex_fw_optimizer ex_fw_optimizer_9 ex_calls ex_heap []).
  - exact ex_fw_optimizer_eq.
  - exact ex_fw_optimizer_9_eq.
Defined.

Lemma get_exp_name_injective_witness :
  id <$> ["SGDFWl1"; "300.0"; "250"; "256"] = id <$> ["SGDFWl1"; "300.0"; "250"; "256"].
Proof.
  apply (get_exp_name_injective id ["SGDFWl1"; "300.0"; "250"; "256"]
           ["SGDFWl1"; "300.0"; "250"; "256"]).
  - reflexivity.
  - intros a Ha. repeat (apply elem_of_cons in Ha as [->|Ha]; [reflexivity|]).
    by apply elem_of_nil in Ha.
  - reflexivity.
Defined.

(** The name of the experiment that [run.py] runs by default with
    [-m SGDFWl1 -k 300]. *)
Example get_exp_name_example :
  get_exp_name id ["SGDFWl1"; "300.0"; "250"; "256"] = "SGDFWl1_300.0_250_256".
Proof. reflexivity. Qed.

Lemma get_exp_name_flattens_witness :
  get_exp_name id [get_exp_name id ["a"; "b"]; get_exp_name id ["c"]]
  = get_exp_name id (["a"; "b"] ++ ["c"]).
Proof. apply (get_exp_name_flattens ["a"; "b"] ["c"]); done. Defined.

(** In numbers: two different argument lists with one name. *)
Example get_exp_name_collision :
  get_exp_name id ["a_b"; "c"] = get_exp_name id ["a"; "b"; "c"]
  ∧ ["a_b"; "c"] ≠ ["a"; "b"; "c"].
Proof. split; [reflexivity | done]. Qed.

Lemma ex_sgd_from_groups_eq :
  SGDl1_init (Groups [ex_sgd_group 0]) 1 1 = Ok ex_sgd_from_groups.
Proof. unfold SGDl1_init. by rewrite decide_True by compute_done. Qed.

Lemma SGDl1_from_groups_steps_witness :
  (SGDl1_step (Loss := Qc) None (mkWorld ex_heap ex_sgd_from_groups [])).2 = Ok None
  ∧ data (heap (SGDl1_step (Loss := Qc) None (mkWorld ex_heap ex_sgd_from_groups [])).1
            !!! 1%positive)
    = t_sub [1; - 2; 0]
        (t_scale (default 1 (hyper (ex_sgd_group 0) !! "lr"))
           (t_add [frac 1 2; frac 1 2; frac 1 2]
              (t_scale (default 1 (hyper (ex_sgd_group 0) !! "l1")) (t_sign [1; - 2; 0])))).
Proof.
  apply (SGDl1_from_groups_steps (Loss := Qc) [ex_sgd_group 0] 1 1 ex_sgd_from_groups
           ex_heap [] (ex_sgd_group 0) 1%positive [1; - 2; 0] [frac 1 2; frac 1 2; frac 1 2]).
  - exact ex_sgd_from_groups_eq.
  - compute_done.
  - repeat constructor; compute_done.
  - compute_done.
  - compute_done.
  - compute_done.
  - compute_done.
Defined.

(** In numbers: the rate 1/10 and the penalty 1/2 of the group, not the rate
    1 and the penalty 1 of the constructor. *)
Example SGDl1_from_groups_values :
  data (heap (SGDl1_step (Loss := Qc) None (mkWorld ex_heap ex_sgd_from_groups [])).1
          !!! 1%positive)
  = [frac 9 10; - 2; frac (-1) 20].
Proof. compute_done. Qed.

(** * The Frank-Wolfe step in the arithmetic of the source *)

(** ** Rounding to nearest *)

Section Binary.

Local Open Scope Q_scope.

Lemma nearest_even_cases (n : Z) (d : positive) :
  (2 * Z.abs (nearest_even n d * Zpos d - n) <= Zpos d)%Z.
Proof.
  unfold nearest_even.
  pose proof (Z.div_mod n (Zpos d) ltac:(lia)) as Hdm.
  pose proof (Z.mod_pos_bound n (Zpos d) ltac:(lia)) as Hr.
  destruct (Z.compare_spec (2 * (n mod Zpos d)) (Zpos d)); [destruct (Z.even _)| |]; nia.
Qed.

Lemma nearest_even_error (y : Q) :
  Qabs (inject_Z (nearest_even (Qnum y) (Qden y)) - y) <= 1 # 2.
Proof.
  destruct y as [n d]. cbn [Qnum Qden].
  pose proof (nearest_even_cases n d) as H.
  set (z := nearest_even _ _) in *. clearbody z.
  apply Qabs_Qle_condition.
  unfold Qle, Qminus, Qplus, Qopp, inject_Z. cbn [Qnum Qden]. lia.
Qed.

Lemma nearest_even_le (y : Q) (m : Z) :
  y <= inject_Z m -> (nearest_even (Qnum y) (Qden y) <= m)%Z.
Proof.
  destruct y as [n d]. unfold Qle, inject_Z. simpl. intros H.
  unfold nearest_even.
  pose proof (Z.div_mod n (Zpos d) ltac:(lia)) as Hdm.
  pose proof (Z.mod_pos_bound n (Zpos d) ltac:(lia)) as Hr.
  destruct (Z.compare_spec (2 * (n mod Zpos d)) (Zpos d)); [destruct (Z.even _)| |]; nia.
Qed.

Lemma nearest_even_ge (y : Q) (m : Z) :
  inject_Z m <= y -> (m <= nearest_even (Qnum y) (Qden y))%Z.
Proof.
  destruct y as [n d]. unfold Qle, inject_Z. simpl. intros H.
  unfold nearest_even.
  pose proof (Z.div_mod n (Zpos d) ltac:(lia)) as Hdm.
  pose proof (Z.mod_pos_bound n (Zpos d) ltac:(lia)) as Hr.
  destruct (Z.compare_spec (2 * (n mod Zpos d)) (Zpos d)); [destruct (Z.even _)| |]; nia.
Qed.

Lemma pow2_pos (e : Z) : 0 < 2 ^ e.
Proof. by apply Qpower_0_lt. Qed.

Lemma pow2_inv (e : Z) : 2 ^ (- e) * 2 ^ e == 1.
Proof.
  rewrite <- Qpower_plus by done.
  replace (- e + e)%Z with 0%Z by lia. reflexivity.
Qed.

Lemma pow2_succ (e : Z) : 2 ^ (e + 1) == 2 * 2 ^ e.
Proof. rewrite Qpower_plus by done. rewrite Qmult_comm. reflexivity. Qed.

Lemma pow2_Z (n : Z) : (0 <= n)%Z -> inject_Z (2 ^ n) == 2 ^ n.
Proof. intros Hn. by rewrite Zpower_Qpower. Qed.

(** The scaled value is at least [2 ^ (prec - 1)] before the exponent is clamped. *)
Lemma ulp_exponent_normal (prec emin : Z) (x : Q) :
  ~ x == 0 -> (emin < ulp_exponent prec emin x)%Z ->
  2 ^ (prec - 1) <= Qabs x * 2 ^ (- ulp_exponent prec emin x).
Proof.
  intros Hx. unfold ulp_exponent.
  set (a := Z.log2 (Z.abs (Qnum x))). set (b := Z.log2 (Zpos (Qden x))).
  set (e0 := (a - b - prec)%Z).
  assert (H0 : 2 ^ (prec - 1) <= Qabs x * 2 ^ (- e0)).
  { destruct x as [n d]. cbn [Qnum Qden] in *.
    assert (Hn : (0 < Z.abs n)%Z).
    { destruct (decide (n = 0%Z)) as [->|]; [destruct Hx; reflexivity | lia]. }
    destruct (Z.log2_spec (Z.abs n) Hn) as [Ha _]. fold a in Ha.
    destruct (Z.log2_spec (Zpos d) ltac:(lia)) as [_ Hb]. fold b in Hb.
    assert (Ha0 : (0 <= a)%Z) by apply Z.log2_nonneg.
    assert (Hb0 : (0 <= b)%Z) by apply Z.log2_nonneg.
    assert (HA : 2 ^ a <= inject_Z (Z.abs n)).
    { rewrite <- pow2_Z by done. rewrite <- Zle_Qle. done. }
    assert (HB : inject_Z (Zpos d) <= 2 ^ (b + 1)).
    { rewrite <- pow2_Z by lia. rewrite <- Zle_Qle. replace (Z.succ b) with (b + 1)%Z in Hb by lia. lia. }
    assert (HE : 2 ^ (- e0) == 2 ^ (prec - 1) * 2 ^ (b + 1) / 2 ^ a).
    { unfold Qdiv. rewrite <- Qpower_opp, <- !Qpower_plus by done.
      f_equiv. unfold e0. lia. }
    assert (HX : Qabs (n # d) == inject_Z (Z.abs n) / inject_Z (Zpos d)).
    { unfold Qabs. apply Qmake_Qdiv. }
    rewrite HX, HE.
    pose proof (pow2_pos a). pose proof (pow2_pos (b + 1)). pose proof (pow2_pos (prec - 1)).
    assert (HD : 0 < inject_Z (Zpos d)) by (rewrite <- (Zlt_Qlt 0); lia).
    set (N := inject_Z (Z.abs n)) in *. set (D := inject_Z (Zpos d)) in *.
    set (A := 2 ^ a) in *. set (B := 2 ^ (b + 1)) in *. set (T := 2 ^ (prec - 1)) in *.
    clearbody N D A B T.
    assert (HF : N / D * (T * B / A) == T * (N * B) / (D * A)).
    { field. split; apply Qnot_eq_sym, Qlt_not_eq; done. }
    rewrite HF. clear - HA HB H H0 H1 HD. apply Qle_shift_div_l; [nra|].
      assert (H2 : D * A <= D * N) by nra.
      assert (H3 : D * N <= B * N) by nra.
      assert (H4 : D * A <= N * B) by lra.
      nra. }
  destruct (Qlt_le_dec _ _) as [Hlt|Hge]; intros He.
  - rewrite Z.max_l by lia. done.
  - rewrite Z.max_l by lia.
    assert (HQ : 2 ^ (- (e0 + 1)) == 2 ^ (- e0) / 2).
    { replace (- (e0 + 1))%Z with (- e0 - 1)%Z by lia.
      rewrite Qpower_minus by done. reflexivity. }
    assert (HP : 2 ^ prec == 2 * 2 ^ (prec - 1)).
    { rewrite <- pow2_succ. f_equiv. lia. }
    rewrite HP in Hge. rewrite HQ.
    set (Y := Qabs x * 2 ^ (- e0)) in *. set (T := 2 ^ (prec - 1)) in *.
    assert (HF : Qabs x * (2 ^ (- e0) / 2) == Y / 2) by (unfold Y; field).
    rewrite HF. clearbody Y T. clear - Hge. apply Qle_shift_div_l; lra.
Qed.


Lemma round_Q_0 (prec emin : Z) (x : Q) : x == 0 -> round_Q prec emin x == 0.
Proof.
  intros Hx. unfold round_Q.
  set (e := ulp_exponent prec emin x). clearbody e.
  assert (Hy : Qnum (x * 2 ^ (- e)) = 0%Z).
  { assert (Hn : Qnum x = 0%Z).
    { destruct x as [n d]. unfold Qeq in Hx. simpl in *. lia. }
    unfold Qmult. cbn [Qnum]. rewrite Hn. done. }
  rewrite Hy. unfold nearest_even. rewrite Z.div_0_l, Z.mod_0_l by done.
  simpl. apply Qmult_0_l.
Qed.

(** The error of a rounding: half a unit in the last place, which is at most
    the relative error [2 ^ (- prec)] where the exponent is not clamped and
    [2 ^ (emin - 1)] where it is. *)
Lemma round_Q_error (prec emin : Z) (x : Q) :
  Qabs (round_Q prec emin x - x) <= 2 ^ (- prec) * Qabs x + 2 ^ (emin - 1).
Proof.
  pose proof (pow2_pos (- prec)) as Hu. pose proof (pow2_pos (emin - 1)) as Heta.
  pose proof (Qabs_nonneg x) as Hax.
  destruct (Qeq_dec x 0) as [Hx|Hx].
  { rewrite (round_Q_0 _ _ _ Hx), Hx.
    assert (E1 : Qabs (0 - 0) == 0) by reflexivity.
    assert (E2 : Qabs 0 == 0) by reflexivity. rewrite E1, E2.
    set (U := 2 ^ (- prec)) in *. set (H := 2 ^ (emin - 1)) in *.
    clearbody U H. clear - Heta. lra. }
  pose proof (ulp_exponent_normal prec emin x Hx) as Hnormal.
  unfold round_Q. set (e := ulp_exponent prec emin x) in *.
  set (y := x * 2 ^ (- e)).
  pose proof (nearest_even_error y) as Herr.
  set (r := inject_Z (nearest_even (Qnum y) (Qden y))) in *. clearbody r.
  pose proof (pow2_pos e) as HW. pose proof (pow2_inv e) as Hinv.
  assert (Hxy : y * 2 ^ e == x).
  { unfold y. rewrite <- Qmult_assoc, Hinv. ring. }
  assert (Hy : Qabs x * 2 ^ (- e) == Qabs y).
  { unfold y. rewrite Qabs_Qmult, (Qabs_pos (2 ^ (- e))); [done|].
    apply Qlt_le_weak, pow2_pos. }
  clearbody y.
  assert (Hd : r * 2 ^ e - x == (r - y) * 2 ^ e).
  { rewrite <- Hxy. ring. }
  rewrite Hd, Qabs_Qmult, (Qabs_pos (2 ^ e)) by (by apply Qlt_le_weak).
  assert (Hhalf : Qabs (r - y) * 2 ^ e <= 2 ^ e / 2).
  { set (W := 2 ^ e) in *. set (E := Qabs (r - y)) in *. clearbody W E.
    apply Qle_shift_div_l; [done|]. clear - Herr HW. nra. }
  eapply Qle_trans; [exact Hhalf|].
  destruct (decide (emin < e)%Z) as [He|He].
  - specialize (Hnormal He).
    assert (HP : 2 ^ prec == 2 * 2 ^ (prec - 1)).
    { rewrite <- pow2_succ. f_equiv. lia. }
    assert (HU : 2 ^ (- prec) * 2 ^ prec == 1) by apply pow2_inv.
    assert (HX : Qabs x == Qabs x * 2 ^ (- e) * 2 ^ e).
    { rewrite <- Qmult_assoc, Hinv. ring. }
    rewrite HP in HU.
    set (Yv := Qabs x * 2 ^ (- e)) in *.
    rewrite HX.
    set (W := 2 ^ e) in *. set (U := 2 ^ (- prec)) in *. set (T := 2 ^ (prec - 1)) in *.
    set (H := 2 ^ (emin - 1)) in *.
    clearbody Yv W U T H. clear - Hnormal HW HU Heta Hu.
    apply Qle_shift_div_r; [done|].
    assert (H1 : 0 <= U * (Yv - T)) by nra.
    assert (H2 : 1 <= 2 * U * Yv) by lra.
    assert (H3 : 0 <= W * (2 * U * Yv - 1)) by nra.
    lra.
  - assert (Ee : e = emin) by (unfold e, ulp_exponent in *; lia).
    rewrite Ee. assert (HP : 2 ^ (emin - 1) == 2 ^ emin / 2).
    { rewrite Qpower_minus by done. reflexivity. }
    rewrite HP. set (H := 2 ^ emin / 2). set (U := 2 ^ (- prec)) in *.
    set (X := Qabs x) in *.
    clearbody H U X. clear - Hu Hax. nra.
Qed.

Lemma ulp_exponent_unit (prec emin : Z) (x : Q) :
  (0 < prec)%Z -> (emin <= 0)%Z -> 0 <= x -> x <= 1 ->
  (ulp_exponent prec emin x <= 0)%Z.
Proof.
  intros Hp He H0 H1. unfold ulp_exponent.
  assert (Hl : (Z.log2 (Z.abs (Qnum x)) <= Z.log2 (Zpos (Qden x)))%Z).
  { apply Z.log2_le_mono. destruct x as [n d]. unfold Qle in *. simpl in *. lia. }
  destruct (Qlt_le_dec _ _); lia.
Qed.

(** A rounding does not leave the unit interval: 0 and 1 are representable. *)
Lemma round_Q_unit (prec emin : Z) (x : Q) :
  (0 < prec)%Z -> (emin <= 0)%Z -> 0 <= x -> x <= 1 ->
  0 <= round_Q prec emin x /\ round_Q prec emin x <= 1.
Proof.
  intros Hp He H0 H1.
  pose proof (ulp_exponent_unit prec emin x Hp He H0 H1) as Hexp.
  unfold round_Q. set (e := ulp_exponent prec emin x) in *. clearbody e.
  set (y := x * 2 ^ (- e)).
  pose proof (pow2_pos e) as HW. pose proof (pow2_pos (- e)) as HP.
  pose proof (pow2_inv e) as Hinv.
  assert (Hy0 : inject_Z 0 <= y).
  { unfold y. change (inject_Z 0) with 0. clear - H0 HP. set (P := 2 ^ (- e)) in *. clearbody P. nra. }
  assert (Hy1 : y <= inject_Z (2 ^ (- e))).
  { rewrite pow2_Z by lia. unfold y. clear - H1 HP. set (P := 2 ^ (- e)) in *. clearbody P. nra. }
  apply nearest_even_ge in Hy0. apply nearest_even_le in Hy1.
  set (r := nearest_even (Qnum y) (Qden y)) in *. clearbody r.
  assert (Hr0 : 0 <= inject_Z r) by (by rewrite <- (Zle_Qle 0)).
  assert (Hr1 : inject_Z r <= 2 ^ (- e)).
  { rewrite <- pow2_Z by lia. by rewrite <- Zle_Qle. }
  set (R := inject_Z r) in *. set (W := 2 ^ e) in *. set (P := 2 ^ (- e)) in *.
  clearbody R W P. clear - Hr0 Hr1 HW HP Hinv. split; nra.
Qed.

End Binary.


(** Inequalities between canonical rationals, as inequalities between
    rationals. *)
Ltac qc2q :=
  repeat (progress (unfold Qcle, Qclt, Qcplus, Qcmult, Qcminus, Qcopp, Q2Qc in *;
                    cbn [this] in *));
  repeat rewrite Qred_correct in *.

Lemma round_bits_error (prec emin : Z) (x : Qc) :
  Qcabs (round_bits prec emin x - x)
  ≤ unit_roundoff prec * Qcabs x + underflow_unit emin.
Proof.
  unfold round_bits, unit_roundoff, underflow_unit, Qcabs. qc2q. apply round_Q_error.
Qed.

Lemma round_bits_unit (prec emin : Z) (x : Qc) :
  (0 < prec)%Z → (emin ≤ 0)%Z → 0 ≤ x → x ≤ 1 →
  0 ≤ round_bits prec emin x ∧ round_bits prec emin x ≤ 1.
Proof.
  intros Hp He H0 H1. unfold round_bits. qc2q. by apply round_Q_unit.
Qed.

(** ** One update *)

Lemma FW_update_in_exact (gamma : Qc) (x s : tensor) :
  FW_update_in exact gamma x s = t_add x (t_sub (t_scale gamma s) (t_scale gamma x)).
Proof. unfold FW_update_in. simpl. by rewrite !list_fmap_id. Qed.

Lemma gamma_in_exact (k : nat) : gamma_in exact k = gamma_of k.
Proof. done. Qed.

Lemma FW_update_in_length (ar : arithmetic) (gamma : Qc) (x s : tensor) :
  (length (FW_update_in ar gamma x s) ≤ length x)%nat.
Proof. unfold FW_update_in, t_add. rewrite length_fmap, length_zip_with. lia. Qed.

Section Rounding_errors.

Variable ar : arithmetic.
Variables u eta : Qc.
Hypothesis u_nonneg : 0 ≤ u.
Hypothesis eta_nonneg : 0 ≤ eta.
Hypothesis rnd_error : ∀ x, Qcabs (rnd_tensor ar x - x) ≤ u * Qcabs x + eta.

Local Abbreviation rnd := (rnd_tensor ar).

(** One entry of the update: the convex combination, and what the four
    roundings add to it. *)
Lemma entry_bound (g p s : Qc) :
  0 ≤ g → g ≤ 1 →
  Qcabs (rnd (p + rnd (rnd (g * s) - rnd (g * p))))
  ≤ (1 + u) * ((1 - g) * Qcabs p + g * Qcabs s
               + u * (2 + u) * g * (Qcabs s + Qcabs p) + (1 + 2 + 2 * u) * eta)
    + eta.
Proof.
  intros Hg0 Hg1.
  set (a := rnd (g * s)). set (b := rnd (g * p)).
  set (d := rnd (a - b)). set (q := rnd (p + d)).
  pose proof (rnd_error (g * s)) as Ha. fold a in Ha.
  pose proof (rnd_error (g * p)) as Hb. fold b in Hb.
  pose proof (rnd_error (a - b)) as Hd. fold d in Hd.
  pose proof (rnd_error (p + d)) as Hq. fold q in Hq.
  rewrite !Qcabs_Qcmult, (Qcabs_pos g) in Ha, Hb by done.
  assert (Hg1' : 0 ≤ 1 - g) by (by apply Qcle_minus_iff in Hg1).
  assert (T1 : Qcabs a ≤ g * Qcabs s + Qcabs (a - g * s)).
  { pose proof (Qcabs_triangle (g * s) (a - g * s)) as H.
    replace (g * s + (a - g * s)) with a in H by ring.
    by rewrite Qcabs_Qcmult, (Qcabs_pos g) in H. }
  assert (T2 : Qcabs b ≤ g * Qcabs p + Qcabs (b - g * p)).
  { pose proof (Qcabs_triangle (g * p) (b - g * p)) as H.
    replace (g * p + (b - g * p)) with b in H by ring.
    by rewrite Qcabs_Qcmult, (Qcabs_pos g) in H. }
  assert (T3 : Qcabs (a - b) ≤ Qcabs a + Qcabs b).
  { pose proof (Qcabs_triangle a (- b)) as H. by rewrite Qcabs_opp in H. }
  assert (T5 : Qcabs ((1 - g) * p + g * s) ≤ (1 - g) * Qcabs p + g * Qcabs s).
  { etrans; [apply Qcabs_triangle|].
    by rewrite !Qcabs_Qcmult, (Qcabs_pos g), (Qcabs_pos (1 - g)). }
  assert (T4 : Qcabs (p + d)
               ≤ Qcabs ((1 - g) * p + g * s) + Qcabs (a - g * s)
                 + Qcabs (b - g * p) + Qcabs (d - (a - b))).
  { replace (p + d)
      with ((1 - g) * p + g * s + (a - g * s) + - (b - g * p) + (d - (a - b))) by ring.
    etrans; [apply Qcabs_triangle|]. apply Qcplus_le_compat; [|done].
    etrans; [apply Qcabs_triangle|]. rewrite Qcabs_opp. apply Qcplus_le_compat; [|done].
    apply Qcabs_triangle. }
  assert (T6 : Qcabs q ≤ Qcabs (p + d) + Qcabs (q - (p + d))).
  { pose proof (Qcabs_triangle (p + d) (q - (p + d))) as H.
    by replace (p + d + (q - (p + d))) with q in H by ring. }
  pose proof (Qcabs_nonneg p) as HP. pose proof (Qcabs_nonneg s) as HS.
  generalize dependent (Qcabs (q - (p + d))). intros E4.
  generalize dependent (Qcabs (d - (a - b))). intros E3.
  generalize dependent (Qcabs (b - g * p)). intros E2.
  generalize dependent (Qcabs (a - g * s)). intros E1.
  generalize dependent (Qcabs ((1 - g) * p + g * s)). intros C.
  generalize dependent (Qcabs (p + d)). intros PD.
  generalize dependent (Qcabs (a - b)). intros AB.
  generalize dependent (Qcabs a). intros A.
  generalize dependent (Qcabs b). intros B.
  generalize dependent (Qcabs q). intros Qv.
  generalize dependent (Qcabs p). intros P.
  generalize dependent (Qcabs s). intros S.
  intros. clear a b d q rnd_error.
  qc2q.
  assert (H1 : (u * AB <= u * (A + B))%Q) by nra.
  assert (H2 : (u * (A + B) <= u * (g * S + E1 + (g * P + E2)))%Q) by nra.
  assert (H3 : (u * E1 <= u * (u * (g * S) + eta))%Q) by nra.
  assert (H4 : (u * E2 <= u * (u * (g * P) + eta))%Q) by nra.
  assert (H5 : (PD <= (1 + - g) * P + g * S + u * (1 + 1 + u) * g * (S + P)
                      + (1 + (1 + 1) + (1 + 1) * u) * eta)%Q) by nra.
  assert (H6 : (u * PD <= u * ((1 + - g) * P + g * S + u * (1 + 1 + u) * g * (S + P)
                      + (1 + (1 + 1) + (1 + 1) * u) * eta))%Q) by nra.
  nra.
Qed.

Lemma of_nat_succ (n : nat) : Qc_of_Z (Z.of_nat (S n)) = Qc_of_Z (Z.of_nat n) + 1.
Proof. rewrite Nat2Z.inj_succ, <- Z.add_1_r. apply Qc_is_canon. unfold Qc_of_Z. qc2q.
  rewrite inject_Z_plus. reflexivity. Qed.

Lemma of_nat_nonneg (n : nat) : 0 ≤ Qc_of_Z (Z.of_nat n).
Proof. rewrite <- Z2Qc_inj_0. apply (proj1 (Z2Qc_inj_le 0 _)). lia. Qed.

(** The whole tensor. *)
Lemma update_bound (g : Qc) (x s : tensor) :
  0 ≤ g → g ≤ 1 →
  l1norm (FW_update_in ar g x s)
  ≤ (1 + u) * ((1 - g) * l1norm x + g * l1norm s
               + u * (2 + u) * g * (l1norm s + l1norm x))
    + Qc_of_Z (Z.of_nat (length x)) * ((1 + u) * (1 + 2 + 2 * u) + 1) * eta.
Proof.
  intros Hg0 Hg1.
  assert (Hnn : ∀ (x s : tensor),
            0 ≤ (1 + u) * ((1 - g) * l1norm x + g * l1norm s
                           + u * (2 + u) * g * (l1norm s + l1norm x))
                + Qc_of_Z (Z.of_nat (length x)) * ((1 + u) * (1 + 2 + 2 * u) + 1) * eta).
  { intros x' s'. pose proof (l1norm_nonneg x') as HX. pose proof (l1norm_nonneg s') as HS.
    pose proof (of_nat_nonneg (length x')) as HL.
    generalize dependent (l1norm x'). generalize dependent (l1norm s').
    generalize dependent (Qc_of_Z (Z.of_nat (length x'))). intros L HL S HS X HX.
    clear rnd_error. qc2q.
    assert (H1 : (0 <= (1 + - g) * X)%Q) by nra.
    assert (H2 : (0 <= g * S)%Q) by nra.
    assert (H3 : (0 <= u * (1 + 1 + u) * g * (S + X))%Q).
    { assert (0 <= u * (1 + 1 + u))%Q by nra. assert (0 <= g * (S + X))%Q by nra. nra. }
    assert (H4 : (0 <= L * ((1 + u) * (1 + (1 + 1) + (1 + 1) * u) + 1) * eta)%Q).
    { assert (0 <= (1 + u) * (1 + (1 + 1) + (1 + 1) * u) + 1)%Q by nra.
      assert (0 <= L * ((1 + u) * (1 + (1 + 1) + (1 + 1) * u) + 1))%Q by nra. nra. }
    nra. }
  revert s. induction x as [|a x IH]; intros [|b s].
  - apply (Hnn [] []).
  - apply (Hnn [] (b :: s)).
  - apply (Hnn (a :: x) []).
  - change (FW_update_in ar g (a :: x) (b :: s))
      with (rnd (a + rnd (rnd (g * b) - rnd (g * a))) :: FW_update_in ar g x s).
    cbn [l1norm foldr length]. fold (l1norm (FW_update_in ar g x s)).
    fold (l1norm x). fold (l1norm s). rewrite of_nat_succ.
    etrans; [apply Qcplus_le_compat; [apply (entry_bound g a b Hg0 Hg1) | apply IH]|].
    match goal with |- ?l ≤ ?r => replace r with l by ring end. done.
Qed.

(** One update inside a bound [B] that is at least the radius. *)
Lemma update_in_grow (g : Qc) (x s : tensor) (n : nat) (B : Qc) :
  0 ≤ g → g ≤ 1 → l1norm x ≤ B → l1norm s ≤ B → (length x ≤ n)%nat →
  l1norm (FW_update_in ar g x s) ≤ grow u eta n B.
Proof.
  intros Hg0 Hg1 Hx Hs Hn. etrans; [by apply update_bound|]. unfold grow.
  pose proof (l1norm_nonneg x) as HX. pose proof (l1norm_nonneg s) as HS.
  pose proof (of_nat_nonneg (length x)) as HL.
  assert (HN : Qc_of_Z (Z.of_nat (length x)) ≤ Qc_of_Z (Z.of_nat n)).
  { apply (proj1 (Z2Qc_inj_le _ _)). lia. }
  generalize dependent (l1norm x). generalize dependent (l1norm s).
  generalize dependent (Qc_of_Z (Z.of_nat (length x))).
  generalize dependent (Qc_of_Z (Z.of_nat n)).
  intros N L HL HN S HS0 HS X HX0 HX. clear rnd_error. qc2q.
  assert (A1 : ((1 + - g) * X + g * S <= B)%Q) by nra.
  assert (A2 : (g * (S + X) <= (1 + 1) * B)%Q) by nra.
  assert (A0 : (0 <= u * (1 + 1 + u))%Q) by nra.
  assert (A3 : (u * (1 + 1 + u) * g * (S + X) <= u * (1 + 1 + u) * ((1 + 1) * B))%Q).
  { assert (0 <= u * (1 + 1 + u) * ((1 + 1) * B - g * (S + X)))%Q
      by (apply Qmult_le_0_compat; lra).
    lra. }
  assert (A4 : ((1 + u) * ((1 + - g) * X + g * S + u * (1 + 1 + u) * g * (S + X))
               <= (1 + u) * ((1 + (1 + 1) * u * (1 + 1 + u)) * B))%Q) by nra.
  assert (A5 : (0 <= ((1 + u) * (1 + (1 + 1) + (1 + 1) * u) + 1) * eta)%Q).
  { assert (0 <= (1 + u) * (1 + (1 + 1) + (1 + 1) * u) + 1)%Q by nra. nra. }
  assert (A6 : (L * (((1 + u) * (1 + (1 + 1) + (1 + 1) * u) + 1) * eta)
               <= N * (((1 + u) * (1 + (1 + 1) + (1 + 1) * u) + 1) * eta))%Q) by nra.
  nra.
Qed.

Lemma grow_ge (n : nat) (B : Qc) : 0 ≤ B → B ≤ grow u eta n B.
Proof.
  intros HB. unfold grow. pose proof (of_nat_nonneg n) as HN.
  generalize dependent (Qc_of_Z (Z.of_nat n)). intros N HN. clear rnd_error. qc2q.
  assert (A0 : (0 <= u * (1 + 1 + u))%Q) by nra.
  assert (A1 : (B <= (1 + u) * (1 + (1 + 1) * u * (1 + 1 + u)) * B)%Q).
  { assert (0 <= ((1 + u) * (1 + (1 + 1) * u * (1 + 1 + u)) - 1) * B)%Q
      by (apply Qmult_le_0_compat; [nra | done]).
    lra. }
  assert (A5 : (0 <= ((1 + u) * (1 + (1 + 1) + (1 + 1) * u) + 1) * eta)%Q).
  { assert (0 <= (1 + u) * (1 + (1 + 1) + (1 + 1) * u) + 1)%Q by nra. nra. }
  nra.
Qed.

End Rounding_errors.

(** In exact arithmetic nothing is added. *)
Lemma grow_exact (n : nat) (B : Qc) : grow 0 0 n B = B.
Proof. unfold grow. ring. Qed.


(** ** The parameter through the loops *)

Lemma takes_for_each_one {A} (P Q : world → Prop) (body : A → M unit)
    (xs1 : list A) (x : A) (xs2 : list A) :
  (∀ w, P w → Q w) →
  (∀ y, y ∈ xs1 → keeps P (body y)) →
  takes P (body x) Q →
  (∀ y, y ∈ xs2 → keeps Q (body y)) →
  takes P (for_each body (xs1 ++ x :: xs2)) Q.
Proof.
  intros HPQ H1 Hx H2. induction xs1 as [|y xs1 IH]; simpl; intros w Hw; rewrite bind_eq.
  - specialize (Hx w Hw). destruct (body x w) as [w' [[]|e]]; simpl in *; [|done].
    by apply keeps_for_each.
  - pose proof (H1 y ltac:(left) w Hw) as Hy.
    destruct (body y w) as [w' [[]|e]]; simpl in *.
    + apply IH; [intros z Hz; apply H1; by right | done].
    + by apply HPQ.
Qed.

Section Near.

Context {Loss : Type}.
Variable ar : arithmetic.
Variable LMO : tensor → Qc → result tensor.
Variables u eta : Qc.
Hypothesis u_nonneg : 0 ≤ u.
Hypothesis eta_nonneg : 0 ≤ eta.
Hypothesis rnd_error : ∀ x, Qcabs (rnd_tensor ar x - x) ≤ u * Qcabs x + eta.
Hypothesis gamma_unit : ∀ k, 0 ≤ gamma_in ar k ∧ gamma_in ar k ≤ 1.
Hypothesis LMO_in_ball :
  ∀ g kappa s, LMO g kappa = Ok s → l1norm s ≤ kappa ∧ length s = length g.

(** A visit touches the values of the visited parameter only: they stay, or
    are what the update computes from the point of the oracle. *)
Lemma FW_param_in_footprint kappa q w :
  let w' := (FW_param_in ar LMO kappa q w).1 in
  self w' = self w
  ∧ (∀ i, i ≠ q → heap w' !!! i = heap w !!! i)
  ∧ (data (heap w' !!! q) = data (heap w !!! q)
     ∨ ∃ g s, grad (heap w !!! q) = Some g ∧ LMO g kappa = Ok s
         ∧ data (heap w' !!! q)
           = FW_update_in ar (gamma_in ar (k (self w))) (data (heap w !!! q)) s).
Proof.
  unfold FW_param_in. unfold_M. simpl.
  destruct (grad (heap w !!! q)) as [g|] eqn:Hg; simpl; [|by repeat split; auto].
  destruct (LMO g kappa) as [s|e] eqn:Hs; simpl; [|by repeat split; auto].
  map_simpl. repeat split; [by intros; map_simpl | right; eauto].
Qed.

Lemma near_ball_grows gs p n B w :
  near_ball gs p n B w → near_ball gs p n (grow u eta n B) w.
Proof.
  intros (Hg & Hl & Hn). repeat split; [done..|].
  etrans; [exact Hn|]. apply grow_ge; [done..|].
  etrans; [apply l1norm_nonneg | exact Hn].
Qed.

Lemma FW_param_in_other gs p n B kappa q :
  q ≠ p → keeps (near_ball gs p n B) (FW_param_in ar LMO kappa q).
Proof.
  intros Hq w (Hg & Hl & Hn).
  destruct (FW_param_in_footprint kappa q w) as (Hs & Hoth & _).
  unfold near_ball. by rewrite Hs, Hoth.
Qed.

Lemma FW_param_in_self gs p n B kappa :
  kappa ≤ B →
  takes (near_ball gs p n B) (FW_param_in ar LMO kappa p)
    (near_ball gs p n (grow u eta n B)).
Proof.
  intros Hk w Hw.
  destruct (FW_param_in_footprint kappa p w) as (Hs & _ & Hd).
  destruct Hd as [Hd|(g & s & _ & Hs' & Hd)].
  - apply near_ball_grows. destruct Hw as (Hg & Hl & Hn).
    unfold near_ball. by rewrite Hs, Hd.
  - destruct Hw as (Hg & Hl & Hn). unfold near_ball. rewrite Hs, Hd.
    split; [done|]. split.
    + etrans; [apply FW_update_in_length | done].
    + destruct (gamma_unit (k (self w))) as [H0 H1].
      apply update_in_grow; try done.
      etrans; [by apply (LMO_in_ball g kappa s) | done].
Qed.

Lemma FW_group_in_other gs p n B g' :
  p ∉ params g' → keeps (near_ball gs p n B) (FW_group_in ar LMO g').
Proof.
  intros Hp. unfold FW_group_in. apply keeps_group_get. intros kappa _.
  apply keeps_for_each. intros q Hq. apply FW_param_in_other. by intros ->.
Qed.

Lemma FW_loops_in_near gs p n kappa B :
  listed_once gs → radius_of gs p kappa → kappa ≤ B →
  takes (near_ball gs p n B) (FW_loops_in ar LMO) (near_ball gs p n (grow u eta n B)).
Proof.
  intros Hnd Hrad Hk w Hw. unfold FW_loops_in. rewrite bind_eq. unfold get_groups.
  rewrite (proj1 Hw). revert w Hw.
  destruct (decide (p ∈ gs ≫= params)) as [Hin|Hout].
  - apply list_elem_of_bind in Hin as (group & Hp & Hg).
    destruct (listed_once_split _ _ _ Hnd Hg Hp)
      as (gs1 & gs2 & l1 & l2 & Hgs & Hps & H1 & H2 & Hoth).
    rewrite Hgs. apply takes_for_each_one.
    + apply near_ball_grows.
    + intros g' Hg'. apply FW_group_in_other, Hoth. rewrite elem_of_app. auto.
    + intros w Hw. unfold FW_group_in. rewrite bind_eq. unfold group_get.
      destruct (hyper group !! "kappa_l1") as [kappa'|] eqn:Hkey;
        [|by apply near_ball_grows].
      rewrite (Hrad group kappa' Hg Hp Hkey), Hps. revert w Hw.
      apply takes_for_each_one.
      * apply near_ball_grows.
      * intros q Hq. apply FW_param_in_other. by intros ->.
      * by apply FW_param_in_self.
      * intros q Hq. apply FW_param_in_other. by intros ->.
    + intros g' Hg'. apply FW_group_in_other, Hoth. rewrite elem_of_app. auto.
  - intros w Hw. apply near_ball_grows. revert w Hw.
    apply keeps_for_each. intros g' Hg'. apply FW_group_in_other.
    intros Hp. apply Hout, list_elem_of_bind. eauto.
Qed.

Lemma FW_step_in_eq (closure : option (closure_t Loss)) (w : world) :
  FW_step_in ar LMO closure w
  = match FW_loops_in ar LMO (call_closure closure w).1 with
    | (w', Ok _) => ((incr_k w').1, Ok (closure_loss closure w))
    | (w', Raise e) => (w', Raise e)
    end.
Proof.
  unfold FW_step_in. rewrite bind_eq, call_closure_eq. simpl.
  rewrite bind_eq. by destruct (FW_loops_in _ _ _) as [w' [[]|e]].
Qed.

Lemma FW_step_in_near gs p n kappa B (cl : option (closure_t Loss)) :
  listed_once gs → radius_of gs p kappa → kappa ≤ B →
  (∀ c, cl = Some c → keeps_values (λ h, (c h).1)) →
  takes (near_ball gs p n B) (FW_step_in ar LMO cl) (near_ball gs p n (grow u eta n B)).
Proof.
  intros Hnd Hrad Hk Hcl w (Hg & Hl & Hn).
  assert (H1 : near_ball gs p n B (call_closure cl w).1).
  { rewrite call_closure_eq. unfold near_ball. simpl.
    destruct cl as [c|]; simpl; [|done]. by rewrite (Hcl c eq_refl (heap w) p). }
  apply (FW_loops_in_near gs p n kappa B Hnd Hrad Hk) in H1.
  rewrite FW_step_in_eq.
  destruct (FW_loops_in ar LMO _) as [w' [[]|e]]; simpl in *; done.
Qed.

Lemma grow_iter_ge (n m : nat) (B : Qc) : 0 ≤ B → B ≤ Nat.iter m (grow u eta n) B.
Proof.
  intros HB. induction m as [|m IH]; simpl; [done|].
  etrans; [exact IH|]. apply grow_ge; [done..|]. by etrans.
Qed.

Lemma FW_run_in_near gs p n kappa B (calls : list (call Loss)) (w : world) :
  listed_once gs → radius_of gs p kappa → kappa ≤ B →
  Forall call_keeps_values calls →
  near_ball gs p n B w →
  near_ball gs p n (Nat.iter (length calls) (grow u eta n) B)
    (run (FW_step_in ar LMO) calls w).1.
Proof.
  intros Hnd Hrad Hk Hcalls. revert B Hk w.
  induction Hcalls as [|c calls [Hb Hc] _ IH]; intros B Hk w Hw; simpl; [done|].
  assert (HB : 0 ≤ B).
  { destruct Hw as (_ & _ & Hn). etrans; [apply l1norm_nonneg | exact Hn]. }
  rewrite <- Nat.iter_succ, Nat.iter_succ_r. apply IH.
  - etrans; [exact Hk|]. by apply grow_ge.
  - apply (FW_step_in_near gs p n kappa B); try done.
    destruct Hw as (Hg & Hl & Hn). unfold near_ball. simpl. by rewrite Hb.
Qed.

End Near.

(** ** The two arithmetics *)

Lemma for_each_ext {A} (f g : A → M unit) (xs : list A) (w : world) :
  (∀ x v, f x v = g x v) → for_each f xs w = for_each g xs w.
Proof.
  intros Hfg. revert w. induction xs as [|x xs IH]; intros w; simpl; [done|].
  rewrite !bind_eq, Hfg. by destruct (g x w) as [w' [[]|e]].
Qed.

(** In exact arithmetic the step is the step of the update formulas. *)
Lemma FW_step_in_exact {Loss} (LMO : tensor → Qc → result tensor)
    (cl : option (closure_t Loss)) (w : world) :
  FW_step_in exact LMO cl w = FW_step LMO cl w.
Proof.
  assert (Hp : ∀ kappa p v, FW_param_in exact LMO kappa p v = FW_param LMO kappa p v).
  { intros kappa p v. unfold FW_param_in, FW_param. unfold_M. simpl.
    destruct (grad (heap v !!! p)) as [g|]; simpl; [|done].
    destruct (LMO g kappa) as [s|e]; simpl; [|done].
    by rewrite FW_update_in_exact. }
  assert (Hg : ∀ g v, FW_group_in exact LMO g v = FW_group LMO g v).
  { intros g v. unfold FW_group_in, FW_group. rewrite !bind_eq.
    destruct (group_get g "kappa_l1" v) as [v' [kappa|e]]; [|done].
    by apply for_each_ext. }
  rewrite FW_step_in_eq, FW_step_eq. unfold FW_loops_in, FW_loops.
  rewrite !bind_eq. destruct (get_groups _) as [v' [gs|e]]; [|done].
  by rewrite (for_each_ext _ _ gs v' Hg).
Qed.

Lemma FW_run_in_exact {Loss} (LMO : tensor → Qc → result tensor)
    (calls : list (call Loss)) (w : world) :
  run (FW_step_in exact LMO) calls w = run (FW_step LMO) calls w.
Proof.
  revert w. induction calls as [|c calls IH]; intros w; simpl; [done|].
  by rewrite FW_step_in_exact, IH.
Qed.

Lemma iter_grow_exact (n m : nat) (B : Qc) : Nat.iter m (grow 0 0 n) B = B.
Proof. induction m as [|m IH]; simpl; [done|]. by rewrite IH, grow_exact. Qed.

(** The step size of float32 is in the unit interval. *)
Lemma gamma_in_float32 (k : nat) : 0 ≤ gamma_in float32 k ∧ gamma_in float32 k ≤ 1.
Proof.
  unfold gamma_in, float32. simpl.
  destruct (round_bits_unit 53 (-1074) (gamma_of k)) as [H0 H1];
    [done | done | apply Qclt_le_weak, gamma_of_pos | apply gamma_of_le_1 |].
  by apply round_bits_unit.
Qed.

(** C2, as the code has it.  Through any sequence of calls to
    [SGDFWl1.step], a parameter that is listed once and whose L1 norm is at
    most the radius [kappa] that [step] reads for it stays near the ball: in
    the float32 arithmetic of the source every call lets the bound grow by a
    rounding error, [B] becoming [grow u eta n B] for the unit roundoff
    [u = 2^-24], the underflow unit [eta = 2^-150] and the [n] entries of the
    parameter; in exact arithmetic the norm stays at most [kappa].  The
    oracle returns points of the shape of the gradient and of L1 norm at
    most the radius it is given, and the model and the closures leave the
    values of the parameters alone. *)
Theorem SGDFWl1_stays_near_ball {Loss : Type} (LMO : tensor → Qc → result tensor)
    (calls : list (call Loss)) (w : world) (p : pid) (kappa : Qc) :
  (∀ g kappa' s, LMO g kappa' = Ok s → l1norm s ≤ kappa' ∧ length s = length g) →
  Forall call_keeps_values calls →
  listed_once (param_groups (self w)) →
  radius_of (param_groups (self w)) p kappa →
  l1norm (data (heap w !!! p)) ≤ kappa →
  l1norm (data (heap (run (SGDFWl1_step_in float32 LMO) calls w).1 !!! p))
  ≤ Nat.iter (length calls)
      (grow (unit_roundoff 24) (underflow_unit (-149)) (length (data (heap w !!! p))))
      kappa
  ∧ l1norm (data (heap (run (SGDFWl1_step_in exact LMO) calls w).1 !!! p)) ≤ kappa
  ∧ run (SGDFWl1_step_in exact LMO) calls w = run (SGDFWl1_step LMO) calls w.
Proof.
  intros HLMO Hcalls Hnd Hrad Hn.
  assert (Hw : near_ball (param_groups (self w)) p (length (data (heap w !!! p))) kappa w)
    by done.
  split; [|split].
  - apply (FW_run_in_near float32 LMO (unit_roundoff 24) (underflow_unit (-149)))
      with (kappa := kappa) (calls := calls) in Hw; try done.
    + apply Hw.
    + apply round_bits_error.
    + apply gamma_in_float32.
  - apply (FW_run_in_near exact LMO 0 0)
      with (kappa := kappa) (calls := calls) in Hw; try done.
    + rewrite iter_grow_exact in Hw. apply Hw.
    + intros x. simpl. replace (x - x) with 0 by ring.
      rewrite Qcmult_0_l, Qcplus_0_l. done.
    + intros k. rewrite gamma_in_exact.
      split; [apply Qclt_le_weak, gamma_of_pos | apply gamma_of_le_1].
  - apply FW_run_in_exact.
Qed.

Lemma ex_float_calls_keep_values : Forall call_keeps_values ex_float_calls.
Proof. repeat constructor; try done; apply set_gradient_keeps_values. Qed.

Lemma ex_float_radius :
  radius_of (param_groups (self ex_float_world)) 1%positive 1.
Proof.
  intros g kappa' Hg _. apply list_elem_of_singleton in Hg as ->.
  vm_compute. by intros [= <-].
Qed.

Lemma SGDFWl1_stays_near_ball_witness :
  l1norm (data (heap (run (SGDFWl1_step_in float32 LMO_l1) ex_float_calls ex_float_world).1
                  !!! 1%positive))
  ≤ Nat.iter (length ex_float_calls)
      (grow (unit_roundoff 24) (underflow_unit (-149))
         (length (data (heap ex_float_world !!! 1%positive))))
      1
  ∧ l1norm (data (heap (run (SGDFWl1_step_in exact LMO_l1) ex_float_calls ex_float_world).1
                    !!! 1%positive)) ≤ 1
  ∧ run (SGDFWl1_step_in exact LMO_l1) ex_float_calls ex_float_world
    = run (SGDFWl1_step LMO_l1) ex_float_calls ex_float_world.
Proof.
  apply (SGDFWl1_stays_near_ball LMO_l1 ex_float_calls ex_float_world 1%positive 1).
  - intros g kappa' s Hs. split; [by eapply LMO_l1_in_ball | by eapply LMO_l1_length].
  - exact ex_float_calls_keep_values.
  - compute_done.
  - exact ex_float_radius.
  - compute_done.
Defined.

(** The claim as the specification states it fails in the arithmetic of the
    source: the parameter [1/2, 1/4] starts inside the ball of radius 1, the
    oracle returns points of the ball, all three calls return, and the
    parameter ends at [13981014 / 2^24, -11184810 / 2^26], of L1 norm
    [1 + 2^-25]. *)
Lemma SGDFWl1_leaves_ball_in_float32 :
  l1norm (data (heap ex_float_world !!! 1%positive)) ≤ 1
  ∧ (∀ g s, LMO_l1 g 1 = Ok s → l1norm s ≤ 1)
  ∧ (run (SGDFWl1_step_in float32 LMO_l1) ex_float_calls ex_float_world).2
    = [Ok None; Ok None; Ok None]
  ∧ data (heap (run (SGDFWl1_step_in float32 LMO_l1) ex_float_calls ex_float_world).1
            !!! 1%positive)
    = [frac 13981014 16777216; frac (-11184810) 67108864]
  ∧ ¬ l1norm (data (heap (run (SGDFWl1_step_in float32 LMO_l1) ex_float_calls
                            ex_float_world).1 !!! 1%positive)) ≤ 1.
Proof.
  split; [compute_done|]. split; [intros g s; apply LMO_l1_in_ball|].
  split; [compute_done|]. split; compute_done.
Qed.

(** In numbers: exact arithmetic ends at [5/6, -1/6], of L1 norm 1, and the
    bound of three calls in float32 is a little more than [1 + 2^-25]. *)
Example SGDFWl1_near_ball_values :
  data (heap (run (SGDFWl1_step_in exact LMO_l1) ex_float_calls ex_float_world).1
          !!! 1%positive) = [frac 5 6; frac (-1) 6]
  ∧ l1norm (data (heap (run (SGDFWl1_step_in float32 LMO_l1) ex_float_calls
                          ex_float_world).1 !!! 1%positive)) = 1 + frac 1 33554432
  ∧ 1 + frac 1 33554432
    ≤ Nat.iter 3 (grow (unit_roundoff 24) (underflow_unit (-149)) 2) 1
  ∧ Nat.iter 3 (grow (unit_roundoff 24) (underflow_unit (-149)) 2) 1
    ≤ 1 + frac 1 1000000.
Proof. repeat split; compute_done. Qed.
